(** * Verification of the Twilio <-> OpenAI Realtime bridge (server.cjs)

    Shallow embedding of the hardened relay in [server.cjs]: the per-address
    admission control, the stream-token check of the WebSocket upgrade, the
    outbound audio aggregation, the tool-call pipeline and the teardown of a
    session.

    Conventions.
    - JavaScript numbers that hold millisecond timestamps or counters are
      integers here ([Z]); none of the modelled code divides or overflows.
    - A JavaScript [Map] keyed by strings is a [gmap string _], a [Set] of
      strings a [gset string], an array a [list].
    - An optional string field [x] that the code reads as [x || ''] or tests
      with [if (x)] is an [option string]; [None] stands for a missing
      (undefined or null) field. *)

From stdpp Require Import gmap strings list pretty.
From Stdlib Require Import ZArith QArith Lia Ascii.

Local Open Scope string_scope.
Local Open Scope list_scope.
Local Open Scope Z_scope.

(** ** JavaScript idioms *)

(** [x || ''] on an optional string. *)
Definition orEmpty (x : option string) : string :=
  match x with
  | Some s => s
  | None => EmptyString
  end.

(** Truthiness of a string: every string but the empty one. *)
Definition truthyStr (s : string) : bool :=
  match s with
  | EmptyString => false
  | String _ _ => true
  end.

(** Truthiness of an optional string ([if (x)] where [x] may be missing). *)
Definition truthy (x : option string) : bool := truthyStr (orEmpty x).

(** Truthiness of a number read from a map ([ts && ...]): missing and [0]
    are falsy. *)
Definition truthyNum (x : option Z) : bool :=
  match x with
  | Some n => negb (n =? 0)
  | None => false
  end.

(** ** RateGate: sliding window and circuit breaker *)

Module RateGate.

Definition RATE_LIMIT_WINDOW_MS : Z := 60000.
Definition RATE_LIMIT_MAX_REQUESTS : Z := 60.
Definition RATE_LIMIT_CIRCUIT_BREAKER : Z := 120.
Definition WS_MAX_CONNECTIONS_PER_IP : nat := 5.

(** One entry of [rateLimitStore]: [{ count, windowStart, blocked }]. *)
Record RateEntry := mkRateEntry {
  count : Z;
  windowStart : Z;
  blocked : bool
}.

Inductive Reason := rate_limit | circuit_breaker.

(** The object returned by [checkRateLimit]. *)
Inductive RateResult :=
| Allowed
| Rejected (reason : Reason).

(** [checkRateLimit(ip)], with [Date.now()] made an argument and the
    process-wide [rateLimitStore] threaded through.  The entry is a shared
    mutable object of the store, so every mutation of [entry] is written
    back under [ip]. *)
Definition checkRateLimit (now : Z) (ip : string)
    (store : gmap string RateEntry) : gmap string RateEntry * RateResult :=
  let entry :=
    match store !! ip with
    | Some e => e
    | None => mkRateEntry 0 now false
    end in
  let entry :=
    if RATE_LIMIT_WINDOW_MS <? now - windowStart entry
    then mkRateEntry 0 now false
    else entry in
  if blocked entry then (<[ip := entry]> store, Rejected circuit_breaker)
  else
    let entry := mkRateEntry (count entry + 1) (windowStart entry) (blocked entry) in
    if RATE_LIMIT_CIRCUIT_BREAKER <? count entry then
      (<[ip := mkRateEntry (count entry) (windowStart entry) true]> store,
       Rejected circuit_breaker)
    else if RATE_LIMIT_MAX_REQUESTS <? count entry then
      (<[ip := entry]> store, Rejected rate_limit)
    else (<[ip := entry]> store, Allowed).

(** Consecutive admission checks of one address at the given instants. *)
Fixpoint runChecks (ip : string) (times : list Z)
    (store : gmap string RateEntry) : gmap string RateEntry * list RateResult :=
  match times with
  | [] => (store, [])
  | now :: rest =>
      let '(store1, r) := checkRateLimit now ip store in
      let '(store2, rs) := runChecks ip rest store1 in
      (store2, r :: rs)
  end.

(** What the [k]-th counted attempt of a window is answered. *)
Definition verdict (k : Z) : RateResult :=
  if RATE_LIMIT_CIRCUIT_BREAKER <? k then Rejected circuit_breaker
  else if RATE_LIMIT_MAX_REQUESTS <? k then Rejected rate_limit
  else Allowed.

(** The entry of an address after [k] attempts in the window opened at [w]:
    the counter stops at 121, where the breaker trips. *)
Definition entryAfter (k w : Z) : RateEntry :=
  mkRateEntry (Z.min k (RATE_LIMIT_CIRCUIT_BREAKER + 1)) w
              (RATE_LIMIT_CIRCUIT_BREAKER <? k).

(** No window of [ip] is running at instant [now]. *)
Definition windowClosed (now : Z) (ip : string)
    (store : gmap string RateEntry) : Prop :=
  match store !! ip with
  | Some e => RATE_LIMIT_WINDOW_MS < now - windowStart e
  | None => True
  end.

(** The verdicts of attempts number [k+1 .. k+n]. *)
Fixpoint verdicts (k : Z) (n : nat) : list RateResult :=
  match n with
  | O => []
  | S n' => verdict (k + 1) :: verdicts (k + 1) n'
  end.

End RateGate.

(** ** Process-wide admission state: connection limits and cooldowns *)

Module Admission.

Definition RECONNECT_COOLDOWN_MS : Z := 60000.
Definition WS_REJECTED_COOLDOWN_MS : Z := 30000.

(** The module-level tables and counters of [server.cjs] that the WebSocket
    path reads and writes.  A socket is identified by a number. *)
Record Global := mkGlobal {
  wsConnectionsByIp : gmap string (gset nat);
  reconnectCooldowns : gmap string Z;
  ipRejectionCooldowns : gmap string Z;
  metricsRequestCount : Z;
  metricsWsMessageCount : Z;
  metricsWsRejections : Z;
  metricsLastReset : Z
}.

Definition emptyGlobal : Global := mkGlobal ∅ ∅ ∅ 0 0 0 0.

Inductive CooldownReason := ip_rejection_cooldown | stream_cooldown.

(** The object returned by [checkReconnectCooldown]. *)
Inductive CooldownResult :=
| CooldownAllowed
| CooldownRejected (reason : CooldownReason) (waitMs : Z).

(** [canOpenWsConnection(ip)]. *)
Definition canOpenWsConnection (ip : string) (g : Global) : bool :=
  match wsConnectionsByIp g !! ip with
  | None => true
  | Some connections =>
      bool_decide (size connections < RateGate.WS_MAX_CONNECTIONS_PER_IP)%nat
  end.

(** [trackWsConnection(ip, ws)]. *)
Definition trackWsConnection (ip : string) (ws : nat) (g : Global) : Global :=
  let connections := default ∅ (wsConnectionsByIp g !! ip) in
  mkGlobal (<[ip := connections ∪ {[ws]}]> (wsConnectionsByIp g))
           (reconnectCooldowns g) (ipRejectionCooldowns g)
           (metricsRequestCount g) (metricsWsMessageCount g)
           (metricsWsRejections g) (metricsLastReset g).

(** [untrackWsConnection(ip, ws)]. *)
Definition untrackWsConnection (ip : string) (ws : nat) (g : Global) : Global :=
  match wsConnectionsByIp g !! ip with
  | None => g
  | Some connections =>
      let connections := connections ∖ {[ws]} in
      mkGlobal (if bool_decide (size connections = 0%nat)
                then delete ip (wsConnectionsByIp g)
                else <[ip := connections]> (wsConnectionsByIp g))
               (reconnectCooldowns g) (ipRejectionCooldowns g)
               (metricsRequestCount g) (metricsWsMessageCount g)
               (metricsWsRejections g) (metricsLastReset g)
  end.

(** The key [`${ip}:${streamSid}`] of [reconnectCooldowns]. *)
Definition streamKey (ip streamSid : string) : string :=
  ip +:+ ":" +:+ streamSid.

(** [checkReconnectCooldown(ip, streamSid)]; [streamSid] may be [null]. *)
Definition checkReconnectCooldown (now : Z) (ip : string)
    (streamSid : option string) (g : Global) : CooldownResult :=
  let ipCooldown := ipRejectionCooldowns g !! ip in
  if truthyNum ipCooldown
     && (now - default 0 ipCooldown <? WS_REJECTED_COOLDOWN_MS)
  then CooldownRejected ip_rejection_cooldown
         (WS_REJECTED_COOLDOWN_MS - (now - default 0 ipCooldown))
  else if truthy streamSid then
    let lastAttempt := reconnectCooldowns g !! streamKey ip (orEmpty streamSid) in
    if truthyNum lastAttempt
       && (now - default 0 lastAttempt <? RECONNECT_COOLDOWN_MS)
    then CooldownRejected stream_cooldown
           (RECONNECT_COOLDOWN_MS - (now - default 0 lastAttempt))
    else CooldownAllowed
  else CooldownAllowed.

(** [trackConnectionAttempt(ip, streamSid)]. *)
Definition trackConnectionAttempt (now : Z) (ip : string)
    (streamSid : option string) (g : Global) : Global :=
  if truthy streamSid then
    mkGlobal (wsConnectionsByIp g)
             (<[streamKey ip (orEmpty streamSid) := now]> (reconnectCooldowns g))
             (ipRejectionCooldowns g)
             (metricsRequestCount g) (metricsWsMessageCount g)
             (metricsWsRejections g) (metricsLastReset g)
  else g.

(** [trackRejection(ip)]. *)
Definition trackRejection (now : Z) (ip : string) (g : Global) : Global :=
  mkGlobal (wsConnectionsByIp g) (reconnectCooldowns g)
           (<[ip := now]> (ipRejectionCooldowns g))
           (metricsRequestCount g) (metricsWsMessageCount g)
           (metricsWsRejections g + 1) (metricsLastReset g).

(** [logMetrics()]: the counters start again every minute. *)
Definition logMetrics (now : Z) (g : Global) : Global :=
  if 60000 <=? now - metricsLastReset g then
    mkGlobal (wsConnectionsByIp g) (reconnectCooldowns g)
             (ipRejectionCooldowns g) 0 0 0 now
  else g.

(** [metricsWsMessageCount++]. *)
Definition countWsMessage (g : Global) : Global :=
  mkGlobal (wsConnectionsByIp g) (reconnectCooldowns g)
           (ipRejectionCooldowns g)
           (metricsRequestCount g) (metricsWsMessageCount g + 1)
           (metricsWsRejections g) (metricsLastReset g).

(** What the upgrade handler needs of the request: the path and the [token]
    parameter of the parsed URL, and the address [getClientIp(req)]. *)
Record UpgradeRequest := mkUpgradeRequest {
  pathname : string;
  token : option string;
  agentParam : option string;
  clientIp : string
}.

(** How the handler of ['upgrade'] leaves the raw socket: destroyed, or
    handed to [wss.handleUpgrade], whose callback registers the new
    WebSocket and emits ['connection']. *)
Inductive UpgradeOutcome := SocketDestroyed | HandleUpgrade.

(** [server.on('upgrade', ...)].  [expected] is [process.env.STREAM_SECRET],
    [ws] the identity the accepted WebSocket gets.  The instants read by
    [Date.now()] during one run of the handler are one instant [now]. *)
Definition onUpgrade (expected : option string) (now : Z)
    (req : UpgradeRequest) (ws : nat) (g : Global) : Global * UpgradeOutcome :=
  if negb (String.eqb (pathname req) "/twilio/stream") then (g, SocketDestroyed)
  else
    match checkReconnectCooldown now (clientIp req) None g with
    | CooldownRejected _ _ =>
        (trackRejection now (clientIp req) g, SocketDestroyed)
    | CooldownAllowed =>
        if negb (canOpenWsConnection (clientIp req) g) then
          (trackRejection now (clientIp req) g, SocketDestroyed)
        else if truthy expected then
          if negb (truthy (token req)) then
            (trackRejection now (clientIp req) g, SocketDestroyed)
          else if negb (String.eqb (orEmpty (token req)) (orEmpty expected)) then
            (trackRejection now (clientIp req) g, SocketDestroyed)
          else (trackWsConnection (clientIp req) ws g, HandleUpgrade)
        else (trackWsConnection (clientIp req) ws g, HandleUpgrade)
    end.

End Admission.

(** ** One session: the closure of [wss.on('connection', ...)] *)

Module Bridge.
Import Admission.

Definition MAX_AUDIO_QUEUE_SIZE : nat := 500.
Definition MAX_HANDLED_TOOL_IDS : nat := 100.
Definition MAX_PENDING_FUNCTION_CALLS : nat := 50.
Definition AUDIO_AGGREGATION_MAX_CHUNKS : nat := 10.
Definition BACKPRESSURE_LIMIT : Z := 64 * 1024.

(** [readyState] of a WebSocket of the [ws] library. *)
Inductive ReadyState := CONNECTING | OPEN | CLOSING | CLOSED.

Definition isOpen (r : ReadyState) : bool :=
  match r with
  | OPEN => true
  | _ => false
  end.

(** [socket.close()]: a socket that is not yet closed starts closing. *)
Definition closeSocket (r : ReadyState) : ReadyState :=
  match r with
  | CLOSED => CLOSED
  | _ => CLOSING
  end.

(** The telephony socket [ws]: what the session reads of it. *)
Record TwilioSocket := mkTwilioSocket {
  wsId : nat;
  readyState : ReadyState;
  bufferedAmount : Z;
  ws_clientIp : string
}.

(** The speech-AI leg: the socket made by [startOpenAI] (there is at most
    one per session), whether the variable [openaiWs] still refers to it,
    and the flag [openaiStarted]. *)
Record AiLeg := mkAiLeg {
  aiSocket : option ReadyState;
  openaiWs : bool;
  openaiStarted : bool
}.

(** An entry of [pendingFunctionCalls]: [{ name, arguments }]. *)
Record PendingCall := mkPendingCall {
  pendingName : string;
  pendingArguments : string
}.

(** Messages the session writes to the speech-AI leg. *)
Inductive OutEvent :=
| session_update (agent : string)
| greeting_item
| response_create
| input_audio_buffer_append (audio : string)
| function_call_output (call_id : string) (output : string).

(** What the session does to the outside, in the order it does it. *)
Inductive Effect :=
| TwilioSend (streamSid payload : string)
| TwilioClose
| OpenAIConnect
| OpenAISend (ev : OutEvent)
| OpenAIClose
| ExecuteTool (callId fnName argsStr : string).

(** The variables of the connection closure. *)
Record Session := mkSession {
  ws : TwilioSocket;
  streamSid : option string;
  agent : string;
  ai : AiLeg;
  audioAggregationBuffer : list string;
  audioAggregationTimer : bool;
  inboundAudioBuffer : list string;
  inboundAggregationTimer : bool;
  handledToolCallIds : gset string;
  handledToolCallOrder : list string;
  pendingFunctionCalls : gmap string PendingCall;
  trace : list Effect
}.

Definition setWs (v : TwilioSocket) (s : Session) : Session :=
  mkSession v (streamSid s) (agent s) (ai s)
            (audioAggregationBuffer s) (audioAggregationTimer s)
            (inboundAudioBuffer s) (inboundAggregationTimer s)
            (handledToolCallIds s) (handledToolCallOrder s)
            (pendingFunctionCalls s) (trace s).

Definition setStream (sid : option string) (a : string) (s : Session) : Session :=
  mkSession (ws s) sid a (ai s)
            (audioAggregationBuffer s) (audioAggregationTimer s)
            (inboundAudioBuffer s) (inboundAggregationTimer s)
            (handledToolCallIds s) (handledToolCallOrder s)
            (pendingFunctionCalls s) (trace s).

Definition setAi (v : AiLeg) (s : Session) : Session :=
  mkSession (ws s) (streamSid s) (agent s) v
            (audioAggregationBuffer s) (audioAggregationTimer s)
            (inboundAudioBuffer s) (inboundAggregationTimer s)
            (handledToolCallIds s) (handledToolCallOrder s)
            (pendingFunctionCalls s) (trace s).

Definition setAudio (buf : list string) (timer : bool) (s : Session) : Session :=
  mkSession (ws s) (streamSid s) (agent s) (ai s)
            buf timer
            (inboundAudioBuffer s) (inboundAggregationTimer s)
            (handledToolCallIds s) (handledToolCallOrder s)
            (pendingFunctionCalls s) (trace s).

Definition setInbound (buf : list string) (timer : bool) (s : Session) : Session :=
  mkSession (ws s) (streamSid s) (agent s) (ai s)
            (audioAggregationBuffer s) (audioAggregationTimer s)
            buf timer
            (handledToolCallIds s) (handledToolCallOrder s)
            (pendingFunctionCalls s) (trace s).

Definition setHandled (ids : gset string) (order : list string) (s : Session) : Session :=
  mkSession (ws s) (streamSid s) (agent s) (ai s)
            (audioAggregationBuffer s) (audioAggregationTimer s)
            (inboundAudioBuffer s) (inboundAggregationTimer s)
            ids order
            (pendingFunctionCalls s) (trace s).

Definition setPending (p : gmap string PendingCall) (s : Session) : Session :=
  mkSession (ws s) (streamSid s) (agent s) (ai s)
            (audioAggregationBuffer s) (audioAggregationTimer s)
            (inboundAudioBuffer s) (inboundAggregationTimer s)
            (handledToolCallIds s) (handledToolCallOrder s)
            p (trace s).

Definition emit (e : Effect) (s : Session) : Session :=
  mkSession (ws s) (streamSid s) (agent s) (ai s)
            (audioAggregationBuffer s) (audioAggregationTimer s)
            (inboundAudioBuffer s) (inboundAggregationTimer s)
            (handledToolCallIds s) (handledToolCallOrder s)
            (pendingFunctionCalls s) (trace s ++ [e]).

(** The closure right after ['connection']: [agent] is already read from
    the URL of the request. *)
Definition newSession (sock : TwilioSocket) (agentKey : string) : Session :=
  mkSession sock None agentKey (mkAiLeg None false false)
            [] false [] false ∅ [] ∅ [].

(** *** Sending *)

(** [sendToOpenAI(ev)]: written only while [openaiWs] refers to an open
    socket. *)
Definition sendToOpenAI (ev : OutEvent) (s : Session) : Session :=
  if openaiWs (ai s) && from_option isOpen false (aiSocket (ai s))
  then emit (OpenAISend ev) s
  else s.

(** [sendToTwilio(payload)], with the boolean it returns. *)
Definition sendToTwilio (payload : string) (s : Session) : Session * bool :=
  if isOpen (readyState (ws s)) && truthy (streamSid s) then
    if BACKPRESSURE_LIMIT <? bufferedAmount (ws s) then (s, false)
    else (emit (TwilioSend (orEmpty (streamSid s)) payload) s, true)
  else (s, false).

(** *** Outbound audio aggregation *)

(** [array.join('')]. *)
Definition join (chunks : list string) : string := String.concat EmptyString chunks.

(** [flushAudioAggregation()]. *)
Definition flushAudioAggregation (s : Session) : Session :=
  let s := setAudio (audioAggregationBuffer s) false s in
  match audioAggregationBuffer s with
  | [] => s
  | _ :: _ =>
      let combined := join (audioAggregationBuffer s) in
      (sendToTwilio combined (setAudio [] (audioAggregationTimer s) s)).1
  end.

(** [queueAudio(payload)]. *)
Definition queueAudio (payload : string) (s : Session) : Session :=
  if bool_decide (MAX_AUDIO_QUEUE_SIZE <= length (audioAggregationBuffer s))%nat
  then s
  else
    let s := setAudio (audioAggregationBuffer s ++ [payload])
                      (audioAggregationTimer s) s in
    if bool_decide (AUDIO_AGGREGATION_MAX_CHUNKS
                    <= length (audioAggregationBuffer s))%nat
    then flushAudioAggregation s
    else setAudio (audioAggregationBuffer s) true s.

(** *** Inbound audio aggregation *)

(** [flushInboundAudio()]. *)
Definition flushInboundAudio (s : Session) : Session :=
  let s := setInbound (inboundAudioBuffer s) false s in
  match inboundAudioBuffer s with
  | [] => s
  | _ :: _ =>
      let combined := join (inboundAudioBuffer s) in
      sendToOpenAI (input_audio_buffer_append combined)
                   (setInbound [] (inboundAggregationTimer s) s)
  end.

(** [queueInboundAudio(payload)]. *)
Definition queueInboundAudio (payload : string) (s : Session) : Session :=
  let s := setInbound (inboundAudioBuffer s ++ [payload])
                      (inboundAggregationTimer s) s in
  if bool_decide (10 <= length (inboundAudioBuffer s))%nat
  then flushInboundAudio s
  else setInbound (inboundAudioBuffer s) true s.

(** *** The speech-AI leg *)

(** [closeOpenAI()]: close the socket if there is one, forget it, flush the
    outbound audio and empty its buffer. *)
Definition closeOpenAI (s : Session) : Session :=
  let s :=
    if openaiWs (ai s)
    then emit OpenAIClose
           (setAi (mkAiLeg (closeSocket <$> aiSocket (ai s)) false
                           (openaiStarted (ai s))) s)
    else s in
  let s := flushAudioAggregation s in
  setAudio [] (audioAggregationTimer s) s.

(** [startOpenAI()]; [apiKey] is [process.env.OPENAI_API_KEY]. *)
Definition startOpenAI (apiKey : option string) (s : Session) : Session :=
  if openaiStarted (ai s) then s
  else
    let s := setAi (mkAiLeg (aiSocket (ai s)) (openaiWs (ai s)) true) s in
    if negb (truthy apiKey) then s
    else emit OpenAIConnect (setAi (mkAiLeg (Some CONNECTING) true true) s).

(** *** Tool calls: pending table and the bounded set of handled ids *)

(** The [while] loop of [addHandledToolCallId]: as long as the order list
    is at capacity, shift its oldest id out and delete it from the set. *)
Fixpoint evictOldest (order : list string) (ids : gset string)
    : list string * gset string :=
  match order with
  | [] => ([], ids)
  | oldest :: rest =>
      if bool_decide (MAX_HANDLED_TOOL_IDS <= length order)%nat
      then evictOldest rest (ids ∖ {[oldest]})
      else (order, ids)
  end.

(** [addHandledToolCallId(callId)], with the boolean it returns. *)
Definition addHandledToolCallId (callId : string) (s : Session) : Session * bool :=
  if bool_decide (callId ∈ handledToolCallIds s) then (s, false)
  else
    let '(order, ids) :=
      evictOldest (handledToolCallOrder s) (handledToolCallIds s) in
    (setHandled (ids ∪ {[callId]}) (order ++ [callId]) s, true).

(** The entry of the pending table for [cid], made if it is missing and the
    table has room; [None] is the early [return] of the handler when the
    table is full. *)
Definition ensurePending (cid : string) (s : Session) : option Session :=
  match pendingFunctionCalls s !! cid with
  | Some _ => Some s
  | None =>
      if bool_decide (MAX_PENDING_FUNCTION_CALLS <= size (pendingFunctionCalls s))%nat
      then None
      else Some (setPending (<[cid := mkPendingCall EmptyString EmptyString]> (pendingFunctionCalls s)) s)
  end.

(** An [item] of an output-item event.  A field that is missing is [None];
    an event without an item behaves as one whose item has another type. *)
Record Item := mkItem {
  item_type : string;
  item_call_id : option string;
  item_name : option string;
  item_arguments : option string
}.

Definition isFunctionCall (item : Item) : bool :=
  String.eqb (item_type item) "function_call".

(** The messages of the speech-AI leg the handler tells apart by [ev.type]. *)
Inductive AiEvent :=
| response_audio_delta (delta : option string)
| response_function_call_arguments_delta (call_id delta : option string)
| response_output_item_added (item : Item)
| response_output_item_done (item : Item)
| response_done (output : list Item)
| response_function_call_arguments_done (call_id name arguments : option string)
| other_event.

(** [maybeHandleToolCall] up to the call of [executeTool], which is made
    in the same synchronous run: [callId], [fnName] and [argsStr] are what
    the function has read from the event. *)
Definition maybeHandleToolCall (callId : option string) (fnName argsStr : string)
    (s : Session) : Session :=
  if negb (truthyStr fnName) || negb (truthy callId) then s
  else
    let s := setPending (delete (orEmpty callId) (pendingFunctionCalls s)) s in
    let '(s, fresh) := addHandledToolCallId (orEmpty callId) s in
    if fresh then emit (ExecuteTool (orEmpty callId) fnName argsStr) s
    else s.

(** The loop over [ev.response.output] of a [response.done] event. *)
Definition recordOutputItem (s : Session) (item : Item) : Session :=
  if isFunctionCall item && truthy (item_call_id item) then
    setPending (<[orEmpty (item_call_id item) :=
                   mkPendingCall (orEmpty (item_name item))
                                 (orEmpty (item_arguments item))]>
                  (pendingFunctionCalls s)) s
  else s.

(** [openaiWs.on('message', ...)] on a parsed event.  On an audio delta the
    handler also writes [gotFirstDelta] and [lastAudioDeltaAt], which
    nothing reads; they are left out. *)
Definition onOpenAIMessage (ev : AiEvent) (s : Session) : Session :=
  match ev with
  | response_audio_delta delta =>
      if truthy delta then queueAudio (orEmpty delta) s else s
  | response_function_call_arguments_delta cid delta =>
      if truthy cid then
        match ensurePending (orEmpty cid) s with
        | None => s
        | Some s =>
            setPending
              (alter (fun p => mkPendingCall (pendingName p)
                                 (pendingArguments p +:+ orEmpty delta))
                     (orEmpty cid) (pendingFunctionCalls s)) s
        end
      else s
  | response_output_item_added item =>
      if isFunctionCall item && truthy (item_call_id item) then
        match ensurePending (orEmpty (item_call_id item)) s with
        | None => s
        | Some s =>
            setPending
              (alter (fun p => mkPendingCall (orEmpty (item_name item))
                                 (pendingArguments p))
                     (orEmpty (item_call_id item)) (pendingFunctionCalls s)) s
        end
      else s
  | response_output_item_done item =>
      if isFunctionCall item then
        let s :=
          if truthy (item_call_id item) then
            setPending (<[orEmpty (item_call_id item) :=
                           mkPendingCall (orEmpty (item_name item))
                                         (orEmpty (item_arguments item))]>
                          (pendingFunctionCalls s)) s
          else s in
        maybeHandleToolCall (item_call_id item) (orEmpty (item_name item))
                            (orEmpty (item_arguments item)) s
      else s
  | response_done output => foldl recordOutputItem s output
  | response_function_call_arguments_done cid name arguments =>
      maybeHandleToolCall cid (orEmpty name) (orEmpty arguments) s
  | other_event => s
  end.

(** The tool invocations of a trace, oldest first. *)
Definition dispatched (t : list Effect) : list (string * string * string) :=
  omap (fun e => match e with
                 | ExecuteTool callId fnName argsStr => Some (callId, fnName, argsStr)
                 | _ => None
                 end) t.

(** The call ids of the tool invocations of a trace, oldest first. *)
Definition dispatchedIds (t : list Effect) : list string :=
  (fun d => d.1.1) <$> dispatched t.

(** A run of the message handler over a sequence of events. *)
Definition runAi (evs : list AiEvent) (s : Session) : Session :=
  foldl (fun s ev => onOpenAIMessage ev s) s evs.

(** *** The telephony leg *)

(** The configuration read from [process.env]. *)
Record Env := mkEnv {
  STREAM_SECRET : option string;
  OPENAI_API_KEY : option string
}.

(** The messages of the telephony leg the handler tells apart by
    [msg.event].  [start] carries [msg.start.streamSid] and the fields
    [agent] and [token] of the custom parameters. *)
Inductive TwilioMsg :=
| connected
| start (streamSid cp_agent cp_token : option string)
| media (payload : option string)
| stop
| other_msg.

(** [ws.close()] on the telephony socket. *)
Definition closeTwilio (s : Session) : Session :=
  emit TwilioClose
       (setWs (mkTwilioSocket (wsId (ws s)) (closeSocket (readyState (ws s)))
                              (bufferedAmount (ws s)) (ws_clientIp (ws s))) s).

Section TwilioLeg.

(** [s => s.toLowerCase().trim()], a built-in of the runtime. *)
Variable lowerTrim : string -> string.

(** [normalizeAgentKey(raw)]. *)
Definition normalizeAgentKey (raw : option string) : string :=
  let v := lowerTrim (orEmpty raw) in
  if String.eqb v "assistant" || String.eqb v "pa"
     || String.eqb v "personal_assistant" then "assistant"
  else if String.eqb v "outbound" || String.eqb v "sales" then "outbound"
  else "customer_service".

(** The branch of [ws.on('message', ...)] for a [start] message. *)
Definition onStart (env : Env) (now : Z)
    (sid cp_agent cp_token : option string)
    (gs : Global * Session) : Global * Session :=
  let '(g, s) := gs in
  let s := setStream sid (agent s) s in
  let ip := ws_clientIp (ws s) in
  let g := if truthyStr ip && truthy sid
           then trackConnectionAttempt now ip sid g else g in
  let s := if truthy cp_agent
           then setStream (streamSid s) (normalizeAgentKey cp_agent) s else s in
  if truthy (STREAM_SECRET env) && truthy cp_token
     && negb (String.eqb (orEmpty cp_token) (orEmpty (STREAM_SECRET env)))
  then
    let g := if truthyStr ip then trackRejection now ip g else g in
    (g, closeTwilio s)
  else (g, startOpenAI (OPENAI_API_KEY env) s).

(** [ws.on('message', ...)] on a parsed message. *)
Definition onTwilioMessage (env : Env) (now : Z) (msg : TwilioMsg)
    (gs : Global * Session) : Global * Session :=
  let '(g, s) := gs in
  let g := logMetrics now (countWsMessage g) in
  match msg with
  | connected => (g, s)
  | start sid cp_agent cp_token => onStart env now sid cp_agent cp_token (g, s)
  | media payload =>
      if truthy payload then (g, queueInboundAudio (orEmpty payload) s)
      else (g, s)
  | stop => (g, closeOpenAI (flushInboundAudio s))
  | other_msg => (g, s)
  end.

(** An upgrade request and, if the socket is handed to [handleUpgrade],
    the ['connection'] handler making the closure of the session: there
    is a session only for an accepted upgrade. *)
Definition connect (env : Env) (now : Z) (req : UpgradeRequest) (id : nat)
    (g : Global) : Global * option Session :=
  match onUpgrade (STREAM_SECRET env) now req id g with
  | (g, HandleUpgrade) =>
      (g, Some (newSession (mkTwilioSocket id OPEN 0 (clientIp req))
                           (normalizeAgentKey (agentParam req))))
  | (g, SocketDestroyed) => (g, None)
  end.

(** [ws.on('close', ...)]: the teardown of the session. *)
Definition onTwilioClose (gs : Global * Session) : Global * Session :=
  let '(g, s) := gs in
  let s := flushInboundAudio s in
  let s := closeOpenAI s in
  let s := setAudio (audioAggregationBuffer s) false s in
  let s := setInbound (inboundAudioBuffer s) false s in
  let g := if truthyStr (ws_clientIp (ws s))
           then untrackWsConnection (ws_clientIp (ws s)) (wsId (ws s)) g
           else g in
  let s := setAudio [] (audioAggregationTimer s) s in
  let s := setInbound [] (inboundAggregationTimer s) s in
  let s := setHandled ∅ [] s in
  let s := setPending ∅ s in
  (g, s).

(** [openaiWs.on('open', ...)]: the session configuration is sent; the
    greeting follows from a timer. *)
Definition onOpenAIOpen (s : Session) : Session :=
  sendToOpenAI (session_update (agent s)) s.

(** The timer set by the ['open'] handler, half a second later. *)
Definition onGreetingTimer (s : Session) : Session :=
  sendToOpenAI response_create (sendToOpenAI greeting_item s).

(** [openaiWs.on('close', ...)]: one line is logged, nothing else. *)
Definition onOpenAIClose (s : Session) : Session := s.

(** What can happen to a session: messages and closes of the two legs,
    the timers of the session, and changes of the sockets that the session
    only observes. *)
Inductive SessionEvent :=
| TwilioMessage (now : Z) (msg : TwilioMsg)
| TwilioClosed
| TwilioBuffered (amount : Z)
| AiOpened
| AiGreetingTimer
| AiMessage (ev : AiEvent)
| AiClosed
| AudioTimerFired
| InboundTimerFired.

(** The state of a socket changes, then its handler runs.  A timer runs
    its callback only while it is pending. *)
Definition step (env : Env) (e : SessionEvent)
    (gs : Global * Session) : Global * Session :=
  let '(g, s) := gs in
  match e with
  | TwilioMessage now msg => onTwilioMessage env now msg (g, s)
  | TwilioClosed =>
      onTwilioClose
        (g, setWs (mkTwilioSocket (wsId (ws s)) CLOSED (bufferedAmount (ws s))
                                  (ws_clientIp (ws s))) s)
  | TwilioBuffered amount =>
      (g, setWs (mkTwilioSocket (wsId (ws s)) (readyState (ws s)) amount
                                (ws_clientIp (ws s))) s)
  | AiOpened =>
      (g, onOpenAIOpen
            (setAi (mkAiLeg ((fun _ => OPEN) <$> aiSocket (ai s))
                            (openaiWs (ai s)) (openaiStarted (ai s))) s))
  | AiGreetingTimer => (g, onGreetingTimer s)
  | AiMessage ev => (g, onOpenAIMessage ev s)
  | AiClosed =>
      (g, onOpenAIClose
            (setAi (mkAiLeg ((fun _ => CLOSED) <$> aiSocket (ai s))
                            (openaiWs (ai s)) (openaiStarted (ai s))) s))
  | AudioTimerFired =>
      (g, if audioAggregationTimer s then flushAudioAggregation s else s)
  | InboundTimerFired =>
      (g, if inboundAggregationTimer s then flushInboundAudio s else s)
  end.

Definition run (env : Env) (es : list SessionEvent)
    (gs : Global * Session) : Global * Session :=
  foldl (fun gs e => step env e gs) gs es.

End TwilioLeg.

End Bridge.

(** ** ToolExecutor: [executeTool] and the boundary around it *)

Module Executor.
Import Bridge.

(** A JSON value.  A JavaScript value that may also be [undefined] is an
    [option JSON]; a property whose value is [undefined] is left out of
    the object, as [JSON.stringify] leaves it out. *)
#[local] Unset Elimination Schemes.

Inductive JSON :=
| JNull
| JBool (b : bool)
| JNum (q : Q)
| JStr (s : string)
| JArr (items : list JSON)
| JObj (fields : list (string * JSON)).

#[local] Set Elimination Schemes.

(** A thrown value: its [message] property, empty if it has none, and
    what [String(err)] gives. *)
Record JsError := mkJsError {
  message : string;
  rendered : string
}.

(** [new Error(msg)]. *)
Definition newError (msg : string) : JsError :=
  mkJsError msg (if truthyStr msg then "Error: " +:+ msg else "Error").

(** [String(err?.message || err)]. *)
Definition errorText (err : JsError) : string :=
  if truthyStr (message err) then message err else rendered err.

(** A computation that returns or throws. *)
Inductive Outcome (A : Type) :=
| Returns (value : A)
| Throws (err : JsError).

Arguments Returns {A} value.
Arguments Throws {A} err.

Definition bind {A B : Type} (m : Outcome A) (k : A -> Outcome B) : Outcome B :=
  match m with
  | Returns v => k v
  | Throws err => Throws err
  end.

(** [try { body } catch (err) { handler }]. *)
Definition tryCatch {A : Type} (body : Outcome A)
    (handler : JsError -> Outcome A) : Outcome A :=
  match body with
  | Returns v => Returns v
  | Throws err => handler err
  end.

#[export] Instance outcome_bind : MBind Outcome :=
  fun A B k m => bind m k.

(** Truthiness of a value. *)
Definition truthyV (v : option JSON) : bool :=
  match v with
  | None | Some JNull => false
  | Some (JBool b) => b
  | Some (JNum q) => negb (Qeq_bool q 0)
  | Some (JStr s) => truthyStr s
  | Some (JArr _) | Some (JObj _) => true
  end.

(** [a || b]. *)
Definition orV (a b : option JSON) : option JSON :=
  if truthyV a then a else b.

(** [a ?? b]. *)
Definition nullishV (a : option JSON) (b : JSON) : JSON :=
  match a with
  | None | Some JNull => b
  | Some v => v
  end.

Fixpoint lookupField (k : string) (fields : list (string * JSON)) : option JSON :=
  match fields with
  | [] => None
  | (k', v) :: rest => if String.eqb k k' then Some v else lookupField k rest
  end.

(** [v?.k] for a property name [k] of the tools' arguments and results:
    only objects have such a property. *)
Definition prop (k : string) (v : option JSON) : option JSON :=
  match v with
  | Some (JObj fields) => lookupField k fields
  | _ => None
  end.

(** An object literal: properties in order, the undefined ones left out. *)
Definition obj (fields : list (string * option JSON)) : JSON :=
  JObj (omap (fun kv => (fun v => (kv.1, v)) <$> kv.2) fields).

(** Assignment of a property: in place if the object has it, else at the
    end. *)
Fixpoint setField (k : string) (v : JSON) (fields : list (string * JSON))
    : list (string * JSON) :=
  match fields with
  | [] => [(k, v)]
  | (k', v') :: rest =>
      if String.eqb k k' then (k, v) :: rest else (k', v') :: setField k v rest
  end.

(** The own enumerable properties that [...v] copies. *)
Definition ownProps (v : JSON) : list (string * JSON) :=
  match v with
  | JObj fields => fields
  | JArr items => imap (fun i x => (pretty i, x)) items
  | JStr s =>
      imap (fun i c => (pretty i, JStr (String c EmptyString))) (String.list_ascii_of_string s)
  | _ => []
  end.

(** [{ action: a, ...toolArgs }]. *)
Definition withAction (a : string) (toolArgs : JSON) : JSON :=
  JObj (foldl (fun fields kv => setField kv.1 kv.2 fields)
              [("action", JStr a)] (ownProps toolArgs)).

(** [haystack.includes(needle)]. *)
Fixpoint includes (needle haystack : string) : bool :=
  String.prefix needle haystack
  || match haystack with
     | EmptyString => false
     | String _ rest => includes needle rest
     end.

(** [s.replace(/\\D/g, '')] as the source has it: the pattern of the
    regular-expression literal is a backslash followed by [D]. *)
Fixpoint stripBackslashD (s : string) : string :=
  match s with
  | EmptyString => EmptyString
  | String c rest =>
      match rest with
      | String d rest' =>
          if Ascii.eqb c "\"%char && Ascii.eqb d "D"%char
          then stripBackslashD rest'
          else String c (stripBackslashD rest)
      | EmptyString => String c EmptyString
      end
  end.

(** [s.slice(-1)]. *)
Fixpoint lastChar (s : string) : string :=
  match s with
  | EmptyString => EmptyString
  | String c EmptyString => String c EmptyString
  | String _ rest => lastChar rest
  end.

(** The session memory of the mock tools. *)
Record CallMemory := mkCallMemory {
  caller_name : JSON;
  project_type : JSON;
  preferred_time : JSON;
  notes : list string
}.

Definition newCallMemory : CallMemory := mkCallMemory JNull JNull JNull [].

Definition memoryJson (m : CallMemory) : JSON :=
  JObj [("caller_name", caller_name m); ("project_type", project_type m);
        ("preferred_time", preferred_time m); ("notes", JArr (JStr <$> notes m))].

(** The routes of the Next application [postJson] is called with. *)
Inductive Endpoint := GoogleCalendar | Gmail | ToolLog.

(** A double quote and a backquote, for the messages that hold one. *)
Definition dquote : string := String (Ascii.ascii_of_nat 34) EmptyString.
Definition bquote : string := String (Ascii.ascii_of_nat 96) EmptyString.

(** The names [executeTool] knows, in the order it tests them. *)
Definition knownTools : list string :=
  ["detect_intent"; "update_call_memory"; "lookup_customer";
   "request_callback"; "escalate_to_human"; "send_followup_sms";
   "calendar_find_slots"; "calendar_check_time"; "calendar_check_time_nl";
   "calendar_create_event"; "calendar_update_event";
   "email_search"; "email_get"; "email_get_latest"; "email_draft_create";
   "email_send_draft"; "email_send"].

(** [parseWeekdayIndex(text)] once [text] is in lower case: the first key
    of the table, in the order of the object literal, that occurs in the
    text. *)
Definition weekdayKeys : list (string * Z) :=
  [("sun", 0); ("sunday", 0); ("mon", 1); ("monday", 1); ("tue", 2);
   ("tues", 2); ("tuesday", 2); ("wed", 3); ("wednesday", 3); ("thu", 4);
   ("thur", 4); ("thurs", 4); ("thursday", 4); ("fri", 5); ("friday", 5);
   ("sat", 6); ("saturday", 6)]%Z.

Fixpoint firstKeyIn (keys : list (string * Z)) (t : string) : option Z :=
  match keys with
  | [] => None
  | (k, i) :: rest => if includes k t then Some i else firstKeyIn rest t
  end.

Section Tools.

(** The collaborators behind [postJson] (the local routes for the
    calendar, the mail and the tool log), and the clock. *)
Variable postJson : Endpoint -> JSON -> Outcome JSON.
Variable dateNow : Z.

(** Built-ins of the runtime: [String(v)] (which throws a [TypeError] on
    an object whose [toString] and [valueOf] give no primitive, as
    [{"toString": 1}] parsed from JSON), [s.toLowerCase()], [Number(v)]
    and [Date.parse(v)] ([None] when the number is not finite),
    [new Date(ms).toISOString()] (which throws on an invalid date), the
    decimal form of an integer, and [JSON.parse] and [JSON.stringify]. *)
Variable toStr : JSON -> Outcome string.
Variable toLowerCase : string -> string.
Variable toNumber : option JSON -> option Q.
Variable dateParse : option JSON -> option Q.
Variable toISOString : Q -> Outcome string.
Variable numToString : Z -> string.
Variable JSON_parse : string -> option JSON.
Variable JSON_stringify : JSON -> string.

(** Helpers of [server.cjs] that are regular expressions and [Intl]
    arithmetic all through: [inferTimeZone], [parseTimeOfDay],
    [normalizeEmailAddress], and the computation of the start of the
    next such weekday and time in a zone (which throws on a zone [Intl]
    does not know). *)
Variable inferTimeZone : option JSON -> string -> string.
Variable parseTimeOfDay : string -> option (Z * Z).
Variable normalizeEmailAddress : option JSON -> string.
Variable zonedStartIso : Z -> Z * Z -> string -> Outcome string.

(** [String(v || '')]. *)
Definition stringOr (v : option JSON) : Outcome string :=
  match v with
  | Some x => if truthyV v then toStr x else Returns EmptyString
  | None => Returns EmptyString
  end.

Definition parseWeekdayIndex (text : string) : option Z :=
  firstKeyIn weekdayKeys (toLowerCase text).

(** The tool [detect_intent]. *)
Definition detectIntent (toolArgs : JSON) : Outcome JSON :=
  utterance ← stringOr (prop "utterance" (Some toolArgs));
  let text := toLowerCase utterance in
  let '(intent, confidence) :=
    if includes "book" text || includes "schedule" text || includes "call" text
    then ("booking_request", 9 # 10)
    else if includes "issue" text || includes "problem" text
            || includes "bug" text || includes "error" text
    then ("support_question", 9 # 10)
    else if String.prefix "what " text || String.prefix "how " text
            || includes "explain" text || includes "information" text
    then ("general_info", 8 # 10)
    else ("other", 6 # 10) in
  let time_reference :=
    if includes "tomorrow" text then Some "tomorrow"
    else if includes "today" text then Some "today"
    else if includes "next week" text then Some "next_week"
    else None in
  Returns
    (obj [("intent", Some (JStr intent));
          ("confidence", Some (JNum confidence));
          ("entities",
           (fun t => JObj [("time_reference", JStr t)]) <$> time_reference)]).

(** The result of [update_call_memory]: the memory is part of it. *)
Definition memoryReport (mem : CallMemory) : JSON :=
  obj [("success", Some (JBool true)); ("memory", Some (memoryJson mem))].

(** The tool [update_call_memory]: the memory of the call is updated in
    place, field by field.  [String(toolArgs.note)] comes last: if it
    throws, the three fields are already assigned and no note is pushed. *)
Definition updateCallMemory (toolArgs : JSON) (mem : CallMemory)
    : CallMemory * Outcome JSON :=
  let args := Some toolArgs in
  let mem :=
    mkCallMemory
      (default (caller_name mem) (prop "caller_name" args))
      (default (project_type mem) (prop "project_type" args))
      (default (preferred_time mem) (prop "preferred_time" args))
      (notes mem) in
  if truthyV (prop "note" args) then
    match stringOr (prop "note" args) with
    | Returns note =>
        let mem :=
          mkCallMemory (caller_name mem) (project_type mem)
                       (preferred_time mem) (notes mem ++ [note]) in
        (mem, Returns (memoryReport mem))
    | Throws err => (mem, Throws err)
    end
  else (mem, Returns (memoryReport mem)).

(** The tool [lookup_customer]. *)
Definition lookupCustomer (toolArgs : JSON) : Outcome JSON :=
  let phone := prop "phone_number" (Some toolArgs) in
  let email := prop "email" (Some toolArgs) in
  mockExists ←
    (if truthyV phone || truthyV email then
       byPhone ←
         (if truthyV phone then
            digits ← stringOr phone;
            Returns (String.eqb (lastChar (stripBackslashD digits)) "2")
          else Returns false);
       if byPhone : bool then Returns true
       else if truthyV email then
         address ← stringOr email;
         Returns (includes "vip" (toLowerCase address))
       else Returns false
     else Returns false);
  Returns
    (if mockExists : bool then
       obj [("exists", Some (JBool true));
            ("customer_id", Some (JStr "CUST-EXAMPLE-001"));
            ("name", Some (JStr "Alex Example"));
            ("last_project",
             Some (JStr "AI voice agent for property lead qualification"));
            ("is_vip", Some (JBool true))]
     else obj [("exists", Some (JBool false))]).

(** [throw new Error(`Invalid datetime: ${startIso}`)]. *)
Definition invalidDatetime (startIso : option JSON) : Outcome JSON :=
  text ← match startIso with
         | Some v => toStr v
         | None => Returns "undefined"
         end;
  Throws (newError ("Invalid datetime: " +:+ text)).

(** The tool [calendar_check_time]. *)
Definition calendarCheckTime (toolArgs : JSON) : Outcome JSON :=
  let startIso := prop "start" (Some toolArgs) in
  let tz := prop "timezone" (Some toolArgs) in
  match dateParse startIso with
  | None => invalidDatetime startIso
  | Some startMs =>
      match toNumber (prop "duration_minutes" (Some toolArgs)) with
      | None => Throws (newError "duration_minutes must be > 0")
      | Some duration =>
          if Qle_bool duration 0
          then Throws (newError "duration_minutes must be > 0")
          else
            let endMs := (startMs + duration * 60000)%Q in
            window_start ← toISOString startMs;
            window_end ← toISOString endMs;
            slots ← postJson GoogleCalendar
                      (obj [("action", Some (JStr "find_slots"));
                            ("window_start", Some (JStr window_start));
                            ("window_end", Some (JStr window_end));
                            ("timezone", tz);
                            ("duration_minutes", Some (JNum duration));
                            ("max_results", Some (JNum 3))]);
            let available :=
              match prop "slots" (Some slots) with
              | Some (JArr items) =>
                  existsb (fun slot =>
                             match prop "start" (Some slot) with
                             | Some (JStr t) => String.eqb t window_start
                             | _ => false
                             end) items
              | _ => false
              end in
            Returns
              (obj [("requested",
                     Some (obj [("start", Some (JStr window_start));
                                ("end", Some (JStr window_end));
                                ("timezone", tz);
                                ("duration_minutes", Some (JNum duration))]));
                    ("available", Some (JBool available));
                    ("alternatives",
                     orV (prop "slots" (Some slots)) (Some (JArr [])))])
      end
  end.

Definition couldNotParseWhen : JsError :=
  newError ("Could not parse " +:+ bquote +:+ "when" +:+ bquote
            +:+ ". Please include weekday + time like " +:+ dquote
            +:+ "Friday 4pm" +:+ dquote +:+ ".").

(** The tool [calendar_check_time_nl], which ends in the tool
    [calendar_check_time]. *)
Definition calendarCheckTimeNl (toolArgs : JSON) : Outcome JSON :=
  let args := Some toolArgs in
  when ← stringOr (orV (orV (prop "when" args) (prop "time" args))
                       (prop "datetime" args));
  let tz := inferTimeZone (prop "timezone" args) when in
  let duration :=
    match toNumber (orV (orV (prop "duration_minutes" args) (prop "duration" args))
                        (Some (JNum 30))) with
    | Some d => if Qle_bool d 0 then 30%Q else d
    | None => 30%Q
    end in
  match parseWeekdayIndex when, parseTimeOfDay when with
  | Some weekdayIdx, Some tod =>
      startIso ← zonedStartIso weekdayIdx tod tz;
      calendarCheckTime
        (obj [("start", Some (JStr startIso));
              ("timezone", Some (JStr tz));
              ("duration_minutes", Some (JNum duration))])
  | _, _ => Throws couldNotParseWhen
  end.

Definition invalidEmail : JsError :=
  newError "Invalid email address. Please provide something like name@example.com".

(** The recipient the mail tools take from any of four properties. *)
Definition rawRecipient (toolArgs : JSON) : option JSON :=
  let args := Some toolArgs in
  orV (orV (orV (prop "to" args) (prop "recipient" args)) (prop "email" args))
      (prop "address" args).

Definition draftBody (normalizedTo : string) (toolArgs : JSON) : JSON :=
  let args := Some toolArgs in
  obj [("action", Some (JStr "draft_create"));
       ("to", Some (JStr normalizedTo));
       ("subject", prop "subject" args);
       ("body_text", prop "body_text" args);
       ("thread_id", prop "thread_id" args)].

(** The tool [email_get_latest]. *)
Definition emailGetLatest (toolArgs : JSON) : Outcome JSON :=
  let format := nullishV (prop "format" (Some toolArgs)) (JStr "metadata") in
  search ← postJson Gmail
             (obj [("action", Some (JStr "search"));
                   ("q", Some (JStr "newer_than:30d"));
                   ("max_results", Some (JNum 5))]);
  let messageId :=
    match prop "messages" (Some search) with
    | Some (JArr (first :: _)) => prop "id" (Some first)
    | _ => None
    end in
  if truthyV messageId then
    postJson Gmail
      (obj [("action", Some (JStr "get")); ("message_id", messageId);
            ("format", Some format)])
  else Throws (newError "No recent emails found (search returned empty).").

(** The tool [email_send]: a draft is made, then sent. *)
Definition emailSend (toolArgs : JSON) : Outcome JSON :=
  let normalizedTo := normalizeEmailAddress (rawRecipient toolArgs) in
  if truthyStr normalizedTo then
    draft ← postJson Gmail (draftBody normalizedTo toolArgs);
    let draftId :=
      orV (prop "id" (prop "draft" (Some draft))) (prop "id" (Some draft)) in
    if truthyV draftId then
      sent ← postJson Gmail
               (obj [("action", Some (JStr "send_draft")); ("draft_id", draftId)]);
      Returns (obj [("success", Some (JBool true));
                    ("message_id", prop "id" (Some sent));
                    ("to", Some (JStr normalizedTo));
                    ("subject", prop "subject" (Some toolArgs))])
    else Throws (newError "Failed to create draft")
  else Throws invalidEmail.

(** [executeTool(name, toolArgs)], with the memory of the call threaded
    through. *)
Definition executeTool (name : string) (toolArgs : JSON) (mem : CallMemory)
    : CallMemory * Outcome JSON :=
  let args := Some toolArgs in
  if String.eqb name "detect_intent" then (mem, detectIntent toolArgs)
  else if String.eqb name "update_call_memory" then updateCallMemory toolArgs mem
  else if String.eqb name "lookup_customer" then (mem, lookupCustomer toolArgs)
  else if String.eqb name "request_callback" then
    (mem, Returns
            (obj [("success", Some (JBool true));
                  ("ticket_id", Some (JStr ("CBK-" +:+ numToString dateNow)));
                  ("normalized_urgency",
                   orV (prop "urgency" args) (Some (JStr "normal")))]))
  else if String.eqb name "escalate_to_human" then
    (mem, Returns
            (obj [("success", Some (JBool true));
                  ("routed_to", Some (JStr "human_operator"));
                  ("reason", prop "reason" args)]))
  else if String.eqb name "send_followup_sms" then
    (mem, Returns (obj [("success", Some (JBool true));
                        ("provider", Some (JStr "mock"))]))
  else if String.eqb name "calendar_find_slots" then
    (mem, postJson GoogleCalendar (withAction "find_slots" toolArgs))
  else if String.eqb name "calendar_check_time" then
    (mem, calendarCheckTime toolArgs)
  else if String.eqb name "calendar_check_time_nl" then
    (mem, calendarCheckTimeNl toolArgs)
  else if String.eqb name "calendar_create_event" then
    (mem, postJson GoogleCalendar (withAction "create_event" toolArgs))
  else if String.eqb name "calendar_update_event" then
    (mem, postJson GoogleCalendar (withAction "update_event" toolArgs))
  else if String.eqb name "email_search" then
    (mem, postJson Gmail
            (obj [("action", Some (JStr "search")); ("q", prop "q" args);
                  ("max_results", prop "max_results" args)]))
  else if String.eqb name "email_get" then
    let messageId := orV (prop "message_id" args) (prop "id" args) in
    if truthyV messageId then
      (mem, postJson Gmail
              (obj [("action", Some (JStr "get")); ("message_id", messageId);
                    ("format",
                     Some (nullishV (prop "format" args) (JStr "metadata")))]))
    else (mem, Throws (newError "message_id (or id) is required"))
  else if String.eqb name "email_get_latest" then (mem, emailGetLatest toolArgs)
  else if String.eqb name "email_draft_create" then
    let normalizedTo := normalizeEmailAddress (rawRecipient toolArgs) in
    if truthyStr normalizedTo
    then (mem, postJson Gmail (draftBody normalizedTo toolArgs))
    else (mem, Throws invalidEmail)
  else if String.eqb name "email_send_draft" then
    (mem, postJson Gmail
            (obj [("action", Some (JStr "send_draft"));
                  ("draft_id", prop "draft_id" args)]))
  else if String.eqb name "email_send" then (mem, emailSend toolArgs)
  else (mem, Throws (newError ("Unknown tool: " +:+ name))).

(** [logTool(payload)]: a failure of the log route is swallowed. *)
Definition logTool (payload : JSON) : Outcome unit :=
  tryCatch (_ ← postJson ToolLog payload; Returns tt) (fun _ => Returns tt).

(** The record [logTool] is given: the outcome goes under [result] or
    under [error]. *)
Definition logRecord (sessionId agentName toolName : string) (args : JSON)
    (key : string) (value : JSON) : JSON :=
  obj [("sessionId", Some (JStr sessionId)); ("agentName", Some (JStr agentName));
       ("toolName", Some (JStr toolName)); ("args", Some args);
       (key, Some value)].

(** [safeJsonParse(argsStr || '{}')] and the fall-back on the empty
    object. *)
Definition parseArgs (argsStr : string) : JSON :=
  default (JObj []) (JSON_parse (if truthyStr argsStr then argsStr else "{}")).

(** The result of a tool call: what [executeTool] returned, or
    [{ error }] from the [catch] block. *)
Definition toolResult (sessionId agentName fnName : string) (args : JSON)
    (attempt : Outcome JSON) : Outcome JSON :=
  tryCatch
    (result ← attempt;
     _ ← logTool (logRecord sessionId agentName fnName args "result" result);
     Returns result)
    (fun err =>
       let error := errorText err in
       _ ← logTool (logRecord sessionId agentName fnName args "error" (JStr error));
       Returns (JObj [("error", JStr error)])).

(** The rest of [maybeHandleToolCall], from the parsing of the arguments
    on: the tool runs, its result or its error is logged, and the output
    item is sent to the speech-AI leg.  The value is [Throws] if anything
    escapes the function. *)
Definition completeToolCall (callId fnName argsStr : string)
    (mem : CallMemory) (s : Session) : CallMemory * Outcome Session :=
  let args := parseArgs argsStr in
  let sessionId :=
    if truthy (streamSid s) then orEmpty (streamSid s) else "unknown-stream" in
  let '(mem, attempt) := executeTool fnName args mem in
  (mem,
   result ← toolResult sessionId (agent s) fnName args attempt;
   Returns (sendToOpenAI (function_call_output callId (JSON_stringify result)) s)).

End Tools.

End Executor.

(** ** Vocabulary of the properties

    What the theorems below say of the handlers: views and invariants of
    a session, the order of the closes of the two legs, and the concrete
    deployments, sessions and runs the statements are tried on. *)

Module AdmissionSpec.
Import Admission Bridge.

Definition streamPath : string := "/twilio/stream".

Definition env0 : Env := mkEnv (Some "s3cret") (Some "sk-test").

Definition caller : string := "198.51.100.4".

Definition upgradeWith (tok : option string) : UpgradeRequest :=
  mkUpgradeRequest streamPath tok (Some "assistant") caller.

(** A call is accepted and starts stream [MZ1] at instant 1000, then hangs
    up; one second later the same address connects again and starts the
    same stream. *)
Definition startMZ1 (now : Z) : SessionEvent :=
  TwilioMessage now (start (Some "MZ1") None (Some "s3cret")).

Definition afterFirstCall : Global :=
  match connect (fun v => v) env0 1000 (upgradeWith (Some "s3cret")) 1 emptyGlobal with
  | (g, Some s) => (run (fun v => v) env0 [startMZ1 1000; TwilioClosed] (g, s)).1
  | (g, None) => g
  end.

Definition secondCall : Global * option Session :=
  match connect (fun v => v) env0 2000 (upgradeWith (Some "s3cret")) 2 afterFirstCall with
  | (g, Some s) =>
      let '(g, s) := step (fun v => v) env0 (startMZ1 2000) (g, s) in (g, Some s)
  | (g, None) => (g, None)
  end.

Section StartMessage.

Variable lowerTrim : string -> string.

(** The session once the start handler has recorded the stream and the
    agent of the message. *)
Definition started (sid cp_agent : option string) (s : Session) : Session :=
  let s := setStream sid (agent s) s in
  if truthy cp_agent
  then setStream (streamSid s) (normalizeAgentKey lowerTrim cp_agent) s
  else s.

End StartMessage.

End AdmissionSpec.

Module ToolCallSpec.
Import Bridge.

(** What the deduplication of tool calls depends on: the set of handled
    ids, their order, and the trace. *)
Definition toolView (s : Session) : gset string * list string * list Effect :=
  (handledToolCallIds s, handledToolCallOrder s, trace s).

Definition deltaEvents (cid : option string) (deltas : list (option string))
    : list AiEvent :=
  response_function_call_arguments_delta cid <$> deltas.

(** The two forms of the authoritative event for a call: an
    [output_item.done] whose item is a function call, or a
    [function_call_arguments.done]. *)
Inductive AuthoritativeForm := OutputItemDone | ArgumentsDone.

Definition authoritative (form : AuthoritativeForm)
    (cid name arguments : option string) : AiEvent :=
  match form with
  | OutputItemDone =>
      response_output_item_done (mkItem "function_call" cid name arguments)
  | ArgumentsDone => response_function_call_arguments_done cid name arguments
  end.

(** The order list holds the ids of the last [MAX_HANDLED_TOOL_IDS]
    dispatches, oldest first, and the set holds the same ids. *)
Definition handledInv (s : Session) : Prop :=
  handledToolCallIds s = list_to_set (handledToolCallOrder s)
  /\ NoDup (handledToolCallOrder s)
  /\ handledToolCallOrder s
     = drop (length (dispatchedIds (trace s)) - MAX_HANDLED_TOOL_IDS)
            (dispatchedIds (trace s)).

(** Two dispatches of one call id are more than [MAX_HANDLED_TOOL_IDS]
    positions apart in the log of dispatches. *)
Definition farApart (log : list string) : Prop :=
  forall (i j : nat) (c : string),
    (i < j)%nat -> log !! i = Some c -> log !! j = Some c ->
    (i + MAX_HANDLED_TOOL_IDS < j)%nat.

(** The invariant of a session: the handled ids are the last dispatched
    ones, and the log of dispatches repeats no id within the bound. *)
Definition dedupInv (s : Session) : Prop :=
  handledInv s /\ farApart (dispatchedIds (trace s)).

(** A double quote, and the argument payload [{"phone_number":555}]. *)
Definition dq : string := String (Ascii.ascii_of_nat 34) EmptyString.

Definition phonePayload : string :=
  "{" +:+ dq +:+ "phone_number" +:+ dq +:+ ":555}".

Definition sock0 : TwilioSocket := mkTwilioSocket 1 OPEN 0 "203.0.113.9".

Definition callIdOf (n : nat) : string := "call_" +:+ pretty n.

Definition doneEvent (n : nat) : AiEvent :=
  authoritative OutputItemDone (Some (callIdOf n)) (Some "lookup_customer")
                (Some "{}").

(** 101 calls with different ids, then the authoritative event of the
    first call once more. *)
Definition floodThenRepeat : list AiEvent :=
  doneEvent <$> (seq 0 101 ++ [0%nat]).

(** The claim as it is stated: no call id is dispatched twice. *)
Definition dispatchedAtMostOnce (evs : list AiEvent) : Prop :=
  NoDup (dispatchedIds (trace (runAi evs (newSession sock0 "customer_service")))).

End ToolCallSpec.

Module AudioSpec.
Import Admission Bridge.

Definition liveSocket (amount : Z) : TwilioSocket :=
  mkTwilioSocket 1 OPEN amount "198.51.100.4".

(** A session with three frames buffered behind a congested socket. *)
Definition congestedSession : Session :=
  setAudio ["fw=="; "fw=="; "fw=="] true
           (setStream (Some "MZ1") "assistant"
                      (newSession (liveSocket 70000) "assistant")).

End AudioSpec.

Module TeardownSpec.
Import Admission Bridge.

(** Nothing of the session is left: both sockets are closed, both timers
    are cancelled, and the buffers, the pending table and the handled set
    are empty. *)
Definition tornDown (s : Session) : Prop :=
  readyState (ws s) = CLOSED
  /\ openaiWs (ai s) = false
  /\ (aiSocket (ai s) = None \/ aiSocket (ai s) = Some CLOSED)
  /\ audioAggregationBuffer s = []
  /\ audioAggregationTimer s = false
  /\ inboundAudioBuffer s = []
  /\ inboundAggregationTimer s = false
  /\ handledToolCallIds s = ∅
  /\ handledToolCallOrder s = []
  /\ pendingFunctionCalls s = ∅.

(** How often the session has called [close()] on the speech-AI socket. *)
Fixpoint aiCloseCalls (t : list Effect) : nat :=
  match t with
  | [] => 0
  | OpenAIClose :: rest => S (aiCloseCalls rest)
  | _ :: rest => aiCloseCalls rest
  end.

(** The part of a session the teardown has to clear. *)
Definition quiet (s : Session) : Prop :=
  openaiWs (ai s) = false
  /\ audioAggregationBuffer s = []
  /\ audioAggregationTimer s = false
  /\ inboundAudioBuffer s = []
  /\ inboundAggregationTimer s = false
  /\ handledToolCallIds s = ∅
  /\ handledToolCallOrder s = []
  /\ pendingFunctionCalls s = ∅.

(** The socket of a leg is seen closed. *)
Definition telephonyClosed (s : Session) : Session :=
  setWs (mkTwilioSocket (wsId (ws s)) CLOSED (bufferedAmount (ws s))
                        (ws_clientIp (ws s))) s.

Definition speechClosed (s : Session) : Session :=
  setAi (mkAiLeg ((fun _ => CLOSED) <$> aiSocket (ai s))
                 (openaiWs (ai s)) (openaiStarted (ai s))) s.

Section EitherOrder.

Variable lowerTrim : string -> string.
Variable env : Env.

(** The telephony leg closes, then the speech-AI leg. *)
Definition telephonyFirst (gs : Global * Session) : Global * Session :=
  run lowerTrim env [TwilioClosed; AiClosed] gs.

(** The speech-AI leg closes, then the telephony leg. *)
Definition speechFirst (gs : Global * Session) : Global * Session :=
  run lowerTrim env [AiClosed; TwilioClosed] gs.

End EitherOrder.

End TeardownSpec.

Module ExecutorSpec.
Import Bridge Executor.

Section Boundary.

Variable postJson : Endpoint -> JSON -> Outcome JSON.
Variable dateNow : Z.
Variable toStr : JSON -> Outcome string.
Variable toLowerCase : string -> string.
Variable toNumber : option JSON -> option Q.
Variable dateParse : option JSON -> option Q.
Variable toISOString : Q -> Outcome string.
Variable numToString : Z -> string.
Variable JSON_parse : string -> option JSON.
Variable inferTimeZone : option JSON -> string -> string.
Variable parseTimeOfDay : string -> option (Z * Z).
Variable normalizeEmailAddress : option JSON -> string.
Variable zonedStartIso : Z -> Z * Z -> string -> Outcome string.

(** The tool as the session runs it. *)
Definition attemptOf (fnName argsStr : string) (mem : CallMemory) : Outcome JSON :=
  (executeTool postJson dateNow toStr toLowerCase toNumber dateParse
               toISOString numToString inferTimeZone parseTimeOfDay
               normalizeEmailAddress zonedStartIso
               fnName (parseArgs JSON_parse argsStr) mem).2.

(** What the catch block makes of an attempt. *)
Definition settled (attempt : Outcome JSON) : JSON :=
  match attempt with
  | Returns value => value
  | Throws err => JObj [("error", JStr (errorText err))]
  end.

End Boundary.

Definition noRoute (e : Endpoint) (body : JSON) : Outcome JSON :=
  Throws (newError "HTTP 503").

End ExecutorSpec.

(** ** Housekeeping of the process-wide tables *)

Module Housekeeping.
Import RateGate Admission.

(** The rate-limit part of the sweep that [setInterval] runs every five
    minutes: an entry whose window began more than two windows ago is
    deleted. *)
Definition sweepRateLimits (now : Z) (store : gmap string RateEntry)
    : gmap string RateEntry :=
  filter (fun kv => ~ (RATE_LIMIT_WINDOW_MS * 2 < now - windowStart kv.2)) store.

(** The cooldown part of the same sweep: a timestamp older than twice its
    interval is deleted from its table. *)
Definition sweepCooldowns (now : Z) (g : Global) : Global :=
  mkGlobal (wsConnectionsByIp g)
           (filter (fun kv => ~ (RECONNECT_COOLDOWN_MS * 2 < now - kv.2))
                   (reconnectCooldowns g))
           (filter (fun kv => ~ (WS_REJECTED_COOLDOWN_MS * 2 < now - kv.2))
                   (ipRejectionCooldowns g))
           (metricsRequestCount g) (metricsWsMessageCount g)
           (metricsWsRejections g) (metricsLastReset g).

(** Admission checks of several addresses, in the order they arrive: each
    request is an address and the instant of its check. *)
Fixpoint runRequests (reqs : list (string * Z))
    (store : gmap string RateEntry)
    : gmap string RateEntry * list (string * RateResult) :=
  match reqs with
  | [] => (store, [])
  | (ip, now) :: rest =>
      let '(store1, r) := checkRateLimit now ip store in
      let '(store2, rs) := runRequests rest store1 in
      (store2, (ip, r) :: rs)
  end.

(** The instants at which one address asked, and the answers it got. *)
Definition timesOf (ip : string) (reqs : list (string * Z)) : list Z :=
  omap (fun req => if String.eqb req.1 ip then Some req.2 else None) reqs.

Definition verdictsOf (ip : string) (answers : list (string * RateResult))
    : list RateResult :=
  omap (fun a => if String.eqb a.1 ip then Some a.2 else None) answers.

(** What [checkRateLimit] makes of the entry of the address: the entry it
    stores and the answer it gives. *)
Definition rateStep (now : Z) (entry : option RateEntry) : RateEntry * RateResult :=
  let entry := default (mkRateEntry 0 now false) entry in
  let entry :=
    if RATE_LIMIT_WINDOW_MS <? now - windowStart entry
    then mkRateEntry 0 now false
    else entry in
  if blocked entry then (entry, Rejected circuit_breaker)
  else if RATE_LIMIT_CIRCUIT_BREAKER <? count entry + 1 then
    (mkRateEntry (count entry + 1) (windowStart entry) true,
     Rejected circuit_breaker)
  else if RATE_LIMIT_MAX_REQUESTS <? count entry + 1 then
    (mkRateEntry (count entry + 1) (windowStart entry) false, Rejected rate_limit)
  else (mkRateEntry (count entry + 1) (windowStart entry) false, Allowed).

End Housekeeping.

(** ** Runs of the upgrade handler *)

Module AdmissionRuns.
Import Admission Bridge Housekeeping AdmissionSpec.

(** One upgrade attempt of an address on the stream path: the instant,
    the token of the URL, and the identity its socket would get. *)
Record Attempt := mkAttempt {
  at_now : Z;
  at_token : option string;
  at_id : nat
}.

(** Successive upgrade attempts of one address. *)
Fixpoint runAttempts (expected : option string) (ip : string)
    (attempts : list Attempt) (g : Global) : Global * list UpgradeOutcome :=
  match attempts with
  | [] => (g, [])
  | a :: rest =>
      let '(g1, outcome) :=
        onUpgrade expected (at_now a)
                  (mkUpgradeRequest streamPath (at_token a) None ip) (at_id a) g in
      let '(g2, outcomes) := runAttempts expected ip rest g1 in
      (g2, outcome :: outcomes)
  end.

(** Each attempt comes less than the rejection cooldown after the one
    before it, the first one after [prev]. *)
Fixpoint paced (prev : Z) (attempts : list Attempt) : Prop :=
  match attempts with
  | [] => True
  | a :: rest =>
      at_now a <> 0
      /\ at_now a - prev < WS_REJECTED_COOLDOWN_MS
      /\ paced (at_now a) rest
  end.

(** What changes the table of connections: an upgrade request, and the
    close of an accepted socket, whose handler takes the socket off the
    table if the address stored on it is not empty. *)
Inductive TableOp :=
| OpUpgrade (now : Z) (req : UpgradeRequest) (id : nat)
| OpClose (ip : string) (id : nat).

Definition applyOp (expected : option string) (g : Global) (op : TableOp) : Global :=
  match op with
  | OpUpgrade now req id => (onUpgrade expected now req id g).1
  | OpClose ip id => if truthyStr ip then untrackWsConnection ip id g else g
  end.

(** No address has an empty set of sockets, and none has more than
    [WS_MAX_CONNECTIONS_PER_IP]. *)
Definition capped (g : Global) : Prop :=
  forall (ip : string) (connections : gset nat),
    wsConnectionsByIp g !! ip = Some connections ->
    (1 <= size connections <= RateGate.WS_MAX_CONNECTIONS_PER_IP)%nat.

End AdmissionRuns.

(** ** The listener of ['upgrade'] with all its ways out *)

Module UpgradeListener.
Import Admission.

(** How the listener leaves the raw socket: [new URL(...)] threw before
    anything was done to it; it was destroyed; it was handed to
    [wss.handleUpgrade], whose handshake failed, so that the callback
    never ran; or the callback ran, registered the new WebSocket and
    emitted ['connection']. *)
Inductive ListenerOutcome :=
| ListenerThrew
| RawSocketDestroyed
| HandshakeFailed
| Connected.

(** [server.on('upgrade', ...)] on the request as it arrives: [parsed] is
    what [new URL(req.url || '/', ...)] and [getClientIp(req)] give, [None]
    when the constructor throws; [handshake] says whether
    [wss.handleUpgrade] completes the handshake and calls back; [ws] is
    the identity the new WebSocket gets. *)
Definition upgradeListener (expected : option string) (now : Z)
    (parsed : option UpgradeRequest) (handshake : bool) (ws : nat)
    (g : Global) : Global * ListenerOutcome :=
  match parsed with
  | None => (g, ListenerThrew)
  | Some req =>
      let handleUpgrade :=
        if handshake then (trackWsConnection (clientIp req) ws g, Connected)
        else (g, HandshakeFailed) in
      if negb (String.eqb (pathname req) "/twilio/stream")
      then (g, RawSocketDestroyed)
      else
        match checkReconnectCooldown now (clientIp req) None g with
        | CooldownRejected _ _ =>
            (trackRejection now (clientIp req) g, RawSocketDestroyed)
        | CooldownAllowed =>
            if negb (canOpenWsConnection (clientIp req) g) then
              (trackRejection now (clientIp req) g, RawSocketDestroyed)
            else if truthy expected then
              if negb (truthy (token req)) then
                (trackRejection now (clientIp req) g, RawSocketDestroyed)
              else if negb (String.eqb (orEmpty (token req)) (orEmpty expected))
              then (trackRejection now (clientIp req) g, RawSocketDestroyed)
              else handleUpgrade
            else handleUpgrade
        end
  end.

(** The outcome of the listener as the handler of a parsed request with
    a handshake that completes names it. *)
Definition outcomeOf (o : UpgradeOutcome) : ListenerOutcome :=
  match o with
  | SocketDestroyed => RawSocketDestroyed
  | HandleUpgrade => Connected
  end.

End UpgradeListener.

(** ** Views of a session and of its trace *)

Module SessionViews.
Import Admission Bridge.

(** Both aggregators are below their flush count, and each has its timer
    pending exactly when it holds audio. *)
Definition tidy (s : Session) : Prop :=
  (length (audioAggregationBuffer s) < AUDIO_AGGREGATION_MAX_CHUNKS)%nat
  /\ (length (inboundAudioBuffer s) < 10)%nat
  /\ (audioAggregationTimer s = true <-> audioAggregationBuffer s <> [])
  /\ (inboundAggregationTimer s = true <-> inboundAudioBuffer s <> []).

(** The audio written to the speech-AI leg, in the order it was written. *)
Fixpoint appendedAudio (t : list Effect) : string :=
  match t with
  | [] => EmptyString
  | OpenAISend (input_audio_buffer_append audio) :: rest =>
      audio +:+ appendedAudio rest
  | _ :: rest => appendedAudio rest
  end.

(** The audio written to the telephony leg, in the order it was written. *)
Fixpoint relayedAudio (t : list Effect) : string :=
  match t with
  | [] => EmptyString
  | TwilioSend _ payload :: rest => payload +:+ relayedAudio rest
  | _ :: rest => relayedAudio rest
  end.

(** The media messages written to the telephony leg. *)
Definition twilioSends (t : list Effect) : list (string * string) :=
  omap (fun e => match e with
                 | TwilioSend sid payload => Some (sid, payload)
                 | _ => None
                 end) t.

(** The messages written to the speech-AI leg. *)
Definition aiSends (t : list Effect) : list OutEvent :=
  omap (fun e => match e with
                 | OpenAISend ev => Some ev
                 | _ => None
                 end) t.

(** How often the session has opened a socket to the speech-AI provider. *)
Fixpoint aiConnects (t : list Effect) : nat :=
  match t with
  | [] => 0
  | OpenAIConnect :: rest => S (aiConnects rest)
  | _ :: rest => aiConnects rest
  end.

(** Events of the inbound direction: a media message of the telephony
    leg, or the inbound timer. *)
Definition isInbound (e : SessionEvent) : Prop :=
  match e with
  | TwilioMessage _ (media _) | InboundTimerFired => True
  | _ => False
  end.

(** The audio the telephony leg has offered in a run of events. *)
Fixpoint offeredInbound (es : list SessionEvent) : string :=
  match es with
  | [] => EmptyString
  | TwilioMessage _ (media payload) :: rest =>
      orEmpty payload +:+ offeredInbound rest
  | _ :: rest => offeredInbound rest
  end.

(** Events of the outbound direction while the telephony socket keeps
    up: an audio delta of the speech-AI leg, the outbound timer, or a
    change of what waits in the socket that stays within the limit. *)
Definition isOutbound (e : SessionEvent) : Prop :=
  match e with
  | AiMessage (response_audio_delta _) | AudioTimerFired => True
  | TwilioBuffered amount => amount <= BACKPRESSURE_LIMIT
  | _ => False
  end.

(** The audio the speech-AI leg has offered in a run of events. *)
Fixpoint offeredOutbound (es : list SessionEvent) : string :=
  match es with
  | [] => EmptyString
  | AiMessage (response_audio_delta delta) :: rest =>
      orEmpty delta +:+ offeredOutbound rest
  | _ :: rest => offeredOutbound rest
  end.

(** What has reached the speech-AI leg or waits in the inbound
    aggregator, and the same for the telephony leg. *)
Definition inboundAudio (s : Session) : string :=
  appendedAudio (trace s) +:+ join (inboundAudioBuffer s).

Definition outboundAudio (s : Session) : string :=
  relayedAudio (trace s) +:+ join (audioAggregationBuffer s).

(** The fields of a session a tool-call event never touches. *)
Definition audioView (s : Session)
    : TwilioSocket * AiLeg * option string
      * (list string * bool) * (list string * bool) :=
  (ws s, ai s, streamSid s,
   (audioAggregationBuffer s, audioAggregationTimer s),
   (inboundAudioBuffer s, inboundAggregationTimer s)).

(** [s'] comes after [s] in the life of a session: the trace has only
    grown; a telephony socket that is not open has not become open and
    nothing was sent on it; a speech-AI leg that was started stays
    started and is not connected a second time; a leg that was started
    and dropped stays dropped and nothing was sent on it. *)
Definition follows (s s' : Session) : Prop :=
  exists added,
    trace s' = trace s ++ added
    /\ (isOpen (readyState (ws s)) = false ->
        isOpen (readyState (ws s')) = false /\ twilioSends added = [])
    /\ (openaiStarted (ai s) = true ->
        openaiStarted (ai s') = true /\ aiConnects added = 0%nat)
    /\ (aiConnects added <= 1)%nat
    /\ (aiConnects added = 1%nat -> openaiStarted (ai s') = true)
    /\ (openaiStarted (ai s) = true /\ openaiWs (ai s) = false ->
        openaiWs (ai s') = false /\ aiSends added = []).

(** A session in the middle of a call: the stream has started and the
    speech-AI leg is open. *)
Definition inCall : Session :=
  mkSession (mkTwilioSocket 1 OPEN 0 "198.51.100.4") (Some "MZ1") "assistant"
            (mkAiLeg (Some OPEN) true true)
            [] false [] false ∅ [] ∅ [].

End SessionViews.

(** ** Views of the pending table of tool calls *)

Module PendingViews.
Import Bridge.

(** An item of [response.done] that the loop records: a function call
    with a call id. *)
Definition recorded (item : Item) : bool :=
  isFunctionCall item && truthy (item_call_id item).

Definition callIds (output : list Item) : list string :=
  (fun item => orEmpty (item_call_id item)) <$> output.

(** The entry of a call id, or the empty entry the handlers start from. *)
Definition entryOf (cid : string) (s : Session) : PendingCall :=
  default (mkPendingCall EmptyString EmptyString) (pendingFunctionCalls s !! cid).

End PendingViews.

(** ** Views of the tools *)

Module ExecutorViews.
Import Executor.

(** The tools that are answered by the process itself. *)
Definition mockTools : list string :=
  ["detect_intent"; "update_call_memory"; "lookup_customer";
   "request_callback"; "escalate_to_human"; "send_followup_sms"].

(** The mock tools that convert none of their arguments to a string. *)
Definition plainMockTools : list string :=
  ["request_callback"; "escalate_to_human"; "send_followup_sms"].

(** The value a list of properties gives a name when later properties
    win over earlier ones. *)
Definition lastField (k : string) (fields : list (string * JSON)) : option JSON :=
  lookupField k (reverse fields).

Section Runs.

Variable postJson : Endpoint -> JSON -> Outcome JSON.
Variable dateNow : Z.
Variable toStr : JSON -> Outcome string.
Variable toLowerCase : string -> string.
Variable toNumber : option JSON -> option Q.
Variable dateParse : option JSON -> option Q.
Variable toISOString : Q -> Outcome string.
Variable numToString : Z -> string.
Variable inferTimeZone : option JSON -> string -> string.
Variable parseTimeOfDay : string -> option (Z * Z).
Variable normalizeEmailAddress : option JSON -> string.
Variable zonedStartIso : Z -> Z * Z -> string -> Outcome string.

(** The memory of a call after a sequence of tool calls, each given by
    its name and its arguments. *)
Definition runTools (calls : list (string * JSON)) (mem : CallMemory) : CallMemory :=
  foldl (fun mem call =>
           (executeTool postJson dateNow toStr toLowerCase toNumber dateParse
                        toISOString numToString inferTimeZone parseTimeOfDay
                        normalizeEmailAddress zonedStartIso call.1 call.2 mem).1)
        mem calls.

(** The note a tool call leaves in the memory, if it leaves one: the
    text of a truthy [note] of an [update_call_memory] call, unless
    [String(note)] throws. *)
Definition noteOf (call : string * JSON) : option string :=
  if String.eqb call.1 "update_call_memory"
     && truthyV (prop "note" (Some call.2))
  then
    match stringOr toStr (prop "note" (Some call.2)) with
    | Returns note => Some note
    | Throws _ => None
    end
  else None.

(** The result of [email_send] once the draft is made. *)
Definition sendReport (normalizedTo : string) (toolArgs sent : JSON) : JSON :=
  obj [("success", Some (JBool true));
       ("message_id", prop "id" (Some sent));
       ("to", Some (JStr normalizedTo));
       ("subject", prop "subject" (Some toolArgs))].

End Runs.

End ExecutorViews.

(** ** The HTTP side of the server *)

Module Http.
Import RateGate Admission Bridge.

(** A double quote and a line feed, for the text of the TwiML. *)
Definition quote : string := String (Ascii.ascii_of_nat 34) EmptyString.
Definition newline : string := String (Ascii.ascii_of_nat 10) EmptyString.

(** [s.replace(/&/g, '&amp;')]. *)
Fixpoint escapeAmp (s : string) : string :=
  match s with
  | EmptyString => EmptyString
  | String c rest =>
      if Ascii.eqb c "&"%char then "&amp;" +:+ escapeAmp rest
      else String c (escapeAmp rest)
  end.

(** [s.replace(/\/+$/g, '')]: the slashes at the end are taken off. *)
Fixpoint stripTrailingSlashes (s : string) : string :=
  match s with
  | EmptyString => EmptyString
  | String c rest =>
      let rest := stripTrailingSlashes rest in
      if Ascii.eqb c "/"%char && negb (truthyStr rest) then EmptyString
      else String c rest
  end.

(** [s.replace(/^from/, to)]. *)
Definition replacePrefix (from to s : string) : string :=
  if String.prefix from s
  then to +:+ String.substring (String.length from)
                               (String.length s - String.length from) s
  else s.

(** One [<Parameter>] line of the TwiML. *)
Definition parameterLine (kv : string * string) : string :=
  "      <Parameter name=" +:+ quote +:+ kv.1 +:+ quote
  +:+ " value=" +:+ quote +:+ escapeAmp kv.2 +:+ quote +:+ " />".

(** [generateTwiml(streamUrl, params)]; [params] are the entries of the
    object in their order. *)
Definition generateTwiml (streamUrl : string) (params : list (string * string))
    : string :=
  "<?xml version=" +:+ quote +:+ "1.0" +:+ quote
  +:+ " encoding=" +:+ quote +:+ "UTF-8" +:+ quote +:+ "?>" +:+ newline
  +:+ "<Response>" +:+ newline
  +:+ "  <Connect>" +:+ newline
  +:+ "    <Stream url=" +:+ quote +:+ escapeAmp streamUrl +:+ quote +:+ ">"
  +:+ newline
  +:+ String.concat newline (parameterLine <$> params) +:+ newline
  +:+ "    </Stream>" +:+ newline
  +:+ "  </Connect>" +:+ newline
  +:+ "</Response>".

(** The two spoken errors of a deployment without public URL or secret. *)
Definition voiceConfigError : string :=
  "<?xml version=" +:+ quote +:+ "1.0" +:+ quote
  +:+ " encoding=" +:+ quote +:+ "UTF-8" +:+ quote
  +:+ "?><Response><Say>Server configuration error. Please try again later.</Say></Response>".

Definition outboundConfigError : string :=
  "<?xml version=" +:+ quote +:+ "1.0" +:+ quote
  +:+ " encoding=" +:+ quote +:+ "UTF-8" +:+ quote
  +:+ "?><Response><Say>Server configuration error.</Say></Response>".

(** What the handler reads of a request: the method, [req.url], the path
    and the [agent] parameter of [new URL(req.url || '/', ...)] ([None]
    for the path when the constructor throws), and [getClientIp(req)]. *)
Record Request := mkRequest {
  method : string;
  url : option string;
  parsedPath : option string;
  agentQuery : option string;
  address : string
}.

(** What the handler answers. *)
Inductive Response :=
| Twiml (body : string)
| TooManyRequests (reason : Reason)
| Page (body : string)
| InternalServerError.

(** The handler answers, or it throws before it has answered. *)
Inductive Handled :=
| Responded (r : Response)
| Unanswered.

Definition isVoiceWebhook (req : Request) : bool :=
  String.eqb (method req) "POST"
  && match url req with
     | Some u => String.eqb u "/twilio/voice"
     | None => false
     end.

Definition isOutboundWebhook (req : Request) : bool :=
  (String.eqb (method req) "GET" || String.eqb (method req) "POST")
  && match url req with
     | Some u => String.prefix "/twilio/outbound" u
     | None => false
     end.

(** [metricsRequestCount++]. *)
Definition countRequest (g : Global) : Global :=
  mkGlobal (wsConnectionsByIp g) (reconnectCooldowns g)
           (ipRejectionCooldowns g)
           (metricsRequestCount g + 1) (metricsWsMessageCount g)
           (metricsWsRejections g) (metricsLastReset g).

Section Handler.

(** [encodeURIComponent] and [s => s.toLowerCase().trim()], built-ins of
    the runtime, and the request handler of the Next application, which
    answers with a page or throws. *)
Variable encodeURIComponent : string -> string.
Variable lowerTrim : string -> string.
Variable handle : Request -> option string.

(** [process.env.PUBLIC_URL] and [process.env.STREAM_SECRET]. *)
Variable PUBLIC_URL : option string.
Variable STREAM_SECRET : option string.

Definition baseWs (publicUrl : string) : string :=
  replacePrefix "https:" "wss:" (replacePrefix "http:" "ws:" publicUrl).

(** The listener of [http.createServer], on the process-wide state and
    the store of the rate limiter. *)
Definition onRequest (now : Z) (req : Request)
    (st : Global * gmap string RateEntry)
    : Global * gmap string RateEntry * Handled :=
  let '(g, store) := st in
  let publicUrl := stripTrailingSlashes (orEmpty PUBLIC_URL) in
  let streamSecret := orEmpty STREAM_SECRET in
  if isVoiceWebhook req then
    if negb (truthyStr publicUrl) || negb (truthyStr streamSecret)
    then (g, store, Responded (Twiml voiceConfigError))
    else
      let streamUrl :=
        baseWs publicUrl +:+ "/twilio/stream?agent=assistant&token="
        +:+ encodeURIComponent streamSecret in
      (g, store,
       Responded (Twiml (generateTwiml streamUrl
                           [("agent", "assistant"); ("token", streamSecret)])))
  else if isOutboundWebhook req then
    if negb (truthyStr publicUrl) || negb (truthyStr streamSecret)
    then (g, store, Responded (Twiml outboundConfigError))
    else
      match parsedPath req with
      | None => (g, store, Unanswered)
      | Some _ =>
          let agent :=
            normalizeAgentKey lowerTrim
              (if truthy (agentQuery req) then agentQuery req
               else Some "outbound") in
          let streamUrl :=
            baseWs publicUrl +:+ "/twilio/stream?agent=" +:+ agent
            +:+ "&token=" +:+ encodeURIComponent streamSecret in
          (g, store,
           Responded (Twiml (generateTwiml streamUrl
                               [("agent", agent); ("token", streamSecret)])))
      end
  else
    let g := logMetrics now (countRequest g) in
    match parsedPath req with
    | None => (g, store, Responded InternalServerError)
    | Some pathname =>
        let served :=
          match handle req with
          | Some body => Responded (Page body)
          | None => Responded InternalServerError
          end in
        if negb (String.eqb pathname "/api/health") then
          match checkRateLimit now (address req) store with
          | (store, Rejected reason) =>
              (g, store, Responded (TooManyRequests reason))
          | (store, Allowed) => (g, store, served)
          end
        else (g, store, served)
    end.

(** The requests that reach the rate limiter. *)
Definition limited (req : Request) : bool :=
  negb (isVoiceWebhook req) && negb (isOutboundWebhook req)
  && match parsedPath req with
     | Some pathname => negb (String.eqb pathname "/api/health")
     | None => false
     end.

(** The state after a sequence of requests, each with its instant. *)
Definition serve (reqs : list (Z * Request))
    (st : Global * gmap string RateEntry) : Global * gmap string RateEntry :=
  foldl (fun st r => (onRequest r.1 r.2 st).1) st reqs.

End Handler.

(** The store after the rate limiter has seen the given requests. *)
Definition limiterOn (reqs : list (Z * Request))
    (store : gmap string RateEntry) : gmap string RateEntry :=
  foldl (fun store r => (checkRateLimit r.1 (address r.2) store).1) store reqs.

(** Every ampersand of a text begins [&amp;]. *)
Fixpoint ampersandsEscaped (s : string) : bool :=
  match s with
  | EmptyString => true
  | String c rest =>
      (negb (Ascii.eqb c "&"%char) || String.prefix "amp;" rest)
      && ampersandsEscaped rest
  end.

(** [&amp;] read back as an ampersand: after an ampersand that begins
    [&amp;], the four characters that follow are skipped. *)
Fixpoint unescapeSkipping (skip : nat) (s : string) : string :=
  match s with
  | EmptyString => EmptyString
  | String c rest =>
      match skip with
      | S k => unescapeSkipping k rest
      | O =>
          String c
            (unescapeSkipping
               (if Ascii.eqb c "&"%char && String.prefix "amp;" rest
                then 4%nat else 0%nat)
               rest)
      end
  end.

Definition unescapeAmp (s : string) : string := unescapeSkipping 0 s.

End Http.
(** ** Theorems: RateGate *)

Module RateGateFacts.
Import RateGate.

Lemma checkRateLimit_opens now ip store :
  windowClosed now ip store ->
  checkRateLimit now ip store = (<[ip := entryAfter 1 now]> store, Allowed).
Proof.
  unfold windowClosed, checkRateLimit. intros Hc.
  destruct (store !! ip) as [e|]; cbn.
  - assert (Hlt : (RATE_LIMIT_WINDOW_MS <? now - windowStart e) = true)
      by (apply Z.ltb_lt; exact Hc).
    rewrite Hlt. reflexivity.
  - replace (now - now) with 0 by lia. reflexivity.
Qed.

Lemma checkRateLimit_in_window now ip store k w :
  store !! ip = Some (entryAfter k w) ->
  0 <= k ->
  now - w <= RATE_LIMIT_WINDOW_MS ->
  checkRateLimit now ip store
  = (<[ip := entryAfter (k + 1) w]> store, verdict (k + 1)).
Proof.
  intros Hl Hk Hw. unfold checkRateLimit. rewrite Hl.
  unfold entryAfter in *. cbn [windowStart].
  assert (Hfresh : (RATE_LIMIT_WINDOW_MS <? now - w) = false)
    by (apply Z.ltb_ge; exact Hw).
  rewrite Hfresh. cbn [blocked count windowStart].
  unfold verdict, RATE_LIMIT_CIRCUIT_BREAKER, RATE_LIMIT_MAX_REQUESTS in *.
  destruct (120 <? k) eqn:E1.
  - apply Z.ltb_lt in E1.
    assert (E2 : (120 <? k + 1) = true) by (apply Z.ltb_lt; lia).
    rewrite E2.
    replace (Z.min k (120 + 1)) with 121 by lia.
    replace (Z.min (k + 1) (120 + 1)) with 121 by lia.
    reflexivity.
  - apply Z.ltb_ge in E1.
    replace (Z.min k (120 + 1)) with k by lia.
    replace (Z.min (k + 1) (120 + 1)) with (k + 1) by lia.
    destruct (120 <? k + 1) eqn:E2; [reflexivity|].
    destruct (60 <? k + 1); reflexivity.
Qed.

Lemma runChecks_in_window ip w (times : list Z) :
  forall store k,
    store !! ip = Some (entryAfter k w) ->
    0 <= k ->
    Forall (fun now => now - w <= RATE_LIMIT_WINDOW_MS) times ->
    exists store',
      runChecks ip times store = (store', verdicts k (length times))
      /\ store' !! ip = Some (entryAfter (k + Z.of_nat (length times)) w).
Proof.
  induction times as [|now rest IH]; intros store k Hl Hk Hall.
  - exists store. cbn. split; [reflexivity|]. rewrite Z.add_0_r. exact Hl.
  - inversion Hall as [|? ? Hnow Hrest]; subst.
    cbn [runChecks length verdicts].
    rewrite (checkRateLimit_in_window now ip store k w Hl Hk Hnow).
    destruct (IH (<[ip := entryAfter (k + 1) w]> store) (k + 1)) as (store' & Hrun & Hl').
    + apply lookup_insert_eq.
    + lia.
    + exact Hrest.
    + exists store'. rewrite Hrun. split; [reflexivity|].
      rewrite Hl'. f_equal. f_equal. lia.
Qed.

Lemma runChecks_app ip (t1 t2 : list Z) store :
  runChecks ip (t1 ++ t2) store
  = let '(s1, r1) := runChecks ip t1 store in
    let '(s2, r2) := runChecks ip t2 s1 in
    (s2, r1 ++ r2).
Proof.
  revert store. induction t1 as [|now rest IH]; intros store; cbn.
  - destruct (runChecks ip t2 store). reflexivity.
  - destruct (checkRateLimit now ip store) as [s r].
    rewrite IH. destruct (runChecks ip rest s) as [s1 r1].
    destruct (runChecks ip t2 s1) as [s2 r2]. reflexivity.
Qed.

(** C5. Starting with no running window for the address, 130 admission
    checks whose instants all lie within 60 s of the first one are answered:
    attempts 1-60 allowed, 61-120 rejected with [rate_limit], 121-130
    rejected with [circuit_breaker]; a 131st check made more than 60 s after
    the first one reopens the window and is allowed. *)
Theorem C5_rate_limit_scenario ip store (t1 : Z) (later : list Z) (t131 : Z) :
  windowClosed t1 ip store ->
  length later = 129%nat ->
  Forall (fun now => now - t1 <= RATE_LIMIT_WINDOW_MS) later ->
  RATE_LIMIT_WINDOW_MS < t131 - t1 ->
  (runChecks ip (t1 :: later ++ [t131]) store).2
  = replicate 60 Allowed
    ++ replicate 60 (Rejected rate_limit)
    ++ replicate 10 (Rejected circuit_breaker)
    ++ [Allowed].
Proof.
  intros Hclosed Hlen Hall Hafter.
  cbn [runChecks]. rewrite (checkRateLimit_opens _ _ _ Hclosed).
  rewrite runChecks_app.
  destruct (runChecks_in_window ip t1 later (<[ip := entryAfter 1 t1]> store) 1)
    as (s1 & Hrun & Hl1); [apply lookup_insert_eq | lia | exact Hall |].
  rewrite Hrun, Hlen. cbn [runChecks].
  rewrite checkRateLimit_opens.
  - reflexivity.
  - unfold windowClosed. rewrite Hl1. cbn. exact Hafter.
Qed.

Lemma C5_rate_limit_scenario_witness :
  (runChecks "10.0.0.7" (1000 :: replicate 129 2000 ++ [61001]) ∅).2
  = replicate 60 Allowed
    ++ replicate 60 (Rejected rate_limit)
    ++ replicate 10 (Rejected circuit_breaker)
    ++ [Allowed].
Proof.
  apply (C5_rate_limit_scenario "10.0.0.7" ∅ 1000 (replicate 129 2000) 61001).
  - exact I.
  - reflexivity.
  - apply Forall_replicate. vm_compute. discriminate.
  - reflexivity.
Defined.

End RateGateFacts.


(** The session fields below are read through their setters all the time. *)
Ltac session_simpl :=
  cbn [Bridge.ws Bridge.streamSid Bridge.agent Bridge.ai
       Bridge.audioAggregationBuffer Bridge.audioAggregationTimer
       Bridge.inboundAudioBuffer Bridge.inboundAggregationTimer
       Bridge.handledToolCallIds Bridge.handledToolCallOrder
       Bridge.pendingFunctionCalls Bridge.trace
       Bridge.setWs Bridge.setStream Bridge.setAi Bridge.setAudio
       Bridge.setInbound Bridge.setHandled Bridge.setPending Bridge.emit
       fst snd] in *.

(** ** Theorems: admission of stream connections *)

Module AdmissionFacts.
Import Admission Bridge AdmissionSpec.

(** Enter the handler of an upgrade on the stream path. *)
Ltac on_stream_path Hpath :=
  unfold onUpgrade; rewrite Hpath; unfold streamPath;
  rewrite String.eqb_refl; cbn [negb].

Lemma trackRejection_cooldown now ip g :
  ipRejectionCooldowns (trackRejection now ip g) !! ip = Some now.
Proof. cbn. apply lookup_insert_eq. Qed.

(** A stream upgrade that ends with the socket destroyed has stamped the
    address in [ipRejectionCooldowns] and registered no connection. *)
Lemma onUpgrade_destroyed expected now req id g :
  pathname req = streamPath ->
  (onUpgrade expected now req id g).2 = SocketDestroyed ->
  (onUpgrade expected now req id g).1 = trackRejection now (clientIp req) g.
Proof.
  intros Hpath. on_stream_path Hpath.
  destruct (checkReconnectCooldown now (clientIp req) None g); [|done].
  destruct (canOpenWsConnection (clientIp req) g); cbn [negb]; [|done].
  destruct (truthy expected); [|discriminate].
  destruct (truthy (token req)); cbn [negb]; [|done].
  destruct (String.eqb _ _); cbn [negb]; [discriminate|done].
Qed.

(** The address-level check of the upgrade handler: a timestamp of the
    address younger than 30 s rejects. *)
Lemma checkReconnectCooldown_ip now ip sid g (t : Z) :
  ipRejectionCooldowns g !! ip = Some t ->
  t <> 0 ->
  now - t < WS_REJECTED_COOLDOWN_MS ->
  checkReconnectCooldown now ip sid g
  = CooldownRejected ip_rejection_cooldown (WS_REJECTED_COOLDOWN_MS - (now - t)).
Proof.
  intros Hl Ht Hnow. unfold checkReconnectCooldown. rewrite Hl.
  cbn [truthyNum default from_option]. unfold id.
  assert (Hz : (t =? 0) = false) by (apply Z.eqb_neq; exact Ht).
  assert (Hlt : (now - t <? WS_REJECTED_COOLDOWN_MS) = true)
    by (apply Z.ltb_lt; exact Hnow).
  rewrite Hz, Hlt. reflexivity.
Qed.

(** During the 30 s after a rejection every upgrade of the address is
    refused before the token is looked at, and the rejection is stamped
    anew. *)
Lemma onUpgrade_during_ip_cooldown expected now req id g (t : Z) :
  pathname req = streamPath ->
  ipRejectionCooldowns g !! clientIp req = Some t ->
  t <> 0 ->
  now - t < WS_REJECTED_COOLDOWN_MS ->
  onUpgrade expected now req id g
  = (trackRejection now (clientIp req) g, SocketDestroyed).
Proof.
  intros Hpath Hl Ht Hnow. on_stream_path Hpath.
  rewrite (checkReconnectCooldown_ip now (clientIp req) None g t Hl Ht Hnow).
  reflexivity.
Qed.

(** The per-stream timestamps are never read by the upgrade handler. *)
Lemma onUpgrade_ignores_stream_cooldowns expected now req id g
    (cooldowns : gmap string Z) :
  (onUpgrade expected now req id
     (mkGlobal (wsConnectionsByIp g) cooldowns (ipRejectionCooldowns g)
               (metricsRequestCount g) (metricsWsMessageCount g)
               (metricsWsRejections g) (metricsLastReset g))).2
  = (onUpgrade expected now req id g).2.
Proof.
  unfold onUpgrade. destruct (negb (String.eqb (pathname req) "/twilio/stream")); [done|].
  unfold checkReconnectCooldown, canOpenWsConnection.
  cbn [ipRejectionCooldowns wsConnectionsByIp truthy orEmpty truthyStr].
  destruct (truthyNum _ && _); [done|].
  destruct (negb _); [done|].
  destruct (truthy expected); [|done].
  destruct (negb (truthy (token req))); [done|].
  destruct (negb (String.eqb _ _)); done.
Qed.

(** C3. With a stream secret configured, an upgrade on the stream path
    whose [token] parameter is missing or is not the secret ends with the
    raw socket destroyed: [handleUpgrade] is not called, no connection is
    registered and no session comes to exist, so nothing is relayed.  With
    no secret configured the token plays no part: every candidate token
    gets the same answer, and that answer is the acceptance of the upgrade
    as soon as the address is neither cooling down nor at its connection
    limit. *)
Theorem C3_upgrade_token_gate (lowerTrim : string -> string)
    (env : Env) (now : Z) (req : UpgradeRequest) (id : nat) (g : Global) :
  pathname req = streamPath ->
  (truthy (STREAM_SECRET env) = true ->
   truthy (token req) = false \/ orEmpty (token req) <> orEmpty (STREAM_SECRET env) ->
   (onUpgrade (STREAM_SECRET env) now req id g).2 = SocketDestroyed
   /\ wsConnectionsByIp (onUpgrade (STREAM_SECRET env) now req id g).1
      = wsConnectionsByIp g
   /\ (connect lowerTrim env now req id g).2 = None)
  /\ (truthy (STREAM_SECRET env) = false ->
      (forall candidate : option string,
          (onUpgrade (STREAM_SECRET env) now
                     (mkUpgradeRequest (pathname req) candidate (agentParam req)
                                       (clientIp req)) id g).2
          = (onUpgrade (STREAM_SECRET env) now req id g).2)
      /\ (checkReconnectCooldown now (clientIp req) None g = CooldownAllowed ->
          canOpenWsConnection (clientIp req) g = true ->
          (onUpgrade (STREAM_SECRET env) now req id g).2 = HandleUpgrade
          /\ is_Some (connect lowerTrim env now req id g).2)).
Proof.
  intros Hpath. split.
  - intros Hsecret Hbad.
    assert (Hd : (onUpgrade (STREAM_SECRET env) now req id g).2 = SocketDestroyed).
    { on_stream_path Hpath.
      destruct (checkReconnectCooldown now (clientIp req) None g); [|done].
      destruct (canOpenWsConnection (clientIp req) g); cbn [negb]; [|done].
      rewrite Hsecret.
      destruct (truthy (token req)) eqn:Htok; cbn [negb]; [|done].
      destruct Hbad as [Hmiss|Hne]; [discriminate|].
      destruct (String.eqb _ _) eqn:Heq; cbn [negb]; [|done].
      apply String.eqb_eq in Heq. contradiction. }
    split; [exact Hd|]. split.
    + rewrite (onUpgrade_destroyed _ _ _ _ _ Hpath Hd). reflexivity.
    + unfold connect. destruct (onUpgrade _ _ _ _ _) as [g' []]; [done|discriminate].
  - intros Hopen. split.
    { intros candidate. unfold onUpgrade.
      cbn [pathname token clientIp agentParam]. rewrite Hopen.
      destruct (negb (String.eqb (pathname req) "/twilio/stream")); [done|].
      destruct (checkReconnectCooldown now (clientIp req) None g); [|done].
      destruct (negb (canOpenWsConnection (clientIp req) g)); done. }
    intros Hcool Hroom.
    assert (Hu : (onUpgrade (STREAM_SECRET env) now req id g).2 = HandleUpgrade).
    { on_stream_path Hpath.
      rewrite Hcool, Hroom, Hopen. reflexivity. }
    split; [exact Hu|].
    unfold connect. destruct (onUpgrade _ _ _ _ _) as [g' []]; [discriminate|].
    cbn. eauto.
Qed.

(** *** A concrete deployment *)

Lemma C3_upgrade_token_gate_witness :
  (onUpgrade (Some "s3cret") 1000 (upgradeWith (Some "guess")) 1 emptyGlobal).2
  = SocketDestroyed.
Proof.
  refine (proj1 (proj1 (C3_upgrade_token_gate (fun v => v) env0 1000
                          (upgradeWith (Some "guess")) 1 emptyGlobal _) _ _)).
  - reflexivity.
  - reflexivity.
  - right. discriminate.
Defined.

(** C4, the per-stream part, evaluated.  After the first call the table
    [reconnectCooldowns] holds the attempt of stream [MZ1] at instant 1000,
    and [checkReconnectCooldown] asked about that stream one second later
    answers [stream_cooldown] with 59 s to wait.  The upgrade handler asks
    it about no stream, the start handler does not ask at all: the second
    connection is accepted, its start of the same stream opens the
    speech-AI leg, nothing is closed and no rejection is counted. *)
Theorem C4_stream_cooldown_recorded_but_not_enforced :
  reconnectCooldowns afterFirstCall !! streamKey caller "MZ1" = Some 1000
  /\ checkReconnectCooldown 2000 caller (Some "MZ1") afterFirstCall
     = CooldownRejected stream_cooldown 59000
  /\ exists s : Session,
       secondCall.2 = Some s
       /\ streamSid s = Some "MZ1"
       /\ readyState (ws s) = OPEN
       /\ trace s = [OpenAIConnect]
       /\ metricsWsRejections secondCall.1 = 0.
Proof.
  split; [vm_compute; reflexivity|]. split; [vm_compute; reflexivity|].
  eexists. split; [vm_compute; reflexivity|]. cbn. done.
Qed.

(** *** The second validation point: the start message *)

Section StartMessage.

Variable lowerTrim : string -> string.

Lemma startOpenAI_trace apiKey s :
  trace (startOpenAI apiKey s) = trace s
  \/ trace (startOpenAI apiKey s) = trace s ++ [OpenAIConnect].
Proof.
  unfold startOpenAI. destruct (openaiStarted (ai s)); [by left|].
  destruct (negb (truthy apiKey)); [by left | by right].
Qed.

Lemma startOpenAI_no_close apiKey s (t : list Effect) :
  trace s = t -> trace (startOpenAI apiKey s) <> t ++ [TwilioClose].
Proof.
  intros <- Hclose.
  destruct (startOpenAI_trace apiKey s) as [H|H]; rewrite H in Hclose.
  - apply (f_equal length) in Hclose. rewrite length_app in Hclose.
    cbn in Hclose. lia.
  - apply app_inj_tail in Hclose as [_ Hclose]. discriminate.
Qed.

Lemma startOpenAI_started apiKey s :
  openaiStarted (ai (startOpenAI apiKey s)) = true.
Proof.
  unfold startOpenAI. destruct (openaiStarted (ai s)) eqn:E; [exact E|].
  destruct (negb (truthy apiKey)); reflexivity.
Qed.

Lemma startOpenAI_connects apiKey s :
  (trace (startOpenAI apiKey s) = trace s ++ [OpenAIConnect]
   <-> openaiStarted (ai s) = false /\ truthy apiKey = true)
  /\ (openaiStarted (ai s) = false -> truthy apiKey = true ->
      aiSocket (ai (startOpenAI apiKey s)) = Some CONNECTING
      /\ openaiWs (ai (startOpenAI apiKey s)) = true).
Proof.
  assert (Hgrow : forall t : list Effect, t <> t ++ [OpenAIConnect]).
  { intros t H. apply (f_equal length) in H. rewrite length_app in H.
    cbn in H. lia. }
  unfold startOpenAI. destruct (openaiStarted (ai s)).
  { split; [|discriminate]. split; [intros H; by apply Hgrow in H|].
    by intros [? _]. }
  destruct (truthy apiKey); cbn [negb]; session_simpl.
  - split; [|done]. by split.
  - split; [|discriminate]. split; [intros H; by apply Hgrow in H|].
    by intros [_ ?].
Qed.

(** C10. With a stream secret configured, a start message whose custom
    parameters carry no token is accepted: the handler goes on to
    [startOpenAI], closes nothing and records no rejection.  On the first
    start message of a session, with an API key configured, this opens the
    speech-AI leg: one connection to the provider is made and [openaiWs]
    holds the new socket, which is connecting; and a connection is made
    in no other case.  The handler closes the telephony socket exactly
    when the message carries a token that is not the secret; it then
    stamps the rejection cooldown of the address of the socket. *)
Theorem C10_start_without_token_is_accepted
    (env : Env) (now : Z) (sid cp_agent cp_token : option string)
    (g : Global) (s : Session) :
  truthy (STREAM_SECRET env) = true ->
  let r := onStart lowerTrim env now sid cp_agent cp_token (g, s) in
  (truthy cp_token = false ->
   r.2 = startOpenAI (OPENAI_API_KEY env) (started lowerTrim sid cp_agent s)
   /\ openaiStarted (ai r.2) = true
   /\ readyState (ws r.2) = readyState (ws s)
   /\ ipRejectionCooldowns r.1 = ipRejectionCooldowns g
   /\ (openaiStarted (ai s) = false ->
       truthy (OPENAI_API_KEY env) = true ->
       trace r.2 = trace s ++ [OpenAIConnect]
       /\ aiSocket (ai r.2) = Some CONNECTING
       /\ openaiWs (ai r.2) = true)
   /\ (trace r.2 = trace s ++ [OpenAIConnect]
       <-> openaiStarted (ai s) = false
           /\ truthy (OPENAI_API_KEY env) = true))
  /\ (trace r.2 = trace s ++ [TwilioClose]
      <-> truthy cp_token = true
          /\ orEmpty cp_token <> orEmpty (STREAM_SECRET env))
  /\ (trace r.2 = trace s ++ [TwilioClose] ->
      truthyStr (ws_clientIp (ws s)) = true ->
      ipRejectionCooldowns r.1 !! ws_clientIp (ws s) = Some now).
Proof.
  intros Hsecret r. subst r. unfold onStart. rewrite Hsecret.
  fold (started lowerTrim sid cp_agent s).
  assert (Hws : ws (started lowerTrim sid cp_agent s) = ws s)
    by (unfold started; destruct (truthy cp_agent); reflexivity).
  assert (Htr : trace (started lowerTrim sid cp_agent s) = trace s)
    by (unfold started; destruct (truthy cp_agent); reflexivity).
  assert (Hai : ai (started lowerTrim sid cp_agent s) = ai s)
    by (unfold started; destruct (truthy cp_agent); reflexivity).
  pose proof (startOpenAI_no_close (OPENAI_API_KEY env) _ _ Htr) as Hopen.
  cbn [setStream ws]. cbn [andb].
  destruct (truthy cp_token) eqn:Htok; cbn [andb].
  - destruct (String.eqb (orEmpty cp_token) (orEmpty (STREAM_SECRET env))) eqn:Heq;
      cbn [negb fst snd].
    + apply String.eqb_eq in Heq. split; [discriminate|]. split.
      * split; [done | intros [_ Hne]; contradiction].
      * done.
    + apply String.eqb_neq in Heq. split; [discriminate|]. split.
      * split; [done|]. intros _. unfold closeTwilio. session_simpl.
        by rewrite Htr.
      * intros _ Hip. rewrite Hip.
        destruct (truthyStr (ws_clientIp (ws s)) && truthy sid);
          cbn; apply lookup_insert_eq.
  - cbn [fst snd]. split; [|split].
    + intros _. split; [reflexivity|]. split; [apply startOpenAI_started|].
      split; [|split; [|split]].
      * unfold startOpenAI. rewrite <- Hws.
        destruct (openaiStarted (ai (started lowerTrim sid cp_agent s))); [done|].
        destruct (negb (truthy (OPENAI_API_KEY env))); reflexivity.
      * destruct (truthyStr (ws_clientIp (ws s)) && truthy sid); [|done].
        unfold trackConnectionAttempt. destruct (truthy sid); reflexivity.
      * intros Hfirst Hkey.
        destruct (startOpenAI_connects (OPENAI_API_KEY env)
                    (started lowerTrim sid cp_agent s)) as [Hiff Hleg].
        rewrite Hai in Hiff, Hleg. rewrite Htr in Hiff.
        split; [by apply Hiff | by apply Hleg].
      * destruct (startOpenAI_connects (OPENAI_API_KEY env)
                    (started lowerTrim sid cp_agent s)) as [Hiff _].
        by rewrite Hai, Htr in Hiff.
    + split; [done | intros [? _]; discriminate].
    + done.
Qed.

End StartMessage.

Lemma C10_start_without_token_is_accepted_witness :
  trace (onStart (fun v => v) env0 1000 (Some "MZ1") None None
                 (emptyGlobal,
                  newSession (mkTwilioSocket 1 OPEN 0 caller) "assistant")).2
  = trace (newSession (mkTwilioSocket 1 OPEN 0 caller) "assistant")
    ++ [OpenAIConnect]
  /\ aiSocket
       (ai (onStart (fun v => v) env0 1000 (Some "MZ1") None None
                    (emptyGlobal,
                     newSession (mkTwilioSocket 1 OPEN 0 caller) "assistant")).2)
     = Some CONNECTING
  /\ openaiWs
       (ai (onStart (fun v => v) env0 1000 (Some "MZ1") None None
                    (emptyGlobal,
                     newSession (mkTwilioSocket 1 OPEN 0 caller) "assistant")).2)
     = true.
Proof.
  refine (proj1 (proj2 (proj2 (proj2 (proj2 (proj1
            (C10_start_without_token_is_accepted (fun v => v) env0 1000
               (Some "MZ1") None None emptyGlobal
               (newSession (mkTwilioSocket 1 OPEN 0 caller) "assistant") _) _)))))
            _ _).
  - reflexivity.
  - reflexivity.
  - reflexivity.
  - reflexivity.
Defined.

End AdmissionFacts.

(** ** Theorems: tool-call pipeline *)

Module ToolCallFacts.
Import Bridge ToolCallSpec.

Lemma dispatched_app t1 t2 :
  dispatched (t1 ++ t2) = dispatched t1 ++ dispatched t2.
Proof. unfold dispatched. apply omap_app. Qed.

Lemma dispatchedIds_app t1 t2 :
  dispatchedIds (t1 ++ t2) = dispatchedIds t1 ++ dispatchedIds t2.
Proof. unfold dispatchedIds. rewrite dispatched_app. apply fmap_app. Qed.

Lemma ensurePending_view cid s s' :
  ensurePending cid s = Some s' -> toolView s' = toolView s.
Proof.
  unfold ensurePending. destruct (pendingFunctionCalls s !! cid).
  - intros [= <-]. reflexivity.
  - case_bool_decide; [discriminate|]. intros [= <-]. reflexivity.
Qed.

(** Sending audio to the telephony leg dispatches no tool. *)
Lemma sendToTwilio_dispatched payload s :
  handledToolCallIds (sendToTwilio payload s).1 = handledToolCallIds s
  /\ handledToolCallOrder (sendToTwilio payload s).1 = handledToolCallOrder s
  /\ dispatched (trace (sendToTwilio payload s).1) = dispatched (trace s).
Proof.
  unfold sendToTwilio.
  destruct (isOpen (readyState (ws s)) && truthy (streamSid s)); [|done].
  destruct (BACKPRESSURE_LIMIT <? bufferedAmount (ws s)); [done|].
  session_simpl. rewrite dispatched_app. cbn. rewrite app_nil_r. done.
Qed.

Lemma flushAudioAggregation_dispatched s :
  handledToolCallIds (flushAudioAggregation s) = handledToolCallIds s
  /\ handledToolCallOrder (flushAudioAggregation s) = handledToolCallOrder s
  /\ dispatched (trace (flushAudioAggregation s)) = dispatched (trace s).
Proof.
  unfold flushAudioAggregation. session_simpl.
  destruct (audioAggregationBuffer s); [done|].
  apply (sendToTwilio_dispatched _ (setAudio [] false s)).
Qed.

Lemma queueAudio_dispatched payload s :
  handledToolCallIds (queueAudio payload s) = handledToolCallIds s
  /\ handledToolCallOrder (queueAudio payload s) = handledToolCallOrder s
  /\ dispatched (trace (queueAudio payload s)) = dispatched (trace s).
Proof.
  unfold queueAudio. case_bool_decide; [done|]. session_simpl.
  case_bool_decide; [|done].
  apply (flushAudioAggregation_dispatched
           (setAudio (audioAggregationBuffer s ++ [payload])
                     (audioAggregationTimer s) s)).
Qed.

Lemma recordOutputItems_view output s :
  toolView (foldl recordOutputItem s output) = toolView s.
Proof.
  revert s. induction output as [|item rest IH]; intros s; [done|].
  cbn [foldl]. rewrite IH. unfold recordOutputItem.
  destruct (isFunctionCall item && truthy (item_call_id item)); reflexivity.
Qed.

(** A partial-arguments event only touches the pending table. *)
Lemma delta_view cid delta s :
  toolView (onOpenAIMessage (response_function_call_arguments_delta cid delta) s)
  = toolView s.
Proof.
  cbn [onOpenAIMessage]. destruct (truthy cid); [|done].
  destruct (ensurePending (orEmpty cid) s) as [s'|] eqn:E; [|done].
  apply ensurePending_view in E. rewrite <- E. reflexivity.
Qed.

Lemma deltas_view cid deltas s :
  toolView (runAi (deltaEvents cid deltas) s) = toolView s.
Proof.
  revert s. induction deltas as [|d rest IH]; intros s; [done|].
  cbn. unfold runAi, deltaEvents in IH. rewrite IH. apply delta_view.
Qed.

Lemma runAi_app evs1 evs2 s :
  runAi (evs1 ++ evs2) s = runAi evs2 (runAi evs1 s).
Proof. unfold runAi. apply foldl_app. Qed.

Lemma maybeHandleToolCall_fresh cid fnName argsStr s :
  truthy cid = true ->
  truthyStr fnName = true ->
  orEmpty cid ∉ handledToolCallIds s ->
  trace (maybeHandleToolCall cid fnName argsStr s)
  = trace s ++ [ExecuteTool (orEmpty cid) fnName argsStr].
Proof.
  intros Hc Hn Hfresh. unfold maybeHandleToolCall. rewrite Hc, Hn. cbn [negb orb].
  unfold addHandledToolCallId. session_simpl.
  rewrite bool_decide_eq_false_2 by exact Hfresh.
  destruct (evictOldest _ _) as [order ids]. reflexivity.
Qed.

Lemma authoritative_fresh form cid name arguments s :
  truthy cid = true ->
  truthy name = true ->
  orEmpty cid ∉ handledToolCallIds s ->
  trace (onOpenAIMessage (authoritative form cid name arguments) s)
  = trace s ++ [ExecuteTool (orEmpty cid) (orEmpty name) (orEmpty arguments)].
Proof.
  intros Hc Hn Hfresh. destruct form; cbn [authoritative onOpenAIMessage].
  - unfold isFunctionCall.
    cbn [item_type item_call_id item_name item_arguments].
    rewrite String.eqb_refl, Hc.
    rewrite maybeHandleToolCall_fresh; done.
  - rewrite maybeHandleToolCall_fresh; done.
Qed.

Lemma maybeHandleToolCall_trace cid fnName argsStr s :
  trace (maybeHandleToolCall cid fnName argsStr s) = trace s
  \/ trace (maybeHandleToolCall cid fnName argsStr s)
     = trace s ++ [ExecuteTool (orEmpty cid) fnName argsStr].
Proof.
  unfold maybeHandleToolCall.
  destruct (negb (truthyStr fnName) || negb (truthy cid)); [by left|].
  unfold addHandledToolCallId. session_simpl.
  case_bool_decide; [by left|].
  destruct (evictOldest _ _) as [order ids]. by right.
Qed.

Lemma authoritative_trace form cid name arguments s :
  trace (onOpenAIMessage (authoritative form cid name arguments) s) = trace s
  \/ trace (onOpenAIMessage (authoritative form cid name arguments) s)
     = trace s ++ [ExecuteTool (orEmpty cid) (orEmpty name) (orEmpty arguments)].
Proof.
  destruct form; cbn [authoritative onOpenAIMessage].
  - unfold isFunctionCall.
    cbn [item_type item_call_id item_name item_arguments].
    rewrite String.eqb_refl.
    match goal with
    | |- context [maybeHandleToolCall _ _ _ ?s1] =>
        destruct (maybeHandleToolCall_trace cid (orEmpty name) (orEmpty arguments) s1)
          as [H|H]; rewrite H; destruct (truthy cid); auto
    end.
  - apply maybeHandleToolCall_trace.
Qed.

(** C1. After any number of partial-argument events for a call id, the
    authoritative event for that id, in either of its two forms, makes
    the session dispatch at most one more tool invocation, and the
    argument string of that invocation is the payload of the
    authoritative event itself: nothing of the accumulated partial
    arguments is part of it.  The invocation is dispatched whenever the
    event names the function and the id has not been handled before. *)
Theorem C1_dispatch_uses_authoritative_arguments
    (s : Session) (form : AuthoritativeForm)
    (cid name arguments : option string) (deltas : list (option string)) :
  let after :=
    dispatched
      (trace (runAi (deltaEvents cid deltas ++ [authoritative form cid name arguments]) s)) in
  let invocation := (orEmpty cid, orEmpty name, orEmpty arguments) in
  (after = dispatched (trace s) \/ after = dispatched (trace s) ++ [invocation])
  /\ (truthy cid = true ->
      truthy name = true ->
      orEmpty cid ∉ handledToolCallIds s ->
      after = dispatched (trace s) ++ [invocation]).
Proof.
  intros after invocation. subst after invocation. rewrite runAi_app.
  pose proof (deltas_view cid deltas s) as Hview.
  set (s1 := runAi (deltaEvents cid deltas) s) in *.
  unfold toolView in Hview. injection Hview as Hids Horder Htrace.
  change (runAi [authoritative form cid name arguments] s1)
    with (onOpenAIMessage (authoritative form cid name arguments) s1).
  split.
  - destruct (authoritative_trace form cid name arguments s1) as [H|H];
      rewrite H, ?dispatched_app, Htrace; cbn; rewrite ?app_nil_r; auto.
  - intros Hc Hn Hfresh.
    rewrite authoritative_fresh; [| done | done | by rewrite Hids].
    rewrite dispatched_app, Htrace. reflexivity.
Qed.

(** *** The bounded set of handled ids *)

Lemma evictOldest_below (order : list string) ids :
  (length order < MAX_HANDLED_TOOL_IDS)%nat ->
  evictOldest order ids = (order, ids).
Proof.
  intros Hlen. destruct order as [|o rest]; [done|].
  cbn [evictOldest]. rewrite bool_decide_eq_false_2; [done | lia].
Qed.

Lemma evictOldest_full (o : string) (rest : list string) :
  length (o :: rest) = MAX_HANDLED_TOOL_IDS ->
  NoDup (o :: rest) ->
  evictOldest (o :: rest) (list_to_set (o :: rest)) = (rest, list_to_set rest).
Proof.
  intros Hlen Hnd. cbn [evictOldest].
  rewrite bool_decide_eq_true_2 by lia.
  rewrite evictOldest_below by (cbn [length] in Hlen; lia).
  f_equal. apply NoDup_cons in Hnd as [Hnotin _].
  cbn [list_to_set foldr]. apply set_eq. intros x.
  rewrite elem_of_difference, elem_of_union, elem_of_singleton, elem_of_list_to_set.
  split.
  - intros [[->|Hin] Hne]; [done | exact Hin].
  - intros Hin. split; [by right|]. intros ->. contradiction.
Qed.

Lemma handledInv_length s :
  handledInv s -> (length (handledToolCallOrder s) <= MAX_HANDLED_TOOL_IDS)%nat.
Proof. intros (_ & _ & ->). rewrite length_drop. lia. Qed.

(** Handling a fresh id: the id joins the set and the order list, which
    then hold the last ids of the log extended with it. *)
Lemma addHandledToolCallId_fresh callId s :
  handledInv s ->
  callId ∉ handledToolCallIds s ->
  let s' := (addHandledToolCallId callId s).1 in
  (addHandledToolCallId callId s).2 = true
  /\ trace s' = trace s
  /\ handledToolCallIds s' = list_to_set (handledToolCallOrder s')
  /\ NoDup (handledToolCallOrder s')
  /\ handledToolCallOrder s'
     = drop (length (dispatchedIds (trace s) ++ [callId]) - MAX_HANDLED_TOOL_IDS)
            (dispatchedIds (trace s) ++ [callId]).
Proof.
  intros Hinv Hfresh. pose proof (handledInv_length s Hinv) as Hlen.
  destruct Hinv as (Hids & Hnd & Horder).
  unfold addHandledToolCallId. rewrite bool_decide_eq_false_2 by exact Hfresh.
  set (log := dispatchedIds (trace s)) in *.
  assert (Hnotin : callId ∉ handledToolCallOrder s).
  { rewrite Hids in Hfresh. by rewrite elem_of_list_to_set in Hfresh. }
  destruct (decide (length (handledToolCallOrder s) = MAX_HANDLED_TOOL_IDS)) as [Hfull|Hroom].
  - destruct (handledToolCallOrder s) as [|o rest] eqn:Eo; [discriminate|].
    rewrite Hids, (evictOldest_full o rest Hfull Hnd). session_simpl.
    apply NoDup_cons in Hnd as [Ho Hrest].
    assert (Hlog : (MAX_HANDLED_TOOL_IDS <= length log)%nat).
    { assert (Hl : length (o :: rest) = length (drop (length log - MAX_HANDLED_TOOL_IDS) log))
        by (by rewrite Horder).
      rewrite length_drop in Hl. lia. }
    split; [done|]. split; [done|]. split; [|split].
    + by rewrite list_to_set_app_L, list_to_set_singleton_L.
    + apply NoDup_app. split; [exact Hrest|]. split.
      * intros x Hx ->%list_elem_of_singleton. apply Hnotin. by right.
      * apply NoDup_singleton.
    + rewrite length_app. cbn [length].
      replace (length log + 1 - MAX_HANDLED_TOOL_IDS)%nat
        with ((length log - MAX_HANDLED_TOOL_IDS) + 1)%nat by lia.
      rewrite <- drop_drop.
      rewrite (drop_app_le log [callId]) by lia.
      rewrite <- Horder. reflexivity.
  - rewrite evictOldest_below by lia. session_simpl.
    assert (Hlog : (length log < MAX_HANDLED_TOOL_IDS)%nat).
    { assert (Hl : length (handledToolCallOrder s)
                   = length (drop (length log - MAX_HANDLED_TOOL_IDS) log))
        by (by rewrite Horder at 1).
      rewrite length_drop in Hl. lia. }
    split; [done|]. split; [done|]. split; [|split].
    + by rewrite list_to_set_app_L, list_to_set_singleton_L, Hids.
    + apply NoDup_app. split; [exact Hnd|]. split.
      * intros x Hx ->%list_elem_of_singleton. contradiction.
      * apply NoDup_singleton.
    + rewrite length_app. cbn [length].
      replace (length log + 1 - MAX_HANDLED_TOOL_IDS)%nat with 0%nat by lia.
      replace (length log - MAX_HANDLED_TOOL_IDS)%nat with 0%nat in Horder by lia.
      rewrite Horder. reflexivity.
Qed.

Lemma farApart_snoc (log : list string) (c : string) :
  farApart log ->
  c ∉ drop (length log - MAX_HANDLED_TOOL_IDS) log ->
  farApart (log ++ [c]).
Proof.
  intros Hfar Hnotin i j x Hij Hi Hj.
  assert (Hjlen : (j < length (log ++ [c]))%nat) by (eapply lookup_lt_Some; eauto).
  rewrite length_app in Hjlen. cbn [length] in Hjlen.
  destruct (decide (j < length log)%nat) as [Hjl|Hjl].
  - rewrite lookup_app_l in Hi by lia. rewrite lookup_app_l in Hj by lia.
    eapply Hfar; eauto.
  - assert (j = length log) by lia. subst j.
    rewrite lookup_app_l in Hi by lia.
    rewrite lookup_app_r in Hj by lia.
    replace (length log - length log)%nat with 0%nat in Hj by lia.
    cbn in Hj. injection Hj as <-.
    destruct (decide (i + MAX_HANDLED_TOOL_IDS < length log)%nat) as [|Hnear]; [done|].
    exfalso. apply Hnotin. apply list_elem_of_lookup.
    exists (i - (length log - MAX_HANDLED_TOOL_IDS))%nat.
    rewrite lookup_drop. rewrite <- Hi. f_equal. lia.
Qed.

Lemma dedupInv_view s s' :
  handledToolCallIds s' = handledToolCallIds s ->
  handledToolCallOrder s' = handledToolCallOrder s ->
  dispatched (trace s') = dispatched (trace s) ->
  dedupInv s -> dedupInv s'.
Proof.
  unfold dedupInv, handledInv, dispatchedIds. intros -> -> ->. done.
Qed.

Lemma dedupInv_toolView s s' :
  toolView s' = toolView s -> dedupInv s -> dedupInv s'.
Proof.
  unfold toolView. intros [= Hids Horder Htrace].
  apply dedupInv_view; [done | done | by rewrite Htrace].
Qed.

Lemma maybeHandleToolCall_inv cid fnName argsStr s :
  dedupInv s -> dedupInv (maybeHandleToolCall cid fnName argsStr s).
Proof.
  intros Hinv. unfold maybeHandleToolCall.
  destruct (negb (truthyStr fnName) || negb (truthy cid)); [done|].
  set (s1 := setPending _ s).
  assert (Hinv1 : dedupInv s1) by (by apply (dedupInv_toolView s)).
  destruct (decide (orEmpty cid ∈ handledToolCallIds s1)) as [Hin|Hfresh].
  - unfold addHandledToolCallId. rewrite bool_decide_eq_true_2 by exact Hin. done.
  - destruct Hinv1 as [Hh Hfar].
    pose proof (addHandledToolCallId_fresh _ _ Hh Hfresh) as (Hb & Htr & Hids & Hnd & Hord).
    destruct (addHandledToolCallId (orEmpty cid) s1) as [s2 b].
    cbn [fst snd] in *. subst b.
    assert (Hlog : dispatchedIds (trace (emit (ExecuteTool (orEmpty cid) fnName argsStr) s2))
                   = dispatchedIds (trace s1) ++ [orEmpty cid]).
    { session_simpl. rewrite dispatchedIds_app, Htr. reflexivity. }
    split.
    + unfold handledInv. rewrite Hlog. session_simpl. done.
    + rewrite Hlog. apply farApart_snoc; [exact Hfar|].
      destruct Hh as (Hids1 & _ & Hord1). rewrite <- Hord1.
      rewrite Hids1 in Hfresh. by rewrite elem_of_list_to_set in Hfresh.
Qed.

Lemma onOpenAIMessage_inv ev s :
  dedupInv s -> dedupInv (onOpenAIMessage ev s).
Proof.
  intros Hinv. destruct ev as [delta|cid delta|item|item|output|cid name arguments|].
  - cbn [onOpenAIMessage]. destruct (truthy delta); [|done].
    destruct (queueAudio_dispatched (orEmpty delta) s) as (H1 & H2 & H3).
    by apply (dedupInv_view s).
  - apply (dedupInv_toolView s); [apply delta_view | done].
  - cbn [onOpenAIMessage].
    destruct (isFunctionCall item && truthy (item_call_id item)); [|done].
    destruct (ensurePending _ s) as [s'|] eqn:E; [|done].
    apply ensurePending_view in E.
    apply (dedupInv_toolView s); [|done]. rewrite <- E. reflexivity.
  - cbn [onOpenAIMessage]. destruct (isFunctionCall item); [|done].
    apply maybeHandleToolCall_inv.
    destruct (truthy (item_call_id item)); [|done].
    by apply (dedupInv_toolView s).
  - cbn [onOpenAIMessage].
    apply (dedupInv_toolView s); [apply recordOutputItems_view | done].
  - cbn [onOpenAIMessage]. by apply maybeHandleToolCall_inv.
  - done.
Qed.

Lemma runAi_inv evs s : dedupInv s -> dedupInv (runAi evs s).
Proof.
  revert s. induction evs as [|ev rest IH]; intros s Hinv; [done|].
  cbn. apply IH. by apply onOpenAIMessage_inv.
Qed.

Lemma newSession_inv sock agentKey : dedupInv (newSession sock agentKey).
Proof.
  split.
  - split; [done|]. split; [apply NoDup_nil_2 | done].
  - intros i j c _ Hi. cbn in Hi. discriminate.
Qed.

Lemma farApart_window (log : list string) (k : nat) :
  farApart log -> NoDup (take (S MAX_HANDLED_TOOL_IDS) (drop k log)).
Proof.
  intros Hfar. apply NoDup_alt. intros i j x Hi Hj.
  apply lookup_take_Some in Hi as [Hi Hilt].
  apply lookup_take_Some in Hj as [Hj Hjlt].
  rewrite lookup_drop in Hi. rewrite lookup_drop in Hj.
  destruct (Nat.lt_trichotomy i j) as [Hlt|[Heq|Hgt]]; [|done|].
  - assert (k + i + MAX_HANDLED_TOOL_IDS < k + j)%nat
      by (eapply Hfar; [|eauto|eauto]; lia).
    lia.
  - assert (k + j + MAX_HANDLED_TOOL_IDS < k + i)%nat
      by (eapply Hfar; [|eauto|eauto]; lia).
    lia.
Qed.

(** An authoritative event for an id of the handled set dispatches
    nothing and leaves the set alone. *)
Lemma maybeHandleToolCall_handled cid fnName argsStr s :
  orEmpty cid ∈ handledToolCallIds s ->
  toolView (maybeHandleToolCall cid fnName argsStr s) = toolView s.
Proof.
  intros Hin. unfold maybeHandleToolCall.
  destruct (negb (truthyStr fnName) || negb (truthy cid)); [done|].
  unfold addHandledToolCallId. session_simpl.
  rewrite bool_decide_eq_true_2 by exact Hin. reflexivity.
Qed.

(** C2 (as the code has it). In every run of a session, any
    [MAX_HANDLED_TOOL_IDS + 1 = 101] consecutive tool dispatches are for
    pairwise different call ids: an id is dispatched again only after 100
    other dispatches have pushed it out of the handled set.  While an id
    is in the handled set, an authoritative event for it, of either form
    and however often repeated, dispatches nothing and leaves the set and
    the trace as they are. *)
Theorem C2_dispatch_once_within_bound
    (sock : TwilioSocket) (agentKey : string) (evs : list AiEvent) :
  (forall k : nat,
      NoDup (take (S MAX_HANDLED_TOOL_IDS)
                  (drop k (dispatchedIds (trace (runAi evs (newSession sock agentKey)))))))
  /\ (forall (s : Session) (form : AuthoritativeForm) (cid name arguments : option string),
        orEmpty cid ∈ handledToolCallIds s ->
        toolView (onOpenAIMessage (authoritative form cid name arguments) s)
        = toolView s).
Proof.
  split.
  - intros k. apply farApart_window.
    apply (runAi_inv evs _ (newSession_inv sock agentKey)).
  - intros s form cid name arguments Hin.
    destruct form; cbn [authoritative onOpenAIMessage].
    + unfold isFunctionCall. cbn [item_type item_call_id item_name item_arguments].
      rewrite String.eqb_refl.
      rewrite maybeHandleToolCall_handled by (destruct (truthy cid); exact Hin).
      destruct (truthy cid); reflexivity.
    + by apply maybeHandleToolCall_handled.
Qed.

(** *** Concrete runs *)

(** C2, counterexample. After 100 other calls the id of the first call has
    left the handled set, and the repeated authoritative event dispatches
    the first call a second time. *)
Lemma C2_counterexample_evicted_id_dispatched_twice :
  ~ dispatchedAtMostOnce floodThenRepeat.
Proof.
  unfold dispatchedAtMostOnce. intros Hnd.
  apply (bool_decide_pack (NoDup _)) in Hnd.
  vm_compute in Hnd. exact Hnd.
Qed.

Lemma C2_dispatch_once_within_bound_witness :
  toolView
    (onOpenAIMessage (doneEvent 7) (runAi [doneEvent 7] (newSession sock0 "outbound")))
  = toolView (runAi [doneEvent 7] (newSession sock0 "outbound")).
Proof.
  apply (proj2 (C2_dispatch_once_within_bound sock0 "outbound" [])).
  vm_compute. set_unfold. tauto.
Defined.

Lemma C1_dispatch_uses_authoritative_arguments_witness :
  dispatched
    (trace (runAi (deltaEvents (Some "C1") [Some ("{" +:+ dq +:+ "phone"); Some ("_number" +:+ dq +:+ ":555}")]
                   ++ [authoritative OutputItemDone (Some "C1") (Some "lookup")
                         (Some phonePayload)])
                  (newSession sock0 "customer_service")))
  = [("C1", "lookup", phonePayload)].
Proof.
  apply (proj2 (C1_dispatch_uses_authoritative_arguments
                  (newSession sock0 "customer_service") OutputItemDone
                  (Some "C1") (Some "lookup") (Some phonePayload)
                  [Some ("{" +:+ dq +:+ "phone"); Some ("_number" +:+ dq +:+ ":555}")])).
  - reflexivity.
  - reflexivity.
  - cbn. apply not_elem_of_empty.
Defined.

End ToolCallFacts.

(** ** Theorems: outbound audio aggregation *)

Module AudioFacts.
Import Admission Bridge AudioSpec.

Lemma sendToTwilio_backpressure payload s :
  BACKPRESSURE_LIMIT < bufferedAmount (ws s) ->
  sendToTwilio payload s = (s, false).
Proof.
  intros Hfull. unfold sendToTwilio.
  destruct (isOpen (readyState (ws s)) && truthy (streamSid s)); [|done].
  assert (H : (BACKPRESSURE_LIMIT <? bufferedAmount (ws s)) = true)
    by (apply Z.ltb_lt; exact Hfull).
  by rewrite H.
Qed.

Lemma flushAudioAggregation_backpressure s :
  BACKPRESSURE_LIMIT < bufferedAmount (ws s) ->
  flushAudioAggregation s = setAudio [] false s.
Proof.
  intros Hfull. unfold flushAudioAggregation. session_simpl.
  destruct (audioAggregationBuffer s) as [|chunk rest] eqn:Ebuf.
  - destruct s. cbn in *. by subst.
  - rewrite sendToTwilio_backpressure by exact Hfull. reflexivity.
Qed.

(** C6. A flush of the outbound aggregator made while the telephony
    socket has more than 64 KiB of unsent bytes sends nothing: the trace of
    the session is unchanged, the timer is cleared and the buffer is empty
    afterwards.  The buffered audio is gone for good: the session after
    the flush is the same whatever had been buffered, and so is every
    later run of it. *)
Theorem C6_backpressure_flush_discards
    (lowerTrim : string -> string) (env : Env) (g : Global) (s : Session) :
  BACKPRESSURE_LIMIT < bufferedAmount (ws s) ->
  audioAggregationBuffer (flushAudioAggregation s) = []
  /\ audioAggregationTimer (flushAudioAggregation s) = false
  /\ trace (flushAudioAggregation s) = trace s
  /\ (forall (buffered : list string) (later : list SessionEvent),
        run lowerTrim env later
            (g, flushAudioAggregation (setAudio buffered (audioAggregationTimer s) s))
        = run lowerTrim env later (g, flushAudioAggregation s)).
Proof.
  intros Hfull. rewrite flushAudioAggregation_backpressure by exact Hfull.
  split; [done|]. split; [done|]. split; [done|].
  intros buffered later.
  rewrite flushAudioAggregation_backpressure by exact Hfull. reflexivity.
Qed.

(** *** A concrete session *)

Lemma C6_backpressure_flush_discards_witness :
  audioAggregationBuffer (flushAudioAggregation congestedSession) = []
  /\ trace (flushAudioAggregation congestedSession) = trace congestedSession.
Proof.
  pose proof (C6_backpressure_flush_discards (fun v => v) (mkEnv None None)
                emptyGlobal congestedSession) as H.
  destruct H as (Hbuf & _ & Htrace & _).
  - reflexivity.
  - exact (conj Hbuf Htrace).
Defined.

End AudioFacts.

(** ** Theorems: teardown of a session *)

Module TeardownFacts.
Import Admission Bridge TeardownSpec.

Lemma aiCloseCalls_app t1 t2 :
  aiCloseCalls (t1 ++ t2) = (aiCloseCalls t1 + aiCloseCalls t2)%nat.
Proof.
  induction t1 as [|e rest IH]; [done|].
  destruct e; cbn; rewrite ?IH; reflexivity.
Qed.

(** Taking the socket off the table of its address twice is taking it
    off once. *)
Lemma untrackWsConnection_idem ip id g :
  untrackWsConnection ip id (untrackWsConnection ip id g)
  = untrackWsConnection ip id g.
Proof.
  destruct (wsConnectionsByIp g !! ip) as [connections|] eqn:E.
  - assert (Hsame : (connections ∖ {[id]}) ∖ {[id]} = connections ∖ {[id]}).
    { apply set_eq. intros x. rewrite !elem_of_difference. tauto. }
    assert (Hu : untrackWsConnection ip id g
                 = mkGlobal (if bool_decide (size (connections ∖ {[id]}) = 0%nat)
                             then delete ip (wsConnectionsByIp g)
                             else <[ip := connections ∖ {[id]}]> (wsConnectionsByIp g))
                            (reconnectCooldowns g) (ipRejectionCooldowns g)
                            (metricsRequestCount g) (metricsWsMessageCount g)
                            (metricsWsRejections g) (metricsLastReset g))
      by (unfold untrackWsConnection; by rewrite E).
    rewrite Hu. unfold untrackWsConnection.
    cbn [wsConnectionsByIp reconnectCooldowns ipRejectionCooldowns
         metricsRequestCount metricsWsMessageCount metricsWsRejections
         metricsLastReset].
    case_bool_decide as Hsize.
    + rewrite lookup_delete_eq. reflexivity.
    + rewrite lookup_insert_eq, Hsame, bool_decide_eq_false_2 by exact Hsize.
      by rewrite insert_insert_eq.
  - assert (Hu : untrackWsConnection ip id g = g)
      by (unfold untrackWsConnection; by rewrite E).
    by rewrite !Hu.
Qed.

(** Split the goal along the tests a handler makes. *)
Ltac handler_cases :=
  repeat match goal with
         | |- context [if ?b then _ else _] => destruct b
         | |- context [match ?l with [] => _ | _ :: _ => _ end] => destruct l
         end.

Lemma flushInboundAudio_fields s :
  let s' := flushInboundAudio s in
  ws s' = ws s /\ ai s' = ai s
  /\ audioAggregationBuffer s' = audioAggregationBuffer s
  /\ audioAggregationTimer s' = audioAggregationTimer s
  /\ inboundAudioBuffer s' = [] /\ inboundAggregationTimer s' = false.
Proof.
  destruct s as [w sid ag a ab tm ib itm ids ord pend tr].
  unfold flushInboundAudio, sendToOpenAI. cbn. handler_cases; cbn; done.
Qed.

Lemma closeOpenAI_fields s :
  let s' := closeOpenAI s in
  ws s' = ws s
  /\ openaiWs (ai s') = false
  /\ aiSocket (ai s')
     = (if openaiWs (ai s) then closeSocket <$> aiSocket (ai s) else aiSocket (ai s))
  /\ audioAggregationBuffer s' = [] /\ audioAggregationTimer s' = false
  /\ inboundAudioBuffer s' = inboundAudioBuffer s
  /\ inboundAggregationTimer s' = inboundAggregationTimer s.
Proof.
  destruct s as [w sid ag [sock ow os] ab tm ib itm ids ord pend tr].
  unfold closeOpenAI, flushAudioAggregation, sendToTwilio. cbn.
  destruct ow; cbn; handler_cases; cbn; done.
Qed.

(** After the handler of the closed telephony socket the session is
    quiet, and the socket is off the table of its address. *)
Lemma onTwilioClose_quiet g s :
  quiet (onTwilioClose (g, s)).2
  /\ ws (onTwilioClose (g, s)).2 = ws s
  /\ aiSocket (ai (onTwilioClose (g, s)).2)
     = (if openaiWs (ai s) then closeSocket <$> aiSocket (ai s) else aiSocket (ai s))
  /\ (onTwilioClose (g, s)).1
     = (if truthyStr (ws_clientIp (ws s))
        then untrackWsConnection (ws_clientIp (ws s)) (wsId (ws s)) g
        else g).
Proof.
  unfold onTwilioClose, quiet. cbn [fst snd]. session_simpl.
  pose proof (flushInboundAudio_fields s) as (Hw1 & Ha1 & _).
  pose proof (closeOpenAI_fields (flushInboundAudio s)) as (Hw2 & Ho2 & Hs2 & _).
  cbn zeta in *. rewrite Hw2, Hw1, Ho2, Hs2, Ha1. done.
Qed.

(** On a quiet session the handler only takes the socket off the table. *)
Lemma onTwilioClose_of_quiet g s :
  quiet s ->
  onTwilioClose (g, s)
  = (if truthyStr (ws_clientIp (ws s))
     then untrackWsConnection (ws_clientIp (ws s)) (wsId (ws s)) g
     else g, s).
Proof.
  destruct s as [w sid ag [sock ow os] ab tm ib itm ids ord pend tr].
  unfold quiet. cbn. intros (-> & -> & -> & -> & -> & -> & -> & ->).
  reflexivity.
Qed.

(** The handler of the closed telephony socket: running it on its own
    result changes nothing more. *)
Lemma onTwilioClose_idem gs :
  onTwilioClose (onTwilioClose gs) = onTwilioClose gs.
Proof.
  destruct gs as [g s].
  pose proof (onTwilioClose_quiet g s) as (Hq & Hw & _ & Hg).
  destruct (onTwilioClose (g, s)) as [g' s'] eqn:E. cbn [fst snd] in *.
  rewrite (onTwilioClose_of_quiet g' s' Hq), Hw, Hg.
  destruct (truthyStr (ws_clientIp (ws s))); [|done].
  by rewrite untrackWsConnection_idem.
Qed.

Lemma flushInboundAudio_closes s :
  aiCloseCalls (trace (flushInboundAudio s)) = aiCloseCalls (trace s).
Proof.
  destruct s as [w sid ag a ab tm ib itm ids ord pend tr].
  unfold flushInboundAudio, sendToOpenAI. cbn.
  destruct ib; cbn; handler_cases; cbn; rewrite ?aiCloseCalls_app; cbn; lia.
Qed.

Lemma closeOpenAI_closes s :
  aiCloseCalls (trace (closeOpenAI s))
  = (aiCloseCalls (trace s) + (if openaiWs (ai s) then 1 else 0))%nat.
Proof.
  destruct s as [w sid ag [sock ow os] ab tm ib itm ids ord pend tr].
  unfold closeOpenAI, flushAudioAggregation, sendToTwilio. cbn.
  destruct ow, ab; cbn; handler_cases; cbn; rewrite ?aiCloseCalls_app; cbn; lia.
Qed.

Lemma onTwilioClose_closes g s :
  aiCloseCalls (trace (onTwilioClose (g, s)).2)
  = (aiCloseCalls (trace s) + (if openaiWs (ai s) then 1 else 0))%nat.
Proof.
  unfold onTwilioClose. cbn [fst snd]. session_simpl.
  rewrite closeOpenAI_closes, flushInboundAudio_closes.
  by destruct (flushInboundAudio_fields s) as (_ & -> & _).
Qed.

Lemma onTwilioClose_rest g s :
  handledToolCallIds (onTwilioClose (g, s)).2 = ∅
  /\ handledToolCallOrder (onTwilioClose (g, s)).2 = []
  /\ pendingFunctionCalls (onTwilioClose (g, s)).2 = ∅.
Proof. done. Qed.

Section EitherOrder.

Variable lowerTrim : string -> string.
Variable env : Env.

Lemma tornDown_of_quiet s :
  quiet s -> readyState (ws s) = CLOSED ->
  aiSocket (ai s) = None \/ aiSocket (ai s) = Some CLOSED ->
  tornDown s.
Proof. unfold quiet, tornDown. tauto. Qed.

(** The telephony leg first: its handler runs, then the speech-AI socket
    is seen closed. *)
Lemma telephonyFirst_eq g s g1 s1 :
  onTwilioClose (g, telephonyClosed s) = (g1, s1) ->
  telephonyFirst lowerTrim env (g, s) = (g1, speechClosed s1).
Proof.
  intros E. unfold telephonyFirst, run. cbn [foldl step].
  fold (telephonyClosed s). rewrite E. reflexivity.
Qed.

(** What the closes of the two sockets leave of a session. *)
Lemma closed_ws (s : Session) :
  ws (telephonyClosed (speechClosed s)) = ws (telephonyClosed s)
  /\ openaiWs (ai (telephonyClosed (speechClosed s))) = openaiWs (ai s)
  /\ aiSocket (ai (telephonyClosed (speechClosed s)))
     = (fun _ => CLOSED) <$> aiSocket (ai s)
  /\ trace (telephonyClosed (speechClosed s)) = trace s
  /\ openaiWs (ai (telephonyClosed s)) = openaiWs (ai s)
  /\ aiSocket (ai (telephonyClosed s)) = aiSocket (ai s)
  /\ trace (telephonyClosed s) = trace s
  /\ readyState (ws (telephonyClosed s)) = CLOSED
  /\ ws_clientIp (ws (telephonyClosed s)) = ws_clientIp (ws s)
  /\ wsId (ws (telephonyClosed s)) = wsId (ws s).
Proof. by destruct s. Qed.

Lemma speechFirst_unfold g s :
  speechFirst lowerTrim env (g, s) = onTwilioClose (g, telephonyClosed (speechClosed s)).
Proof. reflexivity. Qed.

Lemma speechClosed_fields s :
  (quiet s -> quiet (speechClosed s))
  /\ ws (speechClosed s) = ws s
  /\ aiSocket (ai (speechClosed s)) = (fun _ => CLOSED) <$> aiSocket (ai s)
  /\ trace (speechClosed s) = trace s.
Proof. destruct s. done. Qed.

Lemma closed_socket_stays (ow : bool) (sock : option ReadyState) :
  let sock' := (fun _ => CLOSED) <$> (if ow then closeSocket <$> sock else sock) in
  sock' = None \/ sock' = Some CLOSED.
Proof. destruct ow, sock; cbn; auto. Qed.

Lemma closing_closed_socket (ow : bool) (sock : option ReadyState) :
  let sock' := (fun _ => CLOSED) <$> sock in
  let sock'' := if ow then closeSocket <$> sock' else sock' in
  sock'' = None \/ sock'' = Some CLOSED.
Proof. destruct ow, sock; cbn; auto. Qed.

(** C8. Whichever leg of a session closes first, once both have closed
    the handler of the closed telephony socket has run once and the
    session is torn down: both sockets are closed, both aggregation timers
    are cancelled, the audio buffers, the pending table and the handled
    set are empty, and the socket is off the table of its address.  Either
    order calls [close()] on the speech-AI socket the same number of
    times, once if the session still held it.  The close of the speech-AI
    leg by itself runs no cleanup, and running the cleanup again on its
    own result changes nothing. *)
Theorem C8_teardown_either_order (g : Global) (s : Session) :
  tornDown (telephonyFirst lowerTrim env (g, s)).2
  /\ tornDown (speechFirst lowerTrim env (g, s)).2
  /\ (telephonyFirst lowerTrim env (g, s)).1 = (speechFirst lowerTrim env (g, s)).1
  /\ aiCloseCalls (trace (telephonyFirst lowerTrim env (g, s)).2)
     = (aiCloseCalls (trace s) + (if openaiWs (ai s) then 1 else 0))%nat
  /\ aiCloseCalls (trace (speechFirst lowerTrim env (g, s)).2)
     = (aiCloseCalls (trace s) + (if openaiWs (ai s) then 1 else 0))%nat
  /\ onOpenAIClose s = s
  /\ (forall gs : Global * Session,
        onTwilioClose (onTwilioClose gs) = onTwilioClose gs).
Proof.
  pose proof (onTwilioClose_quiet g (telephonyClosed s)) as (Hq1 & Hw1 & Ha1 & Hg1).
  pose proof (onTwilioClose_quiet g (telephonyClosed (speechClosed s)))
    as (Hq2 & Hw2 & Ha2 & Hg2).
  pose proof (onTwilioClose_closes g (telephonyClosed s)) as Hc1.
  pose proof (onTwilioClose_closes g (telephonyClosed (speechClosed s))) as Hc2.
  destruct (closed_ws s) as (Ews & Eow & Esock & Etr & Eow1 & Esock1 & Etr1 & Ers & Eip & Eid).
  rewrite Ews in Hw2, Hg2. rewrite Eow, Esock in Ha2. rewrite Etr, Eow in Hc2.
  rewrite Eow1, Esock1 in Ha1. rewrite Etr1, Eow1 in Hc1.
  rewrite speechFirst_unfold.
  destruct (onTwilioClose (g, telephonyClosed s)) as [g1 s1] eqn:E1.
  destruct (onTwilioClose (g, telephonyClosed (speechClosed s))) as [g2 s2] eqn:E2.
  rewrite (telephonyFirst_eq g s g1 s1 E1).
  change ((g1, s1).1) with g1 in *. change ((g1, s1).2) with s1 in *.
  change ((g2, s2).1) with g2 in *. change ((g2, s2).2) with s2 in *.
  change ((g1, speechClosed s1).1) with g1.
  change ((g1, speechClosed s1).2) with (speechClosed s1).
  destruct (speechClosed_fields s1) as (Hq & Hw & Ha & Ht).
  split; [|split; [|split; [|split; [|split; [|split]]]]].
  - apply tornDown_of_quiet.
    + apply Hq, Hq1.
    + by rewrite Hw, Hw1, Ers.
    + rewrite Ha, Ha1. apply closed_socket_stays.
  - apply tornDown_of_quiet; [exact Hq2 | by rewrite Hw2, Ers |].
    rewrite Ha2. apply closing_closed_socket.
  - by rewrite Hg1, Hg2.
  - rewrite Ht. exact Hc1.
  - exact Hc2.
  - reflexivity.
  - apply onTwilioClose_idem.
Qed.

End EitherOrder.

End TeardownFacts.

(** ** Theorems: the boundary of the tool executor *)

Module ExecutorFacts.
Import Bridge Executor ExecutorSpec.

Section Boundary.

Variable postJson : Endpoint -> JSON -> Outcome JSON.
Variable dateNow : Z.
Variable toStr : JSON -> Outcome string.
Variable toLowerCase : string -> string.
Variable toNumber : option JSON -> option Q.
Variable dateParse : option JSON -> option Q.
Variable toISOString : Q -> Outcome string.
Variable numToString : Z -> string.
Variable JSON_parse : string -> option JSON.
Variable JSON_stringify : JSON -> string.
Variable inferTimeZone : option JSON -> string -> string.
Variable parseTimeOfDay : string -> option (Z * Z).
Variable normalizeEmailAddress : option JSON -> string.
Variable zonedStartIso : Z -> Z * Z -> string -> Outcome string.

Lemma logTool_returns payload : logTool postJson payload = Returns tt.
Proof. unfold logTool. by destruct (postJson ToolLog payload). Qed.

Lemma toolResult_returns sessionId agentName fnName args attempt :
  toolResult postJson sessionId agentName fnName args attempt
  = Returns (settled attempt).
Proof.
  unfold toolResult. destruct attempt as [value|err]; cbn.
  - by rewrite logTool_returns.
  - by rewrite logTool_returns.
Qed.

(** A name that is none of the tools falls through every test. *)
Lemma executeTool_unknown name toolArgs mem :
  name ∉ knownTools ->
  executeTool postJson dateNow toStr toLowerCase toNumber dateParse
              toISOString numToString inferTimeZone parseTimeOfDay
              normalizeEmailAddress zonedStartIso name toolArgs mem
  = (mem, Throws (newError ("Unknown tool: " +:+ name))).
Proof.
  intros Hunknown. unfold executeTool.
  repeat match goal with
         | |- context [String.eqb name ?tool] =>
             destruct (String.eqb_spec name tool) as [->|_];
             [exfalso; apply Hunknown; apply list_elem_of_In; cbn; tauto|]
         end.
  reflexivity.
Qed.

Lemma sendToOpenAI_keeps ev s :
  ws (sendToOpenAI ev s) = ws s /\ ai (sendToOpenAI ev s) = ai s
  /\ (trace (sendToOpenAI ev s) = trace s
      \/ trace (sendToOpenAI ev s) = trace s ++ [OpenAISend ev]).
Proof. unfold sendToOpenAI. destruct (_ && _); cbn; auto. Qed.

(** C9. Whatever the tool name and the argument string, the tail of
    [maybeHandleToolCall] returns: nothing thrown by the tool or by the
    log route escapes it.  Its result is what [executeTool] returned or,
    if [executeTool] threw, the object [{ error: message }]; for a name
    that is no tool, the message is [Unknown tool: name].  In both cases
    the output item for the call, carrying the result as text, is handed
    to [sendToOpenAI], which writes it to the speech-AI leg if that leg
    is open; the sockets of the session are left as they were. *)
Theorem C9_tool_errors_stay_inside
    (callId fnName argsStr : string) (mem : CallMemory) (s : Session) :
  let attempt :=
    attemptOf postJson dateNow toStr toLowerCase toNumber dateParse
              toISOString numToString JSON_parse inferTimeZone parseTimeOfDay
              normalizeEmailAddress zonedStartIso fnName argsStr mem in
  let result := settled attempt in
  let output := function_call_output callId (JSON_stringify result) in
  (completeToolCall postJson dateNow toStr toLowerCase toNumber dateParse
                    toISOString numToString JSON_parse JSON_stringify
                    inferTimeZone parseTimeOfDay normalizeEmailAddress
                    zonedStartIso callId fnName argsStr mem s).2
  = Returns (sendToOpenAI output s)
  /\ (forall err : JsError,
        attempt = Throws err ->
        result = JObj [("error", JStr (errorText err))])
  /\ (fnName ∉ knownTools ->
      result = JObj [("error", JStr ("Unknown tool: " +:+ fnName))])
  /\ (openaiWs (ai s) = true -> aiSocket (ai s) = Some OPEN ->
      trace (sendToOpenAI output s) = trace s ++ [OpenAISend output])
  /\ ws (sendToOpenAI output s) = ws s
  /\ ai (sendToOpenAI output s) = ai s.
Proof.
  intros attempt result output. subst attempt result output. unfold attemptOf.
  split; [|split; [|split; [|split]]].
  - unfold completeToolCall.
    destruct (executeTool _ _ _ _ _ _ _ _ _ _ _ _ _ _ _) as [mem' attempt].
    cbn [snd]. unfold mbind, outcome_bind.
    rewrite toolResult_returns. reflexivity.
  - intros err ->. reflexivity.
  - intros Hunknown. rewrite executeTool_unknown by exact Hunknown.
    reflexivity.
  - intros Hvar Hsock. unfold sendToOpenAI. rewrite Hvar, Hsock. reflexivity.
  - split; apply sendToOpenAI_keeps.
Qed.

End Boundary.

(** *** A concrete run *)

Lemma C9_tool_errors_stay_inside_witness :
  settled (attemptOf noRoute 0 (fun _ => Returns "x") (fun t => t) (fun _ => None)
                     (fun _ => None) (fun _ => Returns "x") (fun _ => "0")
                     (fun _ => None) (fun _ _ => "UTC") (fun _ => None)
                     (fun _ => "a@b.co") (fun _ _ _ => Returns "x")
                     "open_pod_bay_doors" "{}" newCallMemory)
  = JObj [("error", JStr "Unknown tool: open_pod_bay_doors")].
Proof.
  refine (proj1 (proj2 (proj2
            (C9_tool_errors_stay_inside noRoute 0 (fun _ => Returns "x") (fun t => t)
               (fun _ => None) (fun _ => None) (fun _ => Returns "x")
               (fun _ => "0") (fun _ => None) (fun _ => "x")
               (fun _ _ => "UTC") (fun _ => None) (fun _ => "a@b.co")
               (fun _ _ _ => Returns "x")
               "call_1" "open_pod_bay_doors" "{}" newCallMemory
               (newSession (mkTwilioSocket 1 OPEN 0 "198.51.100.4") "assistant")))) _).
  apply (bool_decide_unpack _). vm_compute. exact I.
Defined.

End ExecutorFacts.

(** ** Theorems: the rate limiter beyond one address and one window *)

Module RateGateMore.
Import RateGate Housekeeping RateGateFacts.

Lemma checkRateLimit_rateStep now ip store :
  checkRateLimit now ip store
  = (<[ip := (rateStep now (store !! ip)).1]> store,
     (rateStep now (store !! ip)).2).
Proof.
  unfold checkRateLimit, rateStep.
  destruct (store !! ip) as [[c w b]|]; cbn [default from_option]; unfold id;
    cbn [windowStart].
  - destruct (RATE_LIMIT_WINDOW_MS <? now - w); cbn [blocked count windowStart].
    + destruct (RATE_LIMIT_CIRCUIT_BREAKER <? 0 + 1); [done|].
      destruct (RATE_LIMIT_MAX_REQUESTS <? 0 + 1); done.
    + destruct b; [done|].
      destruct (RATE_LIMIT_CIRCUIT_BREAKER <? c + 1); [done|].
      destruct (RATE_LIMIT_MAX_REQUESTS <? c + 1); done.
  - destruct (RATE_LIMIT_WINDOW_MS <? now - now); cbn [blocked count windowStart];
      (destruct (RATE_LIMIT_CIRCUIT_BREAKER <? 0 + 1); [done|]);
      destruct (RATE_LIMIT_MAX_REQUESTS <? 0 + 1); done.
Qed.

Lemma checkRateLimit_other now ip ip' store :
  ip <> ip' -> (checkRateLimit now ip store).1 !! ip' = store !! ip'.
Proof.
  intros Hne. rewrite checkRateLimit_rateStep. cbn [fst].
  by rewrite lookup_insert_ne.
Qed.

Lemma timesOf_cons ip a t (rest : list (string * Z)) :
  timesOf ip ((a, t) :: rest)
  = if String.eqb a ip then t :: timesOf ip rest else timesOf ip rest.
Proof. unfold timesOf. simpl. by destruct (String.eqb a ip). Qed.

Lemma verdictsOf_cons ip a r (rest : list (string * RateResult)) :
  verdictsOf ip ((a, r) :: rest)
  = if String.eqb a ip then r :: verdictsOf ip rest else verdictsOf ip rest.
Proof. unfold verdictsOf. simpl. by destruct (String.eqb a ip). Qed.

Lemma runRequests_local ip (reqs : list (string * Z)) :
  forall store1 store2 : gmap string RateEntry,
    store1 !! ip = store2 !! ip ->
    verdictsOf ip (runRequests reqs store1).2
    = (runChecks ip (timesOf ip reqs) store2).2.
Proof.
  induction reqs as [|[a t] rest IH]; intros store1 store2 Hagree; [done|].
  cbn [runRequests]. rewrite (checkRateLimit_rateStep t a store1).
  specialize (IH (<[a := (rateStep t (store1 !! a)).1]> store1)).
  destruct (runRequests rest _) as [s2 rs] eqn:Erun. cbn [snd] in *.
  rewrite verdictsOf_cons, timesOf_cons.
  destruct (String.eqb a ip) eqn:Heq.
  - apply String.eqb_eq in Heq. subst a.
    cbn [runChecks]. rewrite (checkRateLimit_rateStep t ip store2).
    specialize (IH (<[ip := (rateStep t (store2 !! ip)).1]> store2)).
    destruct (runChecks ip _ _) as [s3 vs] eqn:Echk. cbn [snd] in *.
    rewrite Hagree. f_equal. apply IH.
    by rewrite !lookup_insert_eq, Hagree.
  - apply String.eqb_neq in Heq. apply IH. by rewrite lookup_insert_ne.
Qed.

(** X1. The addresses do not share a limit: in any interleaving of
    admission checks of several addresses, the answers an address gets
    are those it would get if its own checks were the only ones. *)
Theorem rate_limit_is_per_address
    (ip : string) (reqs : list (string * Z)) (store : gmap string RateEntry) :
  verdictsOf ip (runRequests reqs store).2
  = (runChecks ip (timesOf ip reqs) store).2.
Proof. by apply runRequests_local. Qed.

Lemma verdicts_lookup (k : Z) (n i : nat) :
  (i < n)%nat -> verdicts k n !! i = Some (verdict (k + Z.of_nat i + 1)).
Proof.
  revert k i. induction n as [|n IH]; intros k i Hi; [lia|].
  destruct i as [|i]; cbn [verdicts].
  - cbn. do 2 f_equal. lia.
  - cbn [lookup list_lookup]. rewrite IH by lia. do 2 f_equal. lia.
Qed.

Lemma verdicts_length (k : Z) (n : nat) : length (verdicts k n) = n.
Proof. revert k. induction n as [|n IH]; intros k; cbn; [done|]. by rewrite IH. Qed.

Lemma verdict_cases (k : Z) :
  (verdict k = Allowed <-> k <= RATE_LIMIT_MAX_REQUESTS)
  /\ (verdict k = Rejected rate_limit
      <-> RATE_LIMIT_MAX_REQUESTS < k <= RATE_LIMIT_CIRCUIT_BREAKER)
  /\ (verdict k = Rejected circuit_breaker <-> RATE_LIMIT_CIRCUIT_BREAKER < k).
Proof.
  unfold verdict, RATE_LIMIT_MAX_REQUESTS, RATE_LIMIT_CIRCUIT_BREAKER.
  destruct (120 <? k) eqn:E1; [apply Z.ltb_lt in E1 | apply Z.ltb_ge in E1].
  - repeat split; intros; try discriminate; try lia; done.
  - destruct (60 <? k) eqn:E2; [apply Z.ltb_lt in E2 | apply Z.ltb_ge in E2];
      repeat split; intros; try discriminate; try lia; done.
Qed.

(** X2. Within one window the answer to a check depends only on its
    position: whatever the number of checks an address makes within 60 s
    of the check that opened the window, the check number [i + 1] is
    allowed exactly when [i + 1 <= 60], refused with [rate_limit] exactly
    when [60 < i + 1 <= 120], and refused with [circuit_breaker] exactly
    when [120 < i + 1]; every check gets an answer. *)
Theorem rate_limit_answer_by_position
    (ip : string) (store : gmap string RateEntry) (t1 : Z) (later : list Z) :
  windowClosed t1 ip store ->
  Forall (fun now => now - t1 <= RATE_LIMIT_WINDOW_MS) later ->
  let answers := (runChecks ip (t1 :: later) store).2 in
  length answers = S (length later)
  /\ forall (i : nat) (r : RateResult),
       answers !! i = Some r ->
       (r = Allowed <-> (i < 60)%nat)
       /\ (r = Rejected rate_limit <-> (60 <= i < 120)%nat)
       /\ (r = Rejected circuit_breaker <-> (120 <= i)%nat).
Proof.
  intros Hclosed Hall answers. subst answers.
  cbn [runChecks]. rewrite (checkRateLimit_opens _ _ _ Hclosed).
  destruct (runChecks_in_window ip t1 later (<[ip := entryAfter 1 t1]> store) 1)
    as (s1 & Hrun & _); [apply lookup_insert_eq | lia | exact Hall |].
  rewrite Hrun. cbn [snd]. split.
  - cbn [length]. by rewrite verdicts_length.
  - intros i r Hi.
    assert (Hr : r = verdict (Z.of_nat i + 1)).
    { destruct i as [|i]; cbn in Hi.
      - by injection Hi as <-.
      - assert (Hlt : (i < length later)%nat).
        { apply lookup_lt_Some in Hi. by rewrite verdicts_length in Hi. }
        rewrite verdicts_lookup in Hi by exact Hlt.
        injection Hi as <-. f_equal. lia. }
    subst r. destruct (verdict_cases (Z.of_nat i + 1)) as (Ha & Hr & Hc).
    unfold RATE_LIMIT_MAX_REQUESTS, RATE_LIMIT_CIRCUIT_BREAKER in *.
    rewrite Ha, Hr, Hc. lia.
Qed.

Lemma rate_limit_answer_by_position_witness :
  (runChecks "10.0.0.7" (5000 :: [5001; 5002]) ∅).2 !! 2%nat = Some Allowed.
Proof.
  destruct (rate_limit_answer_by_position "10.0.0.7" ∅ 5000 [5001; 5002])
    as (_ & Hpos).
  - exact I.
  - repeat constructor; vm_compute; discriminate.
  - destruct ((runChecks "10.0.0.7" (5000 :: [5001; 5002]) ∅).2 !! 2%nat)
      as [r|] eqn:E; [|vm_compute in E; discriminate].
    destruct (Hpos 2%nat r E) as (Ha & _). f_equal. apply Ha. lia.
Defined.

(** *** The sweep *)

Lemma rateStep_swept now now' (store : gmap string RateEntry) ip :
  now <= now' ->
  rateStep now' (sweepRateLimits now store !! ip) = rateStep now' (store !! ip).
Proof.
  intros Hle. unfold sweepRateLimits.
  destruct (store !! ip) as [e|] eqn:E.
  - destruct (decide (RATE_LIMIT_WINDOW_MS * 2 < now - windowStart e)) as [Hold|Hkeep].
    + assert (Hgone : filter (fun kv : string * RateEntry =>
                        ~ (RATE_LIMIT_WINDOW_MS * 2 < now - windowStart kv.2)) store
                      !! ip = None).
      { apply map_lookup_filter_None. right. intros e' He'.
        rewrite E in He'. injection He' as <-. cbn. tauto. }
      rewrite Hgone. unfold rateStep. cbn [default from_option]. unfold id.
      cbn [windowStart].
      unfold RATE_LIMIT_WINDOW_MS in *.
      assert (H1 : (60000 <? now' - now') = false) by (apply Z.ltb_ge; lia).
      assert (H2 : (60000 <? now' - windowStart e) = true) by (apply Z.ltb_lt; lia).
      by rewrite H1, H2.
    + assert (Hkept : filter (fun kv : string * RateEntry =>
                        ~ (RATE_LIMIT_WINDOW_MS * 2 < now - windowStart kv.2)) store
                      !! ip = Some e).
      { apply map_lookup_filter_Some. split; [exact E | exact Hkeep]. }
      by rewrite Hkept.
  - assert (Hnone : filter (fun kv : string * RateEntry =>
                      ~ (RATE_LIMIT_WINDOW_MS * 2 < now - windowStart kv.2)) store
                    !! ip = None).
    { apply map_lookup_filter_None. by left. }
    by rewrite Hnone.
Qed.

Lemma runChecks_agree ip (times : list Z) :
  forall store1 store2 : gmap string RateEntry,
    store1 !! ip = store2 !! ip ->
    (runChecks ip times store1).2 = (runChecks ip times store2).2.
Proof.
  induction times as [|t rest IH]; intros store1 store2 Hagree; [done|].
  cbn [runChecks]. rewrite !checkRateLimit_rateStep.
  specialize (IH (<[ip := (rateStep t (store1 !! ip)).1]> store1)
                 (<[ip := (rateStep t (store2 !! ip)).1]> store2)).
  destruct (runChecks ip rest (<[ip := _]> store1)) as [s1 r1].
  destruct (runChecks ip rest (<[ip := _]> store2)) as [s2 r2].
  cbn [snd] in *. rewrite Hagree. f_equal. apply IH.
  by rewrite !lookup_insert_eq, Hagree.
Qed.

(** X3. The periodic sweep of the rate-limit table cannot be told from
    the answers: the checks an address makes after a sweep are answered
    as if the sweep had not run.  The sweep also keeps every entry whose
    window began at most two windows ago. *)
Theorem rate_limit_sweep_is_invisible
    (now : Z) (store : gmap string RateEntry) (ip : string)
    (t : Z) (later : list Z) :
  now <= t ->
  (runChecks ip (t :: later) (sweepRateLimits now store)).2
  = (runChecks ip (t :: later) store).2
  /\ (forall e : RateEntry,
        store !! ip = Some e ->
        now - windowStart e <= RATE_LIMIT_WINDOW_MS * 2 ->
        sweepRateLimits now store !! ip = Some e).
Proof.
  intros Hle. split.
  - cbn [runChecks]. rewrite !checkRateLimit_rateStep.
    rewrite (rateStep_swept now t store ip Hle).
    pose proof (runChecks_agree ip later
                  (<[ip := (rateStep t (store !! ip)).1]> (sweepRateLimits now store))
                  (<[ip := (rateStep t (store !! ip)).1]> store)) as Hrest.
    destruct (runChecks ip later (<[ip := _]> (sweepRateLimits now store))) as [s1 r1].
    destruct (runChecks ip later (<[ip := _]> store)) as [s2 r2].
    cbn [snd] in *. f_equal. apply Hrest. by rewrite !lookup_insert_eq.
  - intros e He Hfresh. unfold sweepRateLimits.
    apply map_lookup_filter_Some. split; [exact He|]. cbn. lia.
Qed.

Lemma rate_limit_sweep_is_invisible_witness :
  (runChecks "10.0.0.7" (400000 :: [400001])
             (sweepRateLimits 300000 (<["10.0.0.7" := mkRateEntry 121 1000 true]> ∅))).2
  = (runChecks "10.0.0.7" (400000 :: [400001])
               (<["10.0.0.7" := mkRateEntry 121 1000 true]> ∅)).2.
Proof.
  refine (proj1 (rate_limit_sweep_is_invisible 300000
                   (<["10.0.0.7" := mkRateEntry 121 1000 true]> ∅)
                   "10.0.0.7" 400000 [400001] _)).
  vm_compute. discriminate.
Defined.

End RateGateMore.

(** ** Theorems: cooldowns and the table of connections *)

Module AdmissionMore.
Import Admission Bridge Housekeeping AdmissionSpec AdmissionRuns AdmissionFacts.
Import UpgradeListener.

Lemma runAttempts_locked expected ip (attempts : list Attempt) :
  forall (g : Global) (prev : Z),
    ipRejectionCooldowns g !! ip = Some prev ->
    prev <> 0 ->
    paced prev attempts ->
    (runAttempts expected ip attempts g).2
    = replicate (length attempts) SocketDestroyed
    /\ wsConnectionsByIp (runAttempts expected ip attempts g).1
       = wsConnectionsByIp g
    /\ metricsWsRejections (runAttempts expected ip attempts g).1
       = metricsWsRejections g + Z.of_nat (length attempts).
Proof.
  induction attempts as [|a rest IH]; intros g prev Hstamp Hprev Hpaced.
  - cbn. split; [done|]. split; [done|lia].
  - destruct Hpaced as (Hnow & Hsoon & Hrest).
    cbn [runAttempts].
    rewrite (onUpgrade_during_ip_cooldown expected (at_now a)
               (mkUpgradeRequest streamPath (at_token a) None ip) (at_id a) g prev)
      by done.
    cbn [clientIp].
    destruct (IH (trackRejection (at_now a) ip g) (at_now a)) as (Hout & Htab & Hcount);
      [apply trackRejection_cooldown | exact Hnow | exact Hrest |].
    destruct (runAttempts expected ip rest _) as [g2 outcomes].
    cbn [fst snd length replicate] in *.
    rewrite Hout, Htab, Hcount. cbn. split; [done|]. split; [done|lia].
Qed.

(** X4. A peer that retries too fast stays out.  Once an address has
    been rejected, upgrade attempts on the stream path that each come
    less than 30 s after the previous one are all refused, whatever
    tokens they carry, the right one included: every refusal restarts the
    cooldown.  None of them is registered as a connection, and each one
    is counted as a rejection. *)
Theorem retry_storm_stays_locked_out
    (expected : option string) (ip : string) (attempts : list Attempt)
    (g : Global) (rejectedAt : Z) :
  ipRejectionCooldowns g !! ip = Some rejectedAt ->
  rejectedAt <> 0 ->
  paced rejectedAt attempts ->
  (runAttempts expected ip attempts g).2
  = replicate (length attempts) SocketDestroyed
  /\ wsConnectionsByIp (runAttempts expected ip attempts g).1
     = wsConnectionsByIp g
  /\ metricsWsRejections (runAttempts expected ip attempts g).1
     = metricsWsRejections g + Z.of_nat (length attempts).
Proof. apply runAttempts_locked. Qed.

Lemma retry_storm_stays_locked_out_witness :
  (runAttempts (Some "s3cret") caller
     [mkAttempt 20000 (Some "s3cret") 2; mkAttempt 45000 (Some "s3cret") 3;
      mkAttempt 70000 (Some "s3cret") 4]
     (trackRejection 1000 caller emptyGlobal)).2
  = [SocketDestroyed; SocketDestroyed; SocketDestroyed].
Proof.
  refine (proj1 (retry_storm_stays_locked_out (Some "s3cret") caller
                   [mkAttempt 20000 (Some "s3cret") 2;
                    mkAttempt 45000 (Some "s3cret") 3;
                    mkAttempt 70000 (Some "s3cret") 4]
                   (trackRejection 1000 caller emptyGlobal) 1000 _ _ _)).
  - reflexivity.
  - discriminate.
  - cbn. repeat split; (discriminate || reflexivity).
Defined.

(** *** The sweep of the cooldown tables *)

Lemma stamp_swept (limit now now' : Z) (table : gmap string Z) (key : string) :
  0 <= limit ->
  now <= now' ->
  truthyNum (filter (fun kv : string * Z => ~ (limit * 2 < now - kv.2)) table !! key)
  && (now' - default 0 (filter (fun kv : string * Z => ~ (limit * 2 < now - kv.2)) table !! key)
      <? limit)
  = truthyNum (table !! key) && (now' - default 0 (table !! key) <? limit)
  /\ (truthyNum (table !! key) && (now' - default 0 (table !! key) <? limit) = true ->
      filter (fun kv : string * Z => ~ (limit * 2 < now - kv.2)) table !! key
      = table !! key).
Proof.
  intros Hlimit Hle.
  destruct (table !! key) as [t|] eqn:E.
  - destruct (decide (limit * 2 < now - t)) as [Hold|Hkeep].
    + assert (Hgone : filter (fun kv : string * Z => ~ (limit * 2 < now - kv.2)) table
                      !! key = None).
      { apply map_lookup_filter_None. right. intros t' Ht'.
        rewrite E in Ht'. injection Ht' as <-. cbn. tauto. }
      rewrite Hgone. cbn [truthyNum default from_option andb]. unfold id.
      assert (Hlate : (now' - t <? limit) = false) by (apply Z.ltb_ge; lia).
      rewrite Hlate, andb_false_r. split; [done|discriminate].
    + assert (Hkept : filter (fun kv : string * Z => ~ (limit * 2 < now - kv.2)) table
                      !! key = Some t).
      { apply map_lookup_filter_Some. split; [exact E | exact Hkeep]. }
      by rewrite Hkept.
  - assert (Hnone : filter (fun kv : string * Z => ~ (limit * 2 < now - kv.2)) table
                    !! key = None).
    { apply map_lookup_filter_None. by left. }
    by rewrite Hnone.
Qed.

(** X5. The periodic sweep of the cooldown tables only deletes stamps
    that no longer block anything: a cooldown check made after a sweep,
    for an address alone or for an address and a stream, gives the same
    answer, wait time included, as if the sweep had not run, and so does
    the upgrade handler. *)
Theorem cooldown_sweep_is_invisible
    (now now' : Z) (g : Global) (ip : string) (streamSid : option string)
    (expected : option string) (req : UpgradeRequest) (id : nat) :
  now <= now' ->
  checkReconnectCooldown now' ip streamSid (sweepCooldowns now g)
  = checkReconnectCooldown now' ip streamSid g
  /\ (onUpgrade expected now' req id (sweepCooldowns now g)).2
     = (onUpgrade expected now' req id g).2.
Proof.
  intros Hle.
  assert (Hcheck : forall a sid,
             checkReconnectCooldown now' a sid (sweepCooldowns now g)
             = checkReconnectCooldown now' a sid g).
  { intros a sid. unfold checkReconnectCooldown, sweepCooldowns.
    cbn [ipRejectionCooldowns reconnectCooldowns].
    destruct (stamp_swept WS_REJECTED_COOLDOWN_MS now now' (ipRejectionCooldowns g) a)
      as (Hip & Hipkept); [by vm_compute | exact Hle |].
    rewrite Hip.
    destruct (truthyNum (ipRejectionCooldowns g !! a)
              && (now' - default 0 (ipRejectionCooldowns g !! a) <? WS_REJECTED_COOLDOWN_MS))
      eqn:Eip.
    - by rewrite (Hipkept eq_refl).
    - destruct (truthy sid); [|done].
      destruct (stamp_swept RECONNECT_COOLDOWN_MS now now' (reconnectCooldowns g)
                  (streamKey a (orEmpty sid)))
        as (Hst & Hstkept); [by vm_compute | exact Hle |].
      rewrite Hst.
      destruct (truthyNum (reconnectCooldowns g !! streamKey a (orEmpty sid))
                && (now' - default 0 (reconnectCooldowns g !! streamKey a (orEmpty sid))
                    <? RECONNECT_COOLDOWN_MS)) eqn:Est; [|done].
      by rewrite (Hstkept eq_refl). }
  split; [apply Hcheck|].
  unfold onUpgrade. destruct (negb (String.eqb (pathname req) "/twilio/stream")); [done|].
  rewrite Hcheck.
  destruct (checkReconnectCooldown now' (clientIp req) None g); [|done].
  unfold canOpenWsConnection, sweepCooldowns. cbn [wsConnectionsByIp].
  destruct (negb _); [done|].
  destruct (truthy expected); [|done].
  destruct (negb (truthy (token req))); [done|].
  destruct (negb (String.eqb _ _)); done.
Qed.

Lemma cooldown_sweep_is_invisible_witness :
  checkReconnectCooldown 95000 caller None
    (sweepCooldowns 90000 (trackRejection 1000 caller emptyGlobal))
  = checkReconnectCooldown 95000 caller None (trackRejection 1000 caller emptyGlobal).
Proof.
  refine (proj1 (cooldown_sweep_is_invisible 90000 95000
                   (trackRejection 1000 caller emptyGlobal) caller None
                   None (upgradeWith None) 1 _)).
  vm_compute. discriminate.
Defined.

(** *** What an upgrade leaves behind *)

(** X6. The listener of ['upgrade'] has five ways out.  If the URL of
    the request does not parse, the listener throws: nothing is recorded
    and the socket is neither destroyed nor handed over.  Off the stream
    path the socket is destroyed and nothing is recorded.  On the stream
    path the socket is either destroyed, and then the address is stamped
    with the instant of the attempt and the rejection counted, or handed
    to [wss.handleUpgrade]: if the handshake fails nothing is recorded,
    and if it completes the socket is on the table of its address and
    nothing else has changed.  For a request that parses and a handshake
    that completes, this is the handler the admission theorems are
    about. *)
Theorem upgrade_outcomes
    (expected : option string) (now : Z) (parsed : option UpgradeRequest)
    (handshake : bool) (id : nat) (g : Global) :
  (parsed = None ->
   upgradeListener expected now parsed handshake id g = (g, ListenerThrew))
  /\ (forall req : UpgradeRequest,
        parsed = Some req ->
        (pathname req <> streamPath ->
         upgradeListener expected now parsed handshake id g
         = (g, RawSocketDestroyed))
        /\ (pathname req = streamPath ->
            upgradeListener expected now parsed handshake id g
            = (trackRejection now (clientIp req) g, RawSocketDestroyed)
            \/ (handshake = false
                /\ upgradeListener expected now parsed handshake id g
                   = (g, HandshakeFailed))
            \/ (handshake = true
                /\ upgradeListener expected now parsed handshake id g
                   = (trackWsConnection (clientIp req) id g, Connected)))
        /\ (handshake = true ->
            upgradeListener expected now parsed handshake id g
            = ((onUpgrade expected now req id g).1,
               outcomeOf (onUpgrade expected now req id g).2))).
Proof.
  split; [by intros ->|]. intros req ->. unfold upgradeListener.
  split; [|split].
  - intros Hpath.
    destruct (String.eqb_spec (pathname req) "/twilio/stream") as [Heq|_]; [|done].
    by destruct Hpath.
  - intros Hpath. unfold streamPath in Hpath. rewrite Hpath, String.eqb_refl.
    cbn [negb].
    destruct (checkReconnectCooldown now (clientIp req) None g); [|by left].
    destruct (negb (canOpenWsConnection (clientIp req) g)); [by left|].
    destruct (truthy expected).
    + destruct (negb (truthy (token req))); [by left|].
      destruct (negb (String.eqb _ _)); [by left|].
      destruct handshake; [right; right|right; left]; done.
    + destruct handshake; [right; right|right; left]; done.
  - intros ->. unfold onUpgrade.
    destruct (negb (String.eqb (pathname req) "/twilio/stream")); [done|].
    destruct (checkReconnectCooldown now (clientIp req) None g); [|done].
    destruct (negb (canOpenWsConnection (clientIp req) g)); [done|].
    destruct (truthy expected); [|done].
    destruct (negb (truthy (token req))); [done|].
    by destruct (negb (String.eqb _ _)).
Qed.

Lemma upgrade_outcomes_witness :
  upgradeListener None 1000 None true 1 emptyGlobal = (emptyGlobal, ListenerThrew).
Proof.
  refine (proj1 (upgrade_outcomes None 1000 None true 1 emptyGlobal) _).
  reflexivity.
Defined.

(** *** The limit of five sockets per address *)

Lemma capped_empty : capped emptyGlobal.
Proof. intros ip connections H. cbn in H. by rewrite lookup_empty in H. Qed.

Lemma trackRejection_capped now ip g : capped g -> capped (trackRejection now ip g).
Proof. done. Qed.

Lemma trackWsConnection_capped ip sock g :
  capped g -> canOpenWsConnection ip g = true ->
  capped (trackWsConnection ip sock g).
Proof.
  intros Hcap Hroom a connections. unfold trackWsConnection. cbn [wsConnectionsByIp].
  destruct (decide (ip = a)) as [->|Hne].
  - rewrite lookup_insert_eq. intros [= <-].
    unfold canOpenWsConnection in Hroom.
    destruct (wsConnectionsByIp g !! a) as [old|] eqn:E; cbn [default from_option].
    + apply bool_decide_eq_true in Hroom. unfold id.
      pose proof (size_union_alt old ({[sock]} : gset nat)) as Hsize.
      assert (size (({[sock]} : gset nat) ∖ old) <= 1)%nat.
      { etransitivity; [apply subseteq_size, subseteq_difference_l; reflexivity|].
        by rewrite size_singleton. }
      assert (1 <= size (old ∪ {[sock]}))%nat.
      { assert (size ({[sock]} : gset nat) <= size (old ∪ {[sock]}))%nat
          by (apply subseteq_size, union_subseteq_r).
        by rewrite size_singleton in *. }
      unfold RateGate.WS_MAX_CONNECTIONS_PER_IP in *. lia.
    + unfold id. rewrite (left_id_L ∅ (∪)), size_singleton.
      unfold RateGate.WS_MAX_CONNECTIONS_PER_IP. lia.
  - rewrite lookup_insert_ne by exact Hne. apply Hcap.
Qed.

Lemma untrackWsConnection_capped ip id g :
  capped g -> capped (untrackWsConnection ip id g).
Proof.
  intros Hcap a connections. unfold untrackWsConnection.
  destruct (wsConnectionsByIp g !! ip) as [old|] eqn:E; [|apply Hcap].
  cbn [wsConnectionsByIp]. case_bool_decide as Hsize.
  - destruct (decide (ip = a)) as [->|Hne].
    + by rewrite lookup_delete_eq.
    + rewrite lookup_delete_ne by exact Hne. apply Hcap.
  - destruct (decide (ip = a)) as [->|Hne].
    + rewrite lookup_insert_eq. intros [= <-].
      pose proof (Hcap a old E) as [_ Hmax].
      assert (size (old ∖ {[id]}) <= size old)%nat
        by (apply subseteq_size, subseteq_difference_l; reflexivity).
      lia.
    + rewrite lookup_insert_ne by exact Hne. apply Hcap.
Qed.

Lemma applyOp_capped expected g op : capped g -> capped (applyOp expected g op).
Proof.
  intros Hcap. destruct op as [now req id|ip id]; cbn [applyOp].
  - unfold onUpgrade.
    destruct (negb (String.eqb (pathname req) "/twilio/stream")); [done|].
    destruct (checkReconnectCooldown now (clientIp req) None g); [|done].
    destruct (canOpenWsConnection (clientIp req) g) eqn:Hroom; cbn [negb]; [|done].
    destruct (truthy expected).
    + destruct (negb (truthy (token req))); [done|].
      destruct (negb (String.eqb _ _)); [done|].
      by apply trackWsConnection_capped.
    + by apply trackWsConnection_capped.
  - destruct (truthyStr ip); [|done]. by apply untrackWsConnection_capped.
Qed.

(** X7. However upgrade requests and closes of sockets follow one
    another, with or without a stream secret, no address ever has more
    than five sockets on the table of connections, and the table never
    keeps an address without a socket. *)
Theorem at_most_five_sockets_per_address
    (expected : option string) (ops : list TableOp)
    (ip : string) (connections : gset nat) :
  wsConnectionsByIp (foldl (applyOp expected) emptyGlobal ops) !! ip
  = Some connections ->
  (1 <= size connections <= 5)%nat.
Proof.
  assert (Hcap : capped (foldl (applyOp expected) emptyGlobal ops)).
  { generalize capped_empty. generalize emptyGlobal.
    induction ops as [|op rest IH]; intros g Hg; [done|].
    cbn [foldl]. apply IH. by apply applyOp_capped. }
  apply Hcap.
Qed.

Lemma at_most_five_sockets_per_address_witness :
  (1 <= size ({[7%nat]} : gset nat) <= 5)%nat.
Proof.
  apply (at_most_five_sockets_per_address None
           [OpUpgrade 1000 (upgradeWith None) 7] caller {[7%nat]}).
  vm_compute. reflexivity.
Defined.

(** *** An accepted socket and its close *)

Lemma upgrade_or_not expected now req sock g :
  (onUpgrade expected now req sock g).2 = SocketDestroyed
  \/ onUpgrade expected now req sock g
     = (trackWsConnection (clientIp req) sock g, HandleUpgrade).
Proof.
  unfold onUpgrade.
  destruct (negb (String.eqb (pathname req) "/twilio/stream")); [by left|].
  destruct (checkReconnectCooldown now (clientIp req) None g); [|by left].
  destruct (negb (canOpenWsConnection (clientIp req) g)); [by left|].
  destruct (truthy expected); [|by right].
  destruct (negb (truthy (token req))); [by left|].
  destruct (negb (String.eqb _ _)); [by left | by right].
Qed.


Lemma untrack_after_track ip sock g :
  capped g ->
  (forall connections : gset nat,
      wsConnectionsByIp g !! ip = Some connections -> sock ∉ connections) ->
  untrackWsConnection ip sock (trackWsConnection ip sock g) = g.
Proof.
  intros Hcap Hfresh. unfold untrackWsConnection, trackWsConnection.
  cbn [wsConnectionsByIp reconnectCooldowns ipRejectionCooldowns
       metricsRequestCount metricsWsMessageCount metricsWsRejections
       metricsLastReset].
  rewrite lookup_insert_eq.
  destruct g as [table rc ic m1 m2 m3 m4]. cbn [wsConnectionsByIp] in *.
  destruct (table !! ip) as [old|] eqn:E; cbn [default from_option]; unfold id.
  - assert (Hback : (old ∪ {[sock]}) ∖ {[sock]} = old).
    { specialize (Hfresh old eq_refl). apply set_eq. intros x.
      rewrite elem_of_difference, elem_of_union, elem_of_singleton.
      split; [intros [[?|?] ?]; done|].
      intros Hx. split; [by left|]. by intros ->. }
    rewrite Hback. destruct (Hcap ip old E) as [Hmin _].
    rewrite bool_decide_eq_false_2 by lia.
    by rewrite insert_insert_eq, insert_id.
  - assert (Hback : ((∅ : gset nat) ∪ {[sock]}) ∖ {[sock]} = ∅).
    { apply set_eq. intros x.
      rewrite elem_of_difference, elem_of_union, elem_of_singleton.
      split; [intros [[Hx|?] ?]; [by apply not_elem_of_empty in Hx | done]|].
      intros Hx. by apply not_elem_of_empty in Hx. }
    rewrite Hback, bool_decide_eq_true_2 by apply size_empty.
    by rewrite delete_insert_eq, delete_id.
Qed.

(** X8. An accepted socket leaves no trace on the process-wide state once
    it has closed.  If an upgrade is accepted for a socket that is new on
    the table of its address, whose address is not empty, the close
    handler of the session restores the process-wide state of before the
    upgrade: the table of connections is as it was and the cooldowns have
    not moved. *)
Theorem accepted_socket_is_untracked_on_close
    (lowerTrim : string -> string) (env : Env) (now : Z)
    (req : UpgradeRequest) (sock : nat) (g g1 : Global) (s : Session) :
  capped g ->
  truthyStr (clientIp req) = true ->
  (forall connections : gset nat,
      wsConnectionsByIp g !! clientIp req = Some connections ->
      sock ∉ connections) ->
  connect lowerTrim env now req sock g = (g1, Some s) ->
  (step lowerTrim env TwilioClosed (g1, s)).1 = g.
Proof.
  intros Hcap Hip Hfresh Hconn. unfold connect in Hconn.
  destruct (upgrade_or_not (STREAM_SECRET env) now req sock g) as [Hd|Hu].
  { destruct (onUpgrade _ _ _ _ _) as [g' outcome]. cbn [snd] in Hd.
    subst outcome. discriminate. }
  rewrite Hu in Hconn. injection Hconn as <- <-. cbn [step].
  match goal with
  | |- (onTwilioClose (?g0, ?s0)).1 = _ =>
      destruct (TeardownFacts.onTwilioClose_quiet g0 s0) as (_ & _ & _ & ->)
  end.
  cbn [ws setWs newSession ws_clientIp wsId]. rewrite Hip.
  by apply untrack_after_track.
Qed.

Lemma accepted_socket_is_untracked_on_close_witness :
  (step (fun v => v) env0 TwilioClosed
        (trackWsConnection caller 1 emptyGlobal,
         newSession (mkTwilioSocket 1 OPEN 0 caller) "assistant")).1
  = emptyGlobal.
Proof.
  apply (accepted_socket_is_untracked_on_close (fun v => v) env0 1000
           (upgradeWith (Some "s3cret")) 1 emptyGlobal).
  - apply capped_empty.
  - reflexivity.
  - intros connections H. cbn in H. by rewrite lookup_empty in H.
  - reflexivity.
Defined.

End AdmissionMore.

(** ** Theorems: what a session keeps throughout a call *)

Module SessionMore.
Import Admission Bridge SessionViews.

(** *** Strings *)

Lemma append_nil_r (a : string) : a +:+ EmptyString = a.
Proof.
  induction a as [|x a IH]; [done|].
  change (String x (a +:+ EmptyString) = String x a). by rewrite IH.
Qed.

Lemma append_assoc (a b c : string) : (a +:+ b) +:+ c = a +:+ (b +:+ c).
Proof.
  induction a as [|x a IH]; [done|].
  change (String x ((a +:+ b) +:+ c) = String x (a +:+ (b +:+ c))).
  by rewrite IH.
Qed.

Lemma join_cons (x : string) (xs : list string) : join (x :: xs) = x +:+ join xs.
Proof.
  unfold join. destruct xs as [|y ys]; cbn [String.concat].
  - by rewrite append_nil_r.
  - reflexivity.
Qed.

Lemma join_snoc (xs : list string) (x : string) : join (xs ++ [x]) = join xs +:+ x.
Proof.
  induction xs as [|y ys IH].
  - cbn. reflexivity.
  - change ((y :: ys) ++ [x]) with (y :: (ys ++ [x])).
    rewrite !join_cons, IH. by rewrite append_assoc.
Qed.

(** *** How the handlers compose *)

(** Split a goal along the tests of the handlers. *)
Ltac split_tests :=
  repeat match goal with
         | |- context [if ?b then _ else _] => destruct b eqn:?
         | |- context [match ?l with [] => _ | _ :: _ => _ end] => destruct l eqn:?
         | |- context [match ?o with Some _ => _ | None => _ end] => destruct o eqn:?
         | |- context [let '(_, _) := ?p in _] => destruct p eqn:?
         end.

Lemma maybeHandleToolCall_audioView cid fnName argsStr s :
  audioView (maybeHandleToolCall cid fnName argsStr s) = audioView s.
Proof.
  unfold maybeHandleToolCall, addHandledToolCallId.
  destruct (negb (truthyStr fnName) || negb (truthy cid)); [done|].
  session_simpl. case_bool_decide; [done|].
  by destruct (evictOldest _ _).
Qed.

Lemma ensurePending_audioView cid s s' :
  ensurePending cid s = Some s' ->
  audioView s' = audioView s /\ trace s' = trace s.
Proof.
  unfold ensurePending. destruct (pendingFunctionCalls s !! cid).
  - by intros [= <-].
  - case_bool_decide; [discriminate|]. by intros [= <-].
Qed.

Lemma recordOutputItems_audioView output s :
  audioView (foldl recordOutputItem s output) = audioView s
  /\ trace (foldl recordOutputItem s output) = trace s.
Proof.
  revert s. induction output as [|item rest IH]; intros s; [done|].
  cbn [foldl]. destruct (IH (recordOutputItem s item)) as [-> ->].
  unfold recordOutputItem. by destruct (_ && _).
Qed.

(** A message of the speech-AI leg other than an audio delta leaves the
    sockets and both aggregators alone, and adds at most the start of a
    tool to the trace. *)
Lemma onOpenAIMessage_control ev s :
  (forall delta, ev <> response_audio_delta delta) ->
  audioView (onOpenAIMessage ev s) = audioView s
  /\ (trace (onOpenAIMessage ev s) = trace s
      \/ exists callId fnName argsStr,
           trace (onOpenAIMessage ev s)
           = trace s ++ [ExecuteTool callId fnName argsStr]).
Proof.
  intros Hev.
  destruct ev as [delta|cid delta|item|item|output|cid name arguments|];
    cbn [onOpenAIMessage].
  - by destruct (Hev delta).
  - destruct (truthy cid); [|by split; [|left]].
    destruct (ensurePending _ s) as [s'|] eqn:E; [|by split; [|left]].
    apply ensurePending_audioView in E as [E1 E2].
    split; [exact E1 | left; exact E2].
  - destruct (_ && _); [|by split; [|left]].
    destruct (ensurePending _ s) as [s'|] eqn:E; [|by split; [|left]].
    apply ensurePending_audioView in E as [E1 E2].
    split; [exact E1 | left; exact E2].
  - destruct (isFunctionCall item); [|by split; [|left]].
    rewrite maybeHandleToolCall_audioView.
    match goal with
    | |- context [maybeHandleToolCall ?c ?f ?a ?s1] =>
        destruct (ToolCallFacts.maybeHandleToolCall_trace c f a s1) as [H|H];
          rewrite H
    end; (split; [by destruct (truthy (item_call_id item))|]).
    + left. by destruct (truthy (item_call_id item)).
    + right. do 3 eexists. by destruct (truthy (item_call_id item)).
  - destruct (recordOutputItems_audioView output s) as [-> ->]. by split; [|left].
  - rewrite maybeHandleToolCall_audioView. split; [done|].
    destruct (ToolCallFacts.maybeHandleToolCall_trace cid (orEmpty name)
                (orEmpty arguments) s) as [H|H]; rewrite H; [by left|].
    right. by do 3 eexists.
  - by split; [|left].
Qed.

(** *** The aggregators *)

Lemma tidy_of_fields s s' :
  audioAggregationBuffer s' = audioAggregationBuffer s ->
  audioAggregationTimer s' = audioAggregationTimer s ->
  inboundAudioBuffer s' = inboundAudioBuffer s ->
  inboundAggregationTimer s' = inboundAggregationTimer s ->
  tidy s -> tidy s'.
Proof. unfold tidy. by intros -> -> -> ->. Qed.

Lemma tidy_of_audioView s s' : audioView s' = audioView s -> tidy s -> tidy s'.
Proof. unfold audioView. intros [= _ _ _ ? ? ? ?]. by apply tidy_of_fields. Qed.

Lemma sendToOpenAI_audioView ev s : audioView (sendToOpenAI ev s) = audioView s.
Proof. unfold sendToOpenAI. by destruct (_ && _). Qed.

Lemma flushAudioAggregation_fields s :
  let s' := flushAudioAggregation s in
  ws s' = ws s /\ ai s' = ai s /\ streamSid s' = streamSid s
  /\ audioAggregationBuffer s' = [] /\ audioAggregationTimer s' = false
  /\ inboundAudioBuffer s' = inboundAudioBuffer s
  /\ inboundAggregationTimer s' = inboundAggregationTimer s.
Proof.
  destruct s as [w sid ag a ab tm ib itm ids ord pend tr].
  unfold flushAudioAggregation, sendToTwilio. cbn.
  destruct ab; cbn; split_tests; cbn; done.
Qed.

Lemma tidy_outbound_cleared s s' :
  audioAggregationBuffer s' = [] ->
  audioAggregationTimer s' = false ->
  inboundAudioBuffer s' = inboundAudioBuffer s ->
  inboundAggregationTimer s' = inboundAggregationTimer s ->
  tidy s -> tidy s'.
Proof.
  unfold tidy. intros -> -> -> -> (_ & Hib & _ & Hitm).
  split; [unfold AUDIO_AGGREGATION_MAX_CHUNKS; cbn; lia|].
  split; [exact Hib|]. split; [done|exact Hitm].
Qed.

Lemma tidy_inbound_cleared s s' :
  audioAggregationBuffer s' = audioAggregationBuffer s ->
  audioAggregationTimer s' = audioAggregationTimer s ->
  inboundAudioBuffer s' = [] ->
  inboundAggregationTimer s' = false ->
  tidy s -> tidy s'.
Proof.
  unfold tidy. intros -> -> -> -> (Hab & _ & Htm & _).
  split; [exact Hab|]. split; [cbn; lia|]. split; [exact Htm|done].
Qed.

Lemma flushAudioAggregation_tidy s : tidy s -> tidy (flushAudioAggregation s).
Proof.
  pose proof (flushAudioAggregation_fields s) as (_ & _ & _ & ? & ? & ? & ?).
  by apply tidy_outbound_cleared.
Qed.

Lemma flushInboundAudio_tidy s : tidy s -> tidy (flushInboundAudio s).
Proof.
  pose proof (TeardownFacts.flushInboundAudio_fields s) as (_ & _ & ? & ? & ? & ?).
  by apply tidy_inbound_cleared.
Qed.

Lemma queueAudio_tidy payload s : tidy s -> tidy (queueAudio payload s).
Proof.
  intros Ht. unfold queueAudio.
  case_bool_decide as Hfull; [exact Ht|].
  session_simpl. case_bool_decide as Hten.
  - match goal with
    | |- tidy (flushAudioAggregation ?s1) =>
        pose proof (flushAudioAggregation_fields s1) as (_ & _ & _ & ? & ? & ? & ?)
    end.
    by apply (tidy_outbound_cleared s).
  - destruct Ht as (_ & Hib & _ & Hitm). unfold tidy. session_simpl.
    split; [lia|]. split; [exact Hib|]. split; [|exact Hitm].
    split; [intros _|done]. by destruct (audioAggregationBuffer s).
Qed.

Lemma queueInboundAudio_tidy payload s : tidy s -> tidy (queueInboundAudio payload s).
Proof.
  intros Ht. unfold queueInboundAudio.
  session_simpl. case_bool_decide as Hten.
  - match goal with
    | |- tidy (flushInboundAudio ?s1) =>
        pose proof (TeardownFacts.flushInboundAudio_fields s1) as (_ & _ & ? & ? & ? & ?)
    end.
    by apply (tidy_inbound_cleared s).
  - destruct Ht as (Hab & _ & Htm & _). unfold tidy. session_simpl.
    split; [exact Hab|]. split; [lia|]. split; [exact Htm|].
    split; [intros _|done]. by destruct (inboundAudioBuffer s).
Qed.

Lemma closeOpenAI_tidy s : tidy s -> tidy (closeOpenAI s).
Proof.
  pose proof (TeardownFacts.closeOpenAI_fields s) as (_ & _ & _ & ? & ? & ? & ?).
  by apply tidy_outbound_cleared.
Qed.

Lemma startOpenAI_fields apiKey s :
  let s' := startOpenAI apiKey s in
  ws s' = ws s /\ streamSid s' = streamSid s
  /\ audioAggregationBuffer s' = audioAggregationBuffer s
  /\ audioAggregationTimer s' = audioAggregationTimer s
  /\ inboundAudioBuffer s' = inboundAudioBuffer s
  /\ inboundAggregationTimer s' = inboundAggregationTimer s.
Proof. unfold startOpenAI. cbn zeta. split_tests; done. Qed.

Section Steps.
Variable lowerTrim : string -> string.
Variable env : Env.

(** A [start] message changes neither aggregator. *)
Lemma onStart_buffers now sid cp_agent cp_token g s :
  let s' := (onStart lowerTrim env now sid cp_agent cp_token (g, s)).2 in
  audioAggregationBuffer s' = audioAggregationBuffer s
  /\ audioAggregationTimer s' = audioAggregationTimer s
  /\ inboundAudioBuffer s' = inboundAudioBuffer s
  /\ inboundAggregationTimer s' = inboundAggregationTimer s.
Proof.
  unfold onStart. cbn zeta. session_simpl.
  destruct (_ && _ && _); cbn [snd].
  - unfold closeTwilio. by destruct (truthy cp_agent).
  - match goal with
    | |- context [startOpenAI ?k ?s1] =>
        pose proof (startOpenAI_fields k s1) as (_ & _ & -> & -> & -> & ->)
    end.
    by destruct (truthy cp_agent).
Qed.

Lemma step_tidy e g s : tidy s -> tidy (step lowerTrim env e (g, s)).2.
Proof.
  intros Ht.
  destruct e as [now msg| |amount| | |ev| | |]; cbn [step].
  - unfold onTwilioMessage.
    destruct msg as [|sid cp_agent cp_token|payload| |]; try exact Ht.
    + pose proof (onStart_buffers now sid cp_agent cp_token
                    (logMetrics now (countWsMessage g)) s) as (? & ? & ? & ?).
      by apply (tidy_of_fields s).
    + destruct (truthy payload); [|exact Ht]. by apply queueInboundAudio_tidy.
    + by apply closeOpenAI_tidy, flushInboundAudio_tidy.
  - match goal with
    | |- context [onTwilioClose (g, ?s1)] =>
        pose proof (TeardownFacts.onTwilioClose_quiet g s1)
          as ((_ & Hab & Htm & Hib & Hitm & _) & _)
    end.
    unfold tidy. rewrite Hab, Htm, Hib, Hitm.
    unfold AUDIO_AGGREGATION_MAX_CHUNKS. cbn. repeat split; (lia || done).
  - exact Ht.
  - cbn [snd]. unfold onOpenAIOpen.
    eapply tidy_of_audioView; [apply sendToOpenAI_audioView|exact Ht].
  - cbn [snd]. unfold onGreetingTimer.
    eapply tidy_of_audioView; [apply sendToOpenAI_audioView|].
    eapply tidy_of_audioView; [apply sendToOpenAI_audioView|exact Ht].
  - cbn [snd]. destruct ev as [delta|cid delta|item|item|output|cid name arguments|].
    1: { cbn [onOpenAIMessage]. destruct (truthy delta); [|exact Ht].
         by apply queueAudio_tidy. }
    all: eapply tidy_of_audioView; [|exact Ht];
      by apply onOpenAIMessage_control.
  - exact Ht.
  - cbn [snd]. destruct (audioAggregationTimer s); [|exact Ht].
    by apply flushAudioAggregation_tidy.
  - cbn [snd]. destruct (inboundAggregationTimer s); [|exact Ht].
    by apply flushInboundAudio_tidy.
Qed.

Lemma run_tidy es g s : tidy s -> tidy (run lowerTrim env es (g, s)).2.
Proof.
  revert g s. induction es as [|e es IH]; intros g s Ht; [exact Ht|].
  cbn [run foldl]. destruct (step lowerTrim env e (g, s)) as [g1 s1] eqn:E.
  apply IH. pose proof (step_tidy e g s Ht) as H. by rewrite E in H.
Qed.

End Steps.

(** *** The order of a session's life *)

Lemma twilioSends_app t t' : twilioSends (t ++ t') = twilioSends t ++ twilioSends t'.
Proof. apply omap_app. Qed.

Lemma aiSends_app t t' : aiSends (t ++ t') = aiSends t ++ aiSends t'.
Proof. apply omap_app. Qed.

Lemma aiConnects_app t t' : aiConnects (t ++ t') = (aiConnects t + aiConnects t')%nat.
Proof.
  induction t as [|e t IH]; [done|].
  destruct e; cbn [app aiConnects]; rewrite IH; done.
Qed.

Lemma follows_refl s : follows s s.
Proof.
  exists []. rewrite app_nil_r. cbn.
  repeat split; try done; try lia; tauto.
Qed.

Lemma follows_trans s1 s2 s3 : follows s1 s2 -> follows s2 s3 -> follows s1 s3.
Proof.
  intros (a1 & Ht1 & Hw1 & Hs1 & Hc1 & Hd1 & Ho1)
         (a2 & Ht2 & Hw2 & Hs2 & Hc2 & Hd2 & Ho2).
  exists (a1 ++ a2). rewrite Ht2, Ht1, app_assoc.
  rewrite twilioSends_app, aiSends_app, aiConnects_app.
  split; [done|]. split; [|split; [|split; [|split]]].
  - intros H. destruct (Hw1 H) as [H1 ->]. destruct (Hw2 H1) as [H2 ->]. done.
  - intros H. destruct (Hs1 H) as [H1 ->]. destruct (Hs2 H1) as [H2 ->]. done.
  - destruct (decide (aiConnects a1 = 1%nat)) as [E|E].
    + destruct (Hs2 (Hd1 E)) as [_ ->]. lia.
    + lia.
  - intros H. destruct (decide (aiConnects a1 = 1%nat)) as [E|E].
    + by destruct (Hs2 (Hd1 E)) as [? _].
    + apply Hd2. lia.
  - intros H. destruct (Ho1 H) as [H1 ->].
    destruct (Hs1 (proj1 H)) as [H1' _].
    destruct (Ho2 (conj H1' H1)) as [H2 ->]. done.
Qed.

(** A change that writes nothing, opens no socket and keeps the flags of
    the speech-AI leg. *)
Lemma follows_quiet s s' :
  trace s' = trace s ->
  (isOpen (readyState (ws s)) = false -> isOpen (readyState (ws s')) = false) ->
  openaiStarted (ai s') = openaiStarted (ai s) ->
  openaiWs (ai s') = openaiWs (ai s) ->
  follows s s'.
Proof.
  intros Ht Hw Hs Ho. exists []. rewrite app_nil_r, Hs, Ho. cbn.
  repeat split; try done; try lia; tauto.
Qed.

Lemma follows_sendToOpenAI ev s : follows s (sendToOpenAI ev s).
Proof.
  unfold sendToOpenAI. destruct (openaiWs (ai s)) eqn:E; cbn [andb].
  - destruct (from_option isOpen false (aiSocket (ai s))); [|apply follows_refl].
    exists [OpenAISend ev]. session_simpl. cbn. rewrite E.
    repeat split; try done; try lia. all: by intros [_ ?].
  - apply follows_refl.
Qed.

Lemma follows_sendToTwilio payload s : follows s (sendToTwilio payload s).1.
Proof.
  unfold sendToTwilio. destruct (isOpen (readyState (ws s))) eqn:E; cbn [andb].
  - destruct (truthy (streamSid s)); [|apply follows_refl].
    destruct (_ <? _); [apply follows_refl|].
    exists [TwilioSend (orEmpty (streamSid s)) payload]. session_simpl. cbn.
    rewrite E. repeat split; try done; try lia. all: tauto.
  - apply follows_refl.
Qed.

Lemma follows_flushAudioAggregation s : follows s (flushAudioAggregation s).
Proof.
  unfold flushAudioAggregation. session_simpl.
  destruct (audioAggregationBuffer s) as [|c cs]; [by apply follows_quiet|].
  eapply follows_trans; [|apply follows_sendToTwilio].
  by apply follows_quiet.
Qed.

Lemma follows_queueAudio payload s : follows s (queueAudio payload s).
Proof.
  unfold queueAudio. case_bool_decide; [apply follows_refl|].
  session_simpl. case_bool_decide; [|by apply follows_quiet].
  eapply follows_trans; [|apply follows_flushAudioAggregation].
  by apply follows_quiet.
Qed.

Lemma follows_flushInboundAudio s : follows s (flushInboundAudio s).
Proof.
  unfold flushInboundAudio. session_simpl.
  destruct (inboundAudioBuffer s) as [|c cs]; [by apply follows_quiet|].
  eapply follows_trans; [|apply follows_sendToOpenAI].
  by apply follows_quiet.
Qed.

Lemma follows_queueInboundAudio payload s : follows s (queueInboundAudio payload s).
Proof.
  unfold queueInboundAudio.
  session_simpl. case_bool_decide; [|by apply follows_quiet].
  eapply follows_trans; [|apply follows_flushInboundAudio].
  by apply follows_quiet.
Qed.

Lemma follows_closeOpenAI s : follows s (closeOpenAI s).
Proof.
  unfold closeOpenAI. cbn zeta.
  eapply follows_trans; [|by apply follows_quiet].
  eapply follows_trans; [|apply follows_flushAudioAggregation].
  destruct (openaiWs (ai s)) eqn:E; [|apply follows_refl].
  exists [OpenAIClose]. session_simpl. cbn. rewrite E.
  repeat split; try done; try lia. all: by intros [_ ?].
Qed.

Lemma follows_startOpenAI apiKey s : follows s (startOpenAI apiKey s).
Proof.
  unfold startOpenAI. destruct (openaiStarted (ai s)) eqn:E; [apply follows_refl|].
  cbn zeta. destruct (negb (truthy apiKey)).
  - exists []. session_simpl. rewrite app_nil_r, E. cbn.
    repeat split; try done; try lia. all: by intros [? _].
  - exists [OpenAIConnect]. session_simpl. rewrite E. cbn.
    repeat split; try done; try lia. all: by intros [? _].
Qed.

Lemma follows_closeTwilio s : follows s (closeTwilio s).
Proof.
  unfold closeTwilio. exists [TwilioClose]. session_simpl. cbn.
  repeat split; try done; try lia; try tauto.
  by destruct (readyState (ws s)).
Qed.

Lemma follows_of_audioView s s' :
  audioView s' = audioView s ->
  (trace s' = trace s
   \/ exists callId fnName argsStr,
        trace s' = trace s ++ [ExecuteTool callId fnName argsStr]) ->
  follows s s'.
Proof.
  unfold audioView. intros [= Hw Ha _ _ _ _ _] [Ht|(c & f & a & Ht)].
  - apply follows_quiet; [done|by rewrite Hw|by rewrite Ha..].
  - exists [ExecuteTool c f a]. rewrite Hw, Ha. cbn.
    repeat split; try done; try lia; tauto.
Qed.

Lemma follows_onOpenAIMessage ev s : follows s (onOpenAIMessage ev s).
Proof.
  destruct ev as [delta|cid delta|item|item|output|cid name arguments|].
  1: { cbn [onOpenAIMessage]. destruct (truthy delta); [|apply follows_refl].
       apply follows_queueAudio. }
  all: apply follows_of_audioView; by apply onOpenAIMessage_control.
Qed.

Section Life.
Variable lowerTrim : string -> string.
Variable env : Env.

Lemma follows_onStart now sid cp_agent cp_token g s :
  follows s (onStart lowerTrim env now sid cp_agent cp_token (g, s)).2.
Proof.
  unfold onStart. cbn zeta. session_simpl.
  destruct (_ && _ && _); cbn [snd].
  - eapply follows_trans; [|apply follows_closeTwilio].
    destruct (truthy cp_agent); by apply follows_quiet.
  - eapply follows_trans; [|apply follows_startOpenAI].
    destruct (truthy cp_agent); by apply follows_quiet.
Qed.

Lemma follows_onTwilioClose g s : follows s (onTwilioClose (g, s)).2.
Proof.
  unfold onTwilioClose. cbn [snd].
  eapply follows_trans; [apply follows_flushInboundAudio|].
  eapply follows_trans; [apply follows_closeOpenAI|].
  by apply follows_quiet.
Qed.

Lemma follows_step e g s : follows s (step lowerTrim env e (g, s)).2.
Proof.
  destruct e as [now msg| |amount| | |ev| | |]; cbn [step].
  - unfold onTwilioMessage.
    destruct msg as [|sid cp_agent cp_token|payload| |]; try apply follows_refl.
    + apply follows_onStart.
    + destruct (truthy payload); [|apply follows_refl].
      apply follows_queueInboundAudio.
    + eapply follows_trans; [apply follows_flushInboundAudio|].
      apply follows_closeOpenAI.
  - eapply follows_trans; [|apply follows_onTwilioClose].
    by apply follows_quiet.
  - by apply follows_quiet.
  - cbn [snd]. unfold onOpenAIOpen.
    eapply follows_trans; [|apply follows_sendToOpenAI].
    by apply follows_quiet.
  - cbn [snd]. unfold onGreetingTimer.
    eapply follows_trans; apply follows_sendToOpenAI.
  - apply follows_onOpenAIMessage.
  - by apply follows_quiet.
  - cbn [snd]. destruct (audioAggregationTimer s); [|apply follows_refl].
    apply follows_flushAudioAggregation.
  - cbn [snd]. destruct (inboundAggregationTimer s); [|apply follows_refl].
    apply follows_flushInboundAudio.
Qed.

Lemma follows_run es g s : follows s (run lowerTrim env es (g, s)).2.
Proof.
  revert g s. induction es as [|e es IH]; intros g s; [apply follows_refl|].
  cbn [run foldl]. destruct (step lowerTrim env e (g, s)) as [g1 s1] eqn:E.
  eapply follows_trans; [|apply IH].
  pose proof (follows_step e g s) as H. by rewrite E in H.
Qed.

End Life.

(** *** Audio in transit *)

Lemma appendedAudio_snoc t audio :
  appendedAudio (t ++ [OpenAISend (input_audio_buffer_append audio)])
  = appendedAudio t +:+ audio.
Proof.
  induction t as [|e t IH].
  - cbn [app appendedAudio]. by rewrite append_nil_r.
  - destruct e as [| | |ev| |]; cbn [app appendedAudio]; try exact IH.
    destruct ev; try exact IH. by rewrite IH, append_assoc.
Qed.

Lemma relayedAudio_snoc t sid payload :
  relayedAudio (t ++ [TwilioSend sid payload]) = relayedAudio t +:+ payload.
Proof.
  induction t as [|e t IH].
  - cbn [app relayedAudio]. by rewrite append_nil_r.
  - destruct e; cbn [app relayedAudio]; try exact IH.
    by rewrite IH, append_assoc.
Qed.

Lemma truthy_false_orEmpty (v : option string) : truthy v = false -> orEmpty v = EmptyString.
Proof. destruct v as [[|c v]|]; done. Qed.

Lemma flushInboundAudio_open s :
  openaiWs (ai s) = true -> aiSocket (ai s) = Some OPEN ->
  inboundAudio (flushInboundAudio s) = inboundAudio s.
Proof.
  intros Ho Hs. unfold inboundAudio, flushInboundAudio, sendToOpenAI.
  session_simpl. destruct (inboundAudioBuffer s) as [|c cs]; session_simpl.
  - reflexivity.
  - rewrite Ho, Hs. cbn [from_option isOpen andb]. session_simpl.
    rewrite appendedAudio_snoc. change (join []) with EmptyString.
    by rewrite append_nil_r.
Qed.

Lemma queueInboundAudio_open payload s :
  openaiWs (ai s) = true -> aiSocket (ai s) = Some OPEN ->
  inboundAudio (queueInboundAudio payload s) = inboundAudio s +:+ payload
  /\ ai (queueInboundAudio payload s) = ai s.
Proof.
  intros Ho Hs. unfold queueInboundAudio. session_simpl.
  case_bool_decide.
  - match goal with
    | |- context [flushInboundAudio ?s1] =>
        pose proof (TeardownFacts.flushInboundAudio_fields s1) as (_ & Ha & _);
        rewrite (flushInboundAudio_open s1 Ho Hs)
    end.
    split; [|exact Ha].
    unfold inboundAudio. session_simpl. by rewrite join_snoc, append_assoc.
  - split; [|done].
    unfold inboundAudio. session_simpl. by rewrite join_snoc, append_assoc.
Qed.

Lemma flushAudioAggregation_clear s :
  readyState (ws s) = OPEN -> truthy (streamSid s) = true ->
  bufferedAmount (ws s) <= BACKPRESSURE_LIMIT ->
  outboundAudio (flushAudioAggregation s) = outboundAudio s.
Proof.
  intros Hr Hsid Hb. unfold outboundAudio, flushAudioAggregation, sendToTwilio.
  session_simpl. destruct (audioAggregationBuffer s) as [|c cs]; session_simpl.
  - reflexivity.
  - rewrite Hr, Hsid. cbn [isOpen andb].
    destruct (BACKPRESSURE_LIMIT <? bufferedAmount (ws s)) eqn:E;
      [apply Z.ltb_lt in E; lia|].
    session_simpl. rewrite relayedAudio_snoc. change (join []) with EmptyString.
    by rewrite append_nil_r.
Qed.

Lemma queueAudio_clear payload s :
  readyState (ws s) = OPEN -> truthy (streamSid s) = true ->
  bufferedAmount (ws s) <= BACKPRESSURE_LIMIT ->
  (length (audioAggregationBuffer s) < MAX_AUDIO_QUEUE_SIZE)%nat ->
  let s' := queueAudio payload s in
  outboundAudio s' = outboundAudio s +:+ payload
  /\ ws s' = ws s /\ streamSid s' = streamSid s
  /\ (length (audioAggregationBuffer s') < MAX_AUDIO_QUEUE_SIZE)%nat.
Proof.
  intros Hr Hsid Hb Hlen. unfold queueAudio.
  case_bool_decide; [lia|]. session_simpl. case_bool_decide as Hten.
  - match goal with
    | |- context [flushAudioAggregation ?s1] =>
        pose proof (flushAudioAggregation_fields s1) as (Hw & _ & Hs' & Hab & _);
        rewrite (flushAudioAggregation_clear s1 Hr Hsid Hb)
    end.
    cbn zeta. rewrite Hw, Hs', Hab. split; [|split; [done|split; [done|]]].
    + unfold outboundAudio. session_simpl. by rewrite join_snoc, append_assoc.
    + unfold MAX_AUDIO_QUEUE_SIZE. cbn. lia.
  - cbn zeta. session_simpl. split; [|split; [done|split; [done|]]].
    + unfold outboundAudio. session_simpl. by rewrite join_snoc, append_assoc.
    + unfold MAX_AUDIO_QUEUE_SIZE, AUDIO_AGGREGATION_MAX_CHUNKS in *. lia.
Qed.

(** *** Properties of a whole session *)

Lemma run_cons lowerTrim env e es gs :
  run lowerTrim env (e :: es) gs = run lowerTrim env es (step lowerTrim env e gs).
Proof. reflexivity. Qed.

Lemma tidy_newSession sock agentKey : tidy (newSession sock agentKey).
Proof.
  unfold tidy, AUDIO_AGGREGATION_MAX_CHUNKS. cbn.
  repeat split; (lia || done).
Qed.

(** X9. Both aggregators flush before they hold ten chunks.  Whatever
    the two sockets and the timers do to a session after its connection,
    the outbound and the inbound buffer each hold fewer than ten chunks;
    the test of [queueAudio] against the bound of 500 chunks is therefore
    never true. *)
Theorem aggregators_hold_fewer_than_ten_chunks
    (lowerTrim : string -> string) (env : Env) (es : list SessionEvent)
    (g : Global) (sock : TwilioSocket) (agentKey : string) :
  let s := (run lowerTrim env es (g, newSession sock agentKey)).2 in
  (length (audioAggregationBuffer s) < AUDIO_AGGREGATION_MAX_CHUNKS)%nat
  /\ (length (inboundAudioBuffer s) < 10)%nat
  /\ ~ (MAX_AUDIO_QUEUE_SIZE <= length (audioAggregationBuffer s))%nat.
Proof.
  cbn zeta.
  destruct (run_tidy lowerTrim env es g _ (tidy_newSession sock agentKey))
    as (Hab & Hib & _).
  split; [exact Hab|]. split; [exact Hib|].
  unfold AUDIO_AGGREGATION_MAX_CHUNKS, MAX_AUDIO_QUEUE_SIZE in *. lia.
Qed.

(** X10. A flush timer is pending exactly when its buffer holds audio.
    Whatever happens to a session after its connection, the outbound timer
    is set if and only if the outbound buffer is not empty, and the same
    holds of the inbound timer and buffer: buffered audio always has a
    flush ahead of it, and no timer is left behind on an empty buffer. *)
Theorem flush_timer_pending_iff_audio_buffered
    (lowerTrim : string -> string) (env : Env) (es : list SessionEvent)
    (g : Global) (sock : TwilioSocket) (agentKey : string) :
  let s := (run lowerTrim env es (g, newSession sock agentKey)).2 in
  (audioAggregationTimer s = true <-> audioAggregationBuffer s <> [])
  /\ (inboundAggregationTimer s = true <-> inboundAudioBuffer s <> []).
Proof.
  cbn zeta.
  destruct (run_tidy lowerTrim env es g _ (tidy_newSession sock agentKey))
    as (_ & _ & Htm & Hitm).
  by split.
Qed.

(** X11. Inbound audio reaches the speech-AI leg complete and in order.
    While the speech-AI socket is open, over any run of media messages and
    inbound timer expiries, the audio written to the speech-AI leg followed
    by the audio still in the inbound buffer is what it was before the run
    followed by the payloads of the media messages in their order: nothing
    is lost, repeated or reordered. *)
Theorem inbound_audio_is_relayed_in_order
    (lowerTrim : string -> string) (env : Env) (es : list SessionEvent)
    (g : Global) (s : Session) :
  openaiWs (ai s) = true ->
  aiSocket (ai s) = Some OPEN ->
  Forall isInbound es ->
  inboundAudio (run lowerTrim env es (g, s)).2
  = inboundAudio s +:+ offeredInbound es.
Proof.
  intros Ho Hs Hes. revert g s Ho Hs.
  induction Hes as [|e es He _ IH]; intros g s Ho Hs.
  - cbn [run foldl snd offeredInbound]. by rewrite append_nil_r.
  - rewrite run_cons.
    destruct e as [now msg| |amount| | |ev| | |]; try destruct He.
    + destruct msg as [|sid cp_agent cp_token|payload| |]; try destruct He.
      cbn [step]. unfold onTwilioMessage. cbn [offeredInbound].
      destruct (truthy payload) eqn:Et.
      * destruct (queueInboundAudio_open (orEmpty payload) s Ho Hs) as [Hq Ha].
        rewrite IH by (by rewrite Ha). by rewrite Hq, append_assoc.
      * rewrite IH by done. by rewrite (truthy_false_orEmpty payload Et).
    + cbn [step offeredInbound]. destruct (inboundAggregationTimer s).
      * pose proof (TeardownFacts.flushInboundAudio_fields s) as (_ & Ha & _).
        rewrite IH by (by rewrite Ha). by rewrite flushInboundAudio_open.
      * by rewrite IH.
Qed.

Lemma inbound_audio_is_relayed_in_order_witness :
  inboundAudio
    (run (fun v => v) (mkEnv None None)
         [TwilioMessage 1 (media (Some "YWJj")); TwilioMessage 2 (media None);
          TwilioMessage 3 (media (Some "ZGVm")); InboundTimerFired]
         (emptyGlobal, inCall)).2
  = inboundAudio inCall +:+ "YWJjZGVm".
Proof.
  apply (inbound_audio_is_relayed_in_order (fun v => v) (mkEnv None None)
           [TwilioMessage 1 (media (Some "YWJj")); TwilioMessage 2 (media None);
            TwilioMessage 3 (media (Some "ZGVm")); InboundTimerFired]
           emptyGlobal inCall).
  - reflexivity.
  - reflexivity.
  - repeat constructor.
Defined.

(** X12. Outbound audio reaches the telephony leg complete and in order
    while the socket keeps up.  With the telephony socket open, the stream
    started and fewer than 500 chunks buffered, over any run of audio
    deltas and outbound timer expiries during which no more than 64 KiB
    are ever waiting in the socket, the audio written to the telephony leg
    followed by the audio still in the outbound buffer is what it was
    before the run followed by the deltas in their order. *)
Theorem outbound_audio_is_relayed_in_order
    (lowerTrim : string -> string) (env : Env) (es : list SessionEvent)
    (g : Global) (s : Session) :
  readyState (ws s) = OPEN ->
  truthy (streamSid s) = true ->
  bufferedAmount (ws s) <= BACKPRESSURE_LIMIT ->
  (length (audioAggregationBuffer s) < MAX_AUDIO_QUEUE_SIZE)%nat ->
  Forall isOutbound es ->
  outboundAudio (run lowerTrim env es (g, s)).2
  = outboundAudio s +:+ offeredOutbound es.
Proof.
  intros Hr Hsid Hb Hlen Hes. revert g s Hr Hsid Hb Hlen.
  induction Hes as [|e es He _ IH]; intros g s Hr Hsid Hb Hlen.
  - cbn [run foldl snd offeredOutbound]. by rewrite append_nil_r.
  - rewrite run_cons.
    destruct e as [now msg| |amount| | |ev| | |]; try (by destruct He).
    + cbn [step offeredOutbound]. by rewrite IH.
    + destruct ev as [delta|cid delta|item|item|output|cid name arguments|];
        try destruct He.
      cbn [step onOpenAIMessage offeredOutbound].
      destruct (truthy delta) eqn:Et.
      * destruct (queueAudio_clear (orEmpty delta) s Hr Hsid Hb Hlen)
          as (Hq & Hw & Hs' & Hl).
        rewrite IH by (rewrite ?Hw, ?Hs'; done).
        by rewrite Hq, append_assoc.
      * rewrite IH by done. by rewrite (truthy_false_orEmpty delta Et).
    + cbn [step offeredOutbound]. destruct (audioAggregationTimer s).
      * pose proof (flushAudioAggregation_fields s) as (Hw & _ & Hs' & Hab & _).
        rewrite IH.
        -- by rewrite flushAudioAggregation_clear.
        -- by rewrite Hw.
        -- by rewrite Hs'.
        -- by rewrite Hw.
        -- rewrite Hab. unfold MAX_AUDIO_QUEUE_SIZE. cbn. lia.
      * by rewrite IH.
Qed.

Lemma outbound_audio_is_relayed_in_order_witness :
  outboundAudio
    (run (fun v => v) (mkEnv None None)
         [AiMessage (response_audio_delta (Some "YWJj")); TwilioBuffered 4096;
          AiMessage (response_audio_delta (Some "ZGVm")); AudioTimerFired]
         (emptyGlobal, inCall)).2
  = outboundAudio inCall +:+ "YWJjZGVm".
Proof.
  apply (outbound_audio_is_relayed_in_order (fun v => v) (mkEnv None None)
           [AiMessage (response_audio_delta (Some "YWJj")); TwilioBuffered 4096;
            AiMessage (response_audio_delta (Some "ZGVm")); AudioTimerFired]
           emptyGlobal inCall).
  - reflexivity.
  - reflexivity.
  - vm_compute. discriminate.
  - apply Nat.ltb_lt. reflexivity.
  - repeat constructor. vm_compute. discriminate.
Defined.

(** X13. Nothing is written to a telephony socket that is not open.  Once
    the telephony socket of a session is closing or closed, no later event
    of either socket or of a timer makes the session write a media message
    to it, and the socket is not seen open again. *)
Theorem no_media_after_the_telephony_socket_left_open
    (lowerTrim : string -> string) (env : Env) (es : list SessionEvent)
    (g : Global) (s : Session) :
  readyState (ws s) <> OPEN ->
  let s' := (run lowerTrim env es (g, s)).2 in
  twilioSends (trace s') = twilioSends (trace s)
  /\ readyState (ws s') <> OPEN.
Proof.
  intros Hr. cbn zeta.
  destruct (follows_run lowerTrim env es g s) as (added & Ht & Hw & _).
  destruct Hw as [Hw Hsent]; [by destruct (readyState (ws s))|].
  rewrite Ht, twilioSends_app, Hsent, app_nil_r. split; [done|].
  intros E. by rewrite E in Hw.
Qed.

Lemma no_media_after_the_telephony_socket_left_open_witness :
  twilioSends
    (trace (run (fun v => v) (mkEnv None None)
                [AiMessage (response_audio_delta (Some "YWJj")); AudioTimerFired]
                (emptyGlobal, closeTwilio inCall)).2)
  = twilioSends (trace (closeTwilio inCall)).
Proof.
  refine (proj1 (no_media_after_the_telephony_socket_left_open
                   (fun v => v) (mkEnv None None)
                   [AiMessage (response_audio_delta (Some "YWJj")); AudioTimerFired]
                   emptyGlobal (closeTwilio inCall) _)).
  discriminate.
Defined.

(** X14. A session connects to the speech-AI provider at most once.
    Whatever happens to a session after its connection, and however many
    [start] messages it receives, its trace holds at most one connection
    to the provider. *)
Theorem speech_ai_is_connected_at_most_once
    (lowerTrim : string -> string) (env : Env) (es : list SessionEvent)
    (g : Global) (sock : TwilioSocket) (agentKey : string) :
  (aiConnects (trace (run lowerTrim env es (g, newSession sock agentKey)).2)
   <= 1)%nat.
Proof.
  destruct (follows_run lowerTrim env es g (newSession sock agentKey))
    as (added & Ht & _ & _ & Hc & _).
  rewrite Ht. exact Hc.
Qed.

(** X15. A speech-AI leg that was started and dropped stays dropped.
    Once [openaiStarted] is set and [openaiWs] is cleared, as after a
    [stop] message or the close of the telephony socket, no later event
    makes the session write to the speech-AI leg or connect to the
    provider again, a [start] message included. *)
Theorem dropped_speech_ai_leg_is_never_used_again
    (lowerTrim : string -> string) (env : Env) (es : list SessionEvent)
    (g : Global) (s : Session) :
  openaiStarted (ai s) = true ->
  openaiWs (ai s) = false ->
  let s' := (run lowerTrim env es (g, s)).2 in
  aiSends (trace s') = aiSends (trace s)
  /\ aiConnects (trace s') = aiConnects (trace s)
  /\ openaiWs (ai s') = false.
Proof.
  intros Hst Ho. cbn zeta.
  destruct (follows_run lowerTrim env es g s)
    as (added & Ht & _ & Hs & _ & _ & Hd).
  destruct (Hs Hst) as [_ Hc]. destruct (Hd (conj Hst Ho)) as [Ho' Hsent].
  rewrite Ht, aiSends_app, aiConnects_app, Hsent, Hc, app_nil_r.
  split; [done|]. split; [lia|done].
Qed.

Lemma dropped_speech_ai_leg_is_never_used_again_witness :
  aiSends
    (trace (run (fun v => v) (mkEnv None (Some "sk-test"))
                [TwilioMessage 5 (start (Some "MZ2") None None);
                 TwilioMessage 6 (media (Some "YWJj")); InboundTimerFired]
                (emptyGlobal, closeOpenAI inCall)).2)
  = aiSends (trace (closeOpenAI inCall)).
Proof.
  refine (proj1 (dropped_speech_ai_leg_is_never_used_again
                   (fun v => v) (mkEnv None (Some "sk-test"))
                   [TwilioMessage 5 (start (Some "MZ2") None None);
                    TwilioMessage 6 (media (Some "YWJj")); InboundTimerFired]
                   emptyGlobal (closeOpenAI inCall) _ _)); reflexivity.
Defined.

End SessionMore.

(** ** Theorems: the pending table and the handled ids of tool calls *)

Module PendingMore.
Import Bridge ToolCallSpec PendingViews.

Lemma alter_present {A} (f : A -> A) (m : gmap string A) (i : string) (x : A) :
  m !! i = Some x -> alter f i m = <[i := f x]> m.
Proof.
  intros H. apply map_eq. intros j. destruct (decide (i = j)) as [<-|Hne].
  - by rewrite lookup_alter_eq, lookup_insert_eq, H.
  - by rewrite lookup_alter_ne, lookup_insert_ne.
Qed.

(** What [ensurePending] followed by an update of the entry does to the
    table: the entry is made from the old one, or from the empty one if
    the table has room. *)
Lemma ensurePending_alter (f : PendingCall -> PendingCall) cid s :
  match ensurePending cid s with
  | Some s' =>
      alter f cid (pendingFunctionCalls s')
      = <[cid := f (entryOf cid s)]> (pendingFunctionCalls s)
      /\ (is_Some (pendingFunctionCalls s !! cid)
          \/ (size (pendingFunctionCalls s) < MAX_PENDING_FUNCTION_CALLS)%nat)
  | None =>
      pendingFunctionCalls s !! cid = None
      /\ (MAX_PENDING_FUNCTION_CALLS <= size (pendingFunctionCalls s))%nat
  end.
Proof.
  unfold ensurePending, entryOf.
  destruct (pendingFunctionCalls s !! cid) as [p|] eqn:E.
  - split; [by apply alter_present | by left].
  - case_bool_decide as Hfull; [done|]. session_simpl. cbn [default].
    split; [by rewrite alter_insert_eq | right; lia].
Qed.

Lemma size_insert_le {A} (m : gmap string A) i x :
  (size (<[i := x]> m) <= S (size m))%nat.
Proof.
  destruct (m !! i) eqn:E.
  - rewrite map_size_insert_Some by done. lia.
  - rewrite map_size_insert_None by done. lia.
Qed.

Lemma update_capped (f : PendingCall -> PendingCall) cid s :
  (size (pendingFunctionCalls s) <= MAX_PENDING_FUNCTION_CALLS)%nat ->
  (size (pendingFunctionCalls
           match ensurePending cid s with
           | Some s' => setPending (alter f cid (pendingFunctionCalls s')) s'
           | None => s
           end)
   <= MAX_PENDING_FUNCTION_CALLS)%nat.
Proof.
  intros Hcap. pose proof (ensurePending_alter f cid s) as H.
  destruct (ensurePending cid s) as [s'|]; [|exact Hcap].
  destruct H as [-> Hroom]. session_simpl.
  destruct Hroom as [[p Hp]|Hlt].
  - by rewrite map_size_insert_Some.
  - pose proof (size_insert_le (pendingFunctionCalls s) cid (f (entryOf cid s))). lia.
Qed.

Lemma update_dropped (f : PendingCall -> PendingCall) cid s :
  (MAX_PENDING_FUNCTION_CALLS <= size (pendingFunctionCalls s))%nat ->
  pendingFunctionCalls s !! cid = None ->
  match ensurePending cid s with
  | Some s' => setPending (alter f cid (pendingFunctionCalls s')) s'
  | None => s
  end = s.
Proof.
  intros Hfull Hnone. unfold ensurePending. rewrite Hnone.
  by rewrite bool_decide_eq_true_2.
Qed.

(** X16. The bound on the pending table holds for the events that stream
    a call.  An argument delta or an added output item never takes the
    table of pending calls above 50 entries, and with 50 entries in the
    table such an event for a call id that has no entry leaves the whole
    session as it is. *)
Theorem streamed_events_respect_the_pending_bound
    (s : Session) (cid delta : option string) (item : Item) :
  (size (pendingFunctionCalls s) <= MAX_PENDING_FUNCTION_CALLS)%nat ->
  let onDelta :=
    onOpenAIMessage (response_function_call_arguments_delta cid delta) s in
  let onAdded := onOpenAIMessage (response_output_item_added item) s in
  (size (pendingFunctionCalls onDelta) <= MAX_PENDING_FUNCTION_CALLS)%nat
  /\ (size (pendingFunctionCalls onAdded) <= MAX_PENDING_FUNCTION_CALLS)%nat
  /\ (size (pendingFunctionCalls s) = MAX_PENDING_FUNCTION_CALLS ->
      pendingFunctionCalls s !! orEmpty cid = None -> onDelta = s)
  /\ (size (pendingFunctionCalls s) = MAX_PENDING_FUNCTION_CALLS ->
      pendingFunctionCalls s !! orEmpty (item_call_id item) = None ->
      onAdded = s).
Proof.
  intros Hcap. cbn zeta. cbn [onOpenAIMessage].
  split; [|split; [|split]].
  - destruct (truthy cid); [|exact Hcap]. by apply update_capped.
  - destruct (_ && _); [|exact Hcap]. by apply update_capped.
  - intros Hfull Hnone. destruct (truthy cid); [|done].
    apply update_dropped; [lia|done].
  - intros Hfull Hnone. destruct (_ && _); [|done].
    apply update_dropped; [lia|done].
Qed.

Lemma delta_lookup cid delta s p :
  truthy cid = true ->
  pendingFunctionCalls s !! orEmpty cid = Some p ->
  pendingFunctionCalls
    (onOpenAIMessage (response_function_call_arguments_delta cid delta) s)
  !! orEmpty cid
  = Some (mkPendingCall (pendingName p) (pendingArguments p +:+ orEmpty delta)).
Proof.
  intros Hc Hp. cbn [onOpenAIMessage]. rewrite Hc.
  unfold ensurePending. rewrite Hp. session_simpl.
  by rewrite lookup_alter_eq, Hp.
Qed.

Lemma deltas_lookup cid deltas s p :
  truthy cid = true ->
  pendingFunctionCalls s !! orEmpty cid = Some p ->
  pendingFunctionCalls (runAi (deltaEvents cid deltas) s) !! orEmpty cid
  = Some (mkPendingCall (pendingName p)
            (pendingArguments p +:+ join (orEmpty <$> deltas))).
Proof.
  intros Hc. revert s p. induction deltas as [|d rest IH]; intros s p Hp.
  - cbn. rewrite Hp. destruct p as [n a]. cbn.
    by rewrite SessionMore.append_nil_r.
  - change (runAi (deltaEvents cid (d :: rest)) s)
      with (runAi (deltaEvents cid rest)
              (onOpenAIMessage (response_function_call_arguments_delta cid d) s)).
    rewrite (IH _ _ (delta_lookup cid d s p Hc Hp)).
    cbn [pendingName pendingArguments fmap list_fmap].
    change (list_fmap _ _ orEmpty rest) with (orEmpty <$> rest).
    by rewrite SessionMore.join_cons, SessionMore.append_assoc.
Qed.

(** X17. Argument deltas accumulate by concatenation.  For a call id that
    has an entry in the pending table, or for which the table has room, a
    run of argument deltas leaves under that id the name it had and the
    arguments it had followed by the deltas in their order; a call that
    had no entry starts from the empty name and the empty arguments. *)
Theorem argument_deltas_accumulate
    (s : Session) (cid d : option string) (deltas : list (option string)) :
  truthy cid = true ->
  is_Some (pendingFunctionCalls s !! orEmpty cid)
  \/ (size (pendingFunctionCalls s) < MAX_PENDING_FUNCTION_CALLS)%nat ->
  pendingFunctionCalls (runAi (deltaEvents cid (d :: deltas)) s) !! orEmpty cid
  = Some (mkPendingCall
            (pendingName (entryOf (orEmpty cid) s))
            (pendingArguments (entryOf (orEmpty cid) s)
             +:+ join (orEmpty <$> (d :: deltas)))).
Proof.
  intros Hc Hroom.
  change (runAi (deltaEvents cid (d :: deltas)) s)
    with (runAi (deltaEvents cid deltas)
            (onOpenAIMessage (response_function_call_arguments_delta cid d) s)).
  assert (pendingFunctionCalls
            (onOpenAIMessage (response_function_call_arguments_delta cid d) s)
          !! orEmpty cid
          = Some (mkPendingCall (pendingName (entryOf (orEmpty cid) s))
                    (pendingArguments (entryOf (orEmpty cid) s) +:+ orEmpty d)))
    as Hfirst.
  { cbn [onOpenAIMessage]. rewrite Hc.
    pose proof (ensurePending_alter
                  (fun p => mkPendingCall (pendingName p)
                              (pendingArguments p +:+ orEmpty d))
                  (orEmpty cid) s) as H.
    destruct (ensurePending (orEmpty cid) s) as [s'|].
    - destruct H as [-> _]. session_simpl. by rewrite lookup_insert_eq.
    - destruct H as [Hnone Hfull]. destruct Hroom as [[p Hp]|Hlt]; [|lia].
      by rewrite Hp in Hnone. }
  rewrite (deltas_lookup cid deltas _ _ Hc Hfirst).
  cbn [pendingName pendingArguments fmap list_fmap].
  change (list_fmap _ _ orEmpty deltas) with (orEmpty <$> deltas).
  by rewrite SessionMore.join_cons, SessionMore.append_assoc.
Qed.

Lemma argument_deltas_accumulate_witness :
  pendingFunctionCalls
    (runAi (deltaEvents (Some "call_1") [Some "{"; None; Some "}"])
           (newSession sock0 "assistant"))
  !! "call_1"
  = Some (mkPendingCall EmptyString "{}").
Proof.
  apply (argument_deltas_accumulate (newSession sock0 "assistant")
           (Some "call_1") (Some "{") [None; Some "}"]).
  - reflexivity.
  - right. apply Nat.ltb_lt. reflexivity.
Defined.

Lemma streamed_events_respect_the_pending_bound_witness :
  (size (pendingFunctionCalls
           (onOpenAIMessage
              (response_function_call_arguments_delta (Some "call_1") (Some "{"))
              (newSession sock0 "assistant")))
   <= MAX_PENDING_FUNCTION_CALLS)%nat.
Proof.
  refine (proj1 (streamed_events_respect_the_pending_bound
                   (newSession sock0 "assistant") (Some "call_1") (Some "{")
                   (mkItem "function_call" (Some "call_1") None None) _)).
  apply Nat.leb_le. reflexivity.
Defined.

Lemma recordOutputItems_pending output s :
  Forall (fun item => recorded item = true) output ->
  NoDup (callIds output) ->
  (forall cid, cid ∈ callIds output -> pendingFunctionCalls s !! cid = None) ->
  size (pendingFunctionCalls (foldl recordOutputItem s output))
  = (size (pendingFunctionCalls s) + length output)%nat.
Proof.
  intros Hrec. revert s. induction Hrec as [|item rest Hitem _ IH]; intros s Hnd Hnew.
  - cbn. lia.
  - cbn [foldl]. unfold callIds in Hnd. cbn [fmap list_fmap] in Hnd.
    apply NoDup_cons in Hnd as [Hnotin Hnd].
    rewrite IH.
    + unfold recordOutputItem. unfold recorded in Hitem. rewrite Hitem.
      session_simpl. rewrite map_size_insert_None.
      * cbn [length]. lia.
      * apply Hnew. unfold callIds. cbn [fmap list_fmap]. apply elem_of_cons. by left.
    + exact Hnd.
    + intros cid Hin. unfold recordOutputItem. unfold recorded in Hitem.
      rewrite Hitem. session_simpl. rewrite lookup_insert_ne.
      * apply Hnew. unfold callIds. cbn [fmap list_fmap]. apply elem_of_cons. by right.
      * intros <-. by apply Hnotin.
Qed.

(** X18. [response.done] records its function calls without looking at
    the bound.  Every item of a [response.done] event that is a function
    call with a call id is entered in the pending table: items with
    pairwise different ids that have no entry yet grow the table by their
    number, whatever its size was, and the event dispatches nothing. *)
Theorem response_done_records_every_function_call
    (s : Session) (output : list Item) :
  Forall (fun item => recorded item = true) output ->
  NoDup (callIds output) ->
  (forall cid, cid ∈ callIds output -> pendingFunctionCalls s !! cid = None) ->
  let s' := onOpenAIMessage (response_done output) s in
  size (pendingFunctionCalls s')
  = (size (pendingFunctionCalls s) + length output)%nat
  /\ toolView s' = toolView s.
Proof.
  intros Hrec Hnd Hnew. cbn zeta. cbn [onOpenAIMessage].
  split; [by apply recordOutputItems_pending|].
  apply ToolCallFacts.recordOutputItems_view.
Qed.

Lemma response_done_records_every_function_call_witness :
  size (pendingFunctionCalls
          (onOpenAIMessage
             (response_done
                [mkItem "function_call" (Some "call_1") (Some "lookup_customer") (Some "{}");
                 mkItem "function_call" (Some "call_2") (Some "email_send") None])
             (newSession sock0 "assistant")))
  = 2%nat.
Proof.
  refine (proj1 (response_done_records_every_function_call
                   (newSession sock0 "assistant")
                   [mkItem "function_call" (Some "call_1") (Some "lookup_customer") (Some "{}");
                    mkItem "function_call" (Some "call_2") (Some "email_send") None]
                   _ _ _)).
  - repeat constructor.
  - apply (bool_decide_unpack _). vm_compute. exact I.
  - intros cid _. apply lookup_empty.
Defined.

(** X19. The handled ids never number more than 100.  After any run of
    messages of the speech-AI leg on a fresh session, the set of handled
    call ids and the list of their order have the same size, and it is at
    most 100. *)
Theorem handled_ids_never_exceed_the_bound
    (sock : TwilioSocket) (agentKey : string) (evs : list AiEvent) :
  let s := runAi evs (newSession sock agentKey) in
  size (handledToolCallIds s) = length (handledToolCallOrder s)
  /\ (size (handledToolCallIds s) <= MAX_HANDLED_TOOL_IDS)%nat.
Proof.
  cbn zeta.
  destruct (ToolCallFacts.runAi_inv evs _ (ToolCallFacts.newSession_inv sock agentKey))
    as [Hinv _].
  pose proof (ToolCallFacts.handledInv_length _ Hinv) as Hlen.
  destruct Hinv as (Hids & Hnd & _).
  rewrite Hids, size_list_to_set by exact Hnd. split; [done|exact Hlen].
Qed.

Lemma maybeHandleToolCall_pending cid fnName argsStr s :
  truthy cid = true ->
  truthyStr fnName = true ->
  pendingFunctionCalls (maybeHandleToolCall cid fnName argsStr s)
  = delete (orEmpty cid) (pendingFunctionCalls s).
Proof.
  intros Hc Hn. unfold maybeHandleToolCall, addHandledToolCallId.
  rewrite Hc, Hn. cbn [negb orb]. session_simpl.
  case_bool_decide; [done|]. by destruct (evictOldest _ _).
Qed.

(** X20. The authoritative event of a call clears its pending entry.
    When an authoritative event, of either form, carries a call id and a
    function name, the pending table afterwards is the table of before
    without the entry of that id: what the deltas had accumulated for the
    call is dropped, and the entries of other calls are not touched. *)
Theorem authoritative_event_clears_the_pending_entry
    (s : Session) (form : AuthoritativeForm) (cid name arguments : option string) :
  truthy cid = true ->
  truthy name = true ->
  pendingFunctionCalls (onOpenAIMessage (authoritative form cid name arguments) s)
  = delete (orEmpty cid) (pendingFunctionCalls s).
Proof.
  intros Hc Hn. destruct form; cbn [authoritative onOpenAIMessage].
  - unfold isFunctionCall. cbn [item_type item_call_id item_name item_arguments].
    rewrite String.eqb_refl, Hc.
    rewrite maybeHandleToolCall_pending by done.
    session_simpl. by rewrite delete_insert_eq.
  - by apply maybeHandleToolCall_pending.
Qed.

Lemma authoritative_event_clears_the_pending_entry_witness :
  pendingFunctionCalls
    (onOpenAIMessage
       (authoritative OutputItemDone (Some "call_1") (Some "lookup_customer") (Some "{}"))
       (runAi (deltaEvents (Some "call_1") [Some "{"]) (newSession sock0 "assistant")))
  = delete "call_1"
      (pendingFunctionCalls
         (runAi (deltaEvents (Some "call_1") [Some "{"]) (newSession sock0 "assistant"))).
Proof.
  apply (authoritative_event_clears_the_pending_entry
           (runAi (deltaEvents (Some "call_1") [Some "{"]) (newSession sock0 "assistant"))
           OutputItemDone (Some "call_1") (Some "lookup_customer") (Some "{}"));
    reflexivity.
Defined.

End PendingMore.

(** ** Theorems: the tools *)

Module ExecutorMore.
Import Bridge Executor ExecutorViews.

Lemma lookupField_setField k k' v fields :
  lookupField k (setField k' v fields)
  = if String.eqb k k' then Some v else lookupField k fields.
Proof.
  induction fields as [|[k2 v2] rest IH]; cbn [setField lookupField].
  - reflexivity.
  - destruct (String.eqb_spec k' k2) as [->|Hne]; cbn [lookupField].
    + by destruct (String.eqb k k2).
    + rewrite IH. destruct (String.eqb_spec k k2) as [->|_]; [|done].
      destruct (String.eqb_spec k2 k') as [<-|_]; [done|reflexivity].
Qed.

Lemma lookupField_app k fields more :
  lookupField k (fields ++ more)
  = match lookupField k fields with
    | Some v => Some v
    | None => lookupField k more
    end.
Proof.
  induction fields as [|[k2 v2] rest IH]; cbn [app lookupField]; [done|].
  by destruct (String.eqb k k2).
Qed.

Lemma lookupField_spread k (acc spread : list (string * JSON)) :
  lookupField k (foldl (fun fields kv => setField kv.1 kv.2 fields) acc spread)
  = match lastField k spread with
    | Some v => Some v
    | None => lookupField k acc
    end.
Proof.
  unfold lastField. revert acc.
  induction spread as [|[k2 v2] rest IH]; intros acc; [done|].
  cbn [foldl fst snd]. rewrite IH, reverse_cons, lookupField_app.
  destruct (lookupField k (reverse rest)); [done|].
  rewrite lookupField_setField. cbn [lookupField].
  by destruct (String.eqb k k2).
Qed.

(** X21. The arguments of a calendar tool can replace its action.  The
    body [{ action, ...toolArgs }] that [calendar_find_slots],
    [calendar_create_event] and [calendar_update_event] post gives every
    name the value the arguments give it, the name [action] included:
    the action of the tool is posted only when the arguments have no
    property [action]. *)
Theorem spread_arguments_override_the_action
    (a k : string) (fields : list (string * JSON)) :
  prop k (Some (withAction a (JObj fields)))
  = match lastField k fields with
    | Some v => Some v
    | None => if String.eqb k "action" then Some (JStr a) else None
    end.
Proof.
  unfold withAction. cbn [prop ownProps]. rewrite lookupField_spread.
  destruct (lastField k fields); [done|]. reflexivity.
Qed.

Section Tools.

Variable postJson : Endpoint -> JSON -> Outcome JSON.
Variable dateNow : Z.
Variable toStr : JSON -> Outcome string.
Variable toLowerCase : string -> string.
Variable toNumber : option JSON -> option Q.
Variable dateParse : option JSON -> option Q.
Variable toISOString : Q -> Outcome string.
Variable numToString : Z -> string.
Variable inferTimeZone : option JSON -> string -> string.
Variable parseTimeOfDay : string -> option (Z * Z).
Variable normalizeEmailAddress : option JSON -> string.
Variable zonedStartIso : Z -> Z * Z -> string -> Outcome string.

Lemma executeTool_memory name toolArgs mem :
  (executeTool postJson dateNow toStr toLowerCase toNumber dateParse
               toISOString numToString inferTimeZone parseTimeOfDay
               normalizeEmailAddress zonedStartIso
               name toolArgs mem).1
  = if String.eqb name "update_call_memory"
    then (updateCallMemory toStr toolArgs mem).1
    else mem.
Proof.
  unfold executeTool.
  repeat match goal with
         | |- context [String.eqb name ?t] =>
             destruct (String.eqb_spec name t) as [->|_]; [reflexivity|]
         end.
  destruct (String.eqb_spec name "update_call_memory") as [->|_].
  - cbn. reflexivity.
  - repeat match goal with
           | |- context [String.eqb name ?t] =>
               destruct (String.eqb_spec name t) as [->|_]
           | |- context [if ?b then _ else _] => destruct b
           end; reflexivity.
Qed.

(** X22. Only [update_call_memory] changes the memory of the call.
    Whatever the arguments and whatever the routes answer, a tool of any
    other name, known or not, succeeding or throwing, leaves the memory
    of the call as it was. *)
Theorem only_update_call_memory_changes_the_memory
    (name : string) (toolArgs : JSON) (mem : CallMemory) :
  name <> "update_call_memory" ->
  (executeTool postJson dateNow toStr toLowerCase toNumber dateParse
               toISOString numToString inferTimeZone parseTimeOfDay
               normalizeEmailAddress zonedStartIso
               name toolArgs mem).1 = mem.
Proof.
  intros Hne. rewrite executeTool_memory.
  by destruct (String.eqb_spec name "update_call_memory").
Qed.

(** X23. The notes of a call are only ever appended to.  After any
    sequence of tool calls, the notes of the memory are the notes of
    before followed by the notes of the [update_call_memory] calls that
    carried one, in the order of the calls: no tool removes, replaces or
    reorders a note.  A call whose note [String] cannot convert throws
    and appends nothing. *)
Theorem notes_are_only_appended
    (calls : list (string * JSON)) (mem : CallMemory) :
  notes (runTools postJson dateNow toStr toLowerCase toNumber dateParse
                  toISOString numToString inferTimeZone parseTimeOfDay
                  normalizeEmailAddress zonedStartIso calls mem)
  = notes mem ++ omap (noteOf toStr) calls.
Proof.
  revert mem. induction calls as [|[name toolArgs] rest IH]; intros mem.
  - cbn. by rewrite app_nil_r.
  - unfold runTools in *. cbn [foldl fst snd]. rewrite IH, executeTool_memory.
    unfold noteOf at 2. cbn [omap list_omap fst snd].
    change (list_omap _ _ (noteOf toStr) rest) with (omap (noteOf toStr) rest).
    destruct (String.eqb name "update_call_memory"); cbn [andb]; [|done].
    unfold updateCallMemory.
    destruct (truthyV (prop "note" (Some toolArgs))); [|done].
    destruct (stringOr toStr (prop "note" (Some toolArgs))) as [note|err];
      cbn [fst notes]; [|done].
    by rewrite <- app_assoc.
Qed.

Lemma stringOr_throws (v : option JSON) (err : JsError) :
  stringOr toStr v = Throws err ->
  exists x : JSON, v = Some x /\ toStr x = Throws err.
Proof.
  unfold stringOr. destruct v as [x|]; [|discriminate].
  destruct (truthyV (Some x)); [|discriminate]. intros H. by exists x.
Qed.

(** X24. The mock tools answer whatever the routes do, and throw only
    what [String] throws.  For each of the six tools the process answers
    itself, the outcome and the memory are the same whatever the routes of
    the calendar, the mail and the log would answer; if the call throws,
    the error is the one [String] threw on a property of the arguments;
    and [request_callback], [escalate_to_human] and [send_followup_sms],
    which convert nothing, always return a result. *)
Theorem mock_tools_answer_without_the_routes
    (otherRoutes : Endpoint -> JSON -> Outcome JSON)
    (name : string) (toolArgs : JSON) (mem : CallMemory) :
  name ∈ mockTools ->
  executeTool otherRoutes dateNow toStr toLowerCase toNumber dateParse
              toISOString numToString inferTimeZone parseTimeOfDay
              normalizeEmailAddress zonedStartIso name toolArgs mem
  = (executeTool postJson dateNow toStr toLowerCase toNumber dateParse
               toISOString numToString inferTimeZone parseTimeOfDay
               normalizeEmailAddress zonedStartIso
               name toolArgs mem)
  /\ (forall err : JsError,
        (executeTool postJson dateNow toStr toLowerCase toNumber dateParse
               toISOString numToString inferTimeZone parseTimeOfDay
               normalizeEmailAddress zonedStartIso
               name toolArgs mem).2 = Throws err ->
        exists (k : string) (v : JSON),
          prop k (Some toolArgs) = Some v /\ toStr v = Throws err)
  /\ (name ∈ plainMockTools ->
      exists value : JSON, (executeTool postJson dateNow toStr toLowerCase toNumber dateParse
               toISOString numToString inferTimeZone parseTimeOfDay
               normalizeEmailAddress zonedStartIso
               name toolArgs mem).2 = Returns value).
Proof.
  intros Hin. split; [|split].
  - unfold mockTools in Hin.
    repeat (apply elem_of_cons in Hin as [->|Hin]);
      [..|by apply elem_of_nil in Hin]; reflexivity.
  - intros err. unfold mockTools in Hin.
    repeat (apply elem_of_cons in Hin as [->|Hin]);
      [..|by apply elem_of_nil in Hin];
      unfold executeTool; cbn [String.eqb Ascii.eqb Bool.eqb snd]; cbn [snd].
    + unfold detectIntent, mbind, outcome_bind.
      destruct (stringOr toStr (prop "utterance" (Some toolArgs)))
        as [text|e] eqn:E; cbn [bind].
      * match goal with
        | |- (let '(_, _) := ?choice in _) = _ -> _ => by destruct choice
        end.
      * intros [= ->]. apply stringOr_throws in E as (x & Hx & Ht).
        by exists "utterance", x.
    + unfold updateCallMemory.
      destruct (truthyV (prop "note" (Some toolArgs))); [|discriminate].
      destruct (stringOr toStr (prop "note" (Some toolArgs)))
        as [text|e] eqn:E; cbn [snd]; [discriminate|].
      intros [= ->]. apply stringOr_throws in E as (x & Hx & Ht).
      by exists "note", x.
    + unfold lookupCustomer, mbind, outcome_bind.
      destruct (truthyV (prop "phone_number" (Some toolArgs))
                || truthyV (prop "email" (Some toolArgs))); [|discriminate].
      assert (Hemail :
        forall e0 : JsError,
          bind (if truthyV (prop "email" (Some toolArgs))
                then bind (stringOr toStr (prop "email" (Some toolArgs)))
                          (fun address =>
                             Returns (includes "vip" (toLowerCase address)))
                else Returns false)
               (fun mockExists : bool =>
                  Returns
                    (if mockExists
                     then obj [("exists", Some (JBool true));
                               ("customer_id", Some (JStr "CUST-EXAMPLE-001"));
                               ("name", Some (JStr "Alex Example"));
                               ("last_project",
                                Some (JStr "AI voice agent for property lead qualification"));
                               ("is_vip", Some (JBool true))]
                     else obj [("exists", Some (JBool false))]))
          = Throws e0 ->
          exists (k : string) (v : JSON),
            prop k (Some toolArgs) = Some v /\ toStr v = Throws e0).
      { intros e0.
        destruct (truthyV (prop "email" (Some toolArgs))); [|discriminate].
        destruct (stringOr toStr (prop "email" (Some toolArgs)))
          as [address|e] eqn:E'; cbn [bind]; [discriminate|].
        intros [= ->]. apply stringOr_throws in E' as (x & Hx & Ht).
        by exists "email", x. }
      destruct (truthyV (prop "phone_number" (Some toolArgs))).
      * destruct (stringOr toStr (prop "phone_number" (Some toolArgs)))
          as [digits|e] eqn:E; cbn [bind].
        -- destruct (String.eqb _ "2"); cbn [bind]; [discriminate|].
           apply Hemail.
        -- intros [= ->]. apply stringOr_throws in E as (x & Hx & Ht).
           by exists "phone_number", x.
      * cbn [bind]. apply Hemail.
    + discriminate.
    + discriminate.
    + discriminate.
  - intros Hplain. unfold plainMockTools in Hplain.
    repeat (apply elem_of_cons in Hplain as [->|Hplain]);
      [..|by apply elem_of_nil in Hplain]; eexists; reflexivity.
Qed.

(** X25. [email_send] is [email_draft_create] followed by
    [email_send_draft].  The tool makes the draft exactly as
    [email_draft_create] does on the same arguments, and fails as it
    fails; it throws if the answer holds no draft id; otherwise it sends
    that draft exactly as [email_send_draft] does, and reports the
    recipient it has normalised. *)
Theorem email_send_is_draft_then_send (toolArgs : JSON) (mem : CallMemory) :
  (executeTool postJson dateNow toStr toLowerCase toNumber dateParse
               toISOString numToString inferTimeZone parseTimeOfDay
               normalizeEmailAddress zonedStartIso
               "email_send" toolArgs mem).2
  = (draft ← (executeTool postJson dateNow toStr toLowerCase toNumber dateParse
               toISOString numToString inferTimeZone parseTimeOfDay
               normalizeEmailAddress zonedStartIso
               "email_draft_create" toolArgs mem).2;
     let draftId :=
       orV (prop "id" (prop "draft" (Some draft))) (prop "id" (Some draft)) in
     if truthyV draftId then
       sent ← (executeTool postJson dateNow toStr toLowerCase toNumber dateParse
               toISOString numToString inferTimeZone parseTimeOfDay
               normalizeEmailAddress zonedStartIso
               "email_send_draft" (obj [("draft_id", draftId)]) mem).2;
       Returns (sendReport (normalizeEmailAddress (rawRecipient toolArgs))
                           toolArgs sent)
     else Throws (newError "Failed to create draft")).
Proof.
  unfold executeTool, emailSend. cbn -[obj prop truthyV orV].
  destruct (truthyStr (normalizeEmailAddress (rawRecipient toolArgs)));
    cbn [snd]; [|reflexivity].
  destruct (postJson Gmail _) as [draft|err]; [|reflexivity].
  unfold mbind, outcome_bind. cbn [bind].
  destruct (orV (prop "id" (prop "draft" (Some draft))) (prop "id" (Some draft)))
    as [draftId|]; reflexivity.
Qed.

End Tools.

(** *** Concrete calls *)

Lemma only_update_call_memory_changes_the_memory_witness :
  (executeTool ExecutorSpec.noRoute 0 (fun _ => Returns "x") (fun t => t) (fun _ => None)
               (fun _ => None) (fun _ => Returns "x") (fun _ => "0")
               (fun _ _ => "UTC") (fun _ => None) (fun _ => "a@b.co")
               (fun _ _ _ => Returns "x")
               "email_send" (JObj [("to", JStr "a@b.co")]) newCallMemory).1
  = newCallMemory.
Proof.
  apply only_update_call_memory_changes_the_memory. discriminate.
Defined.

Lemma mock_tools_answer_without_the_routes_witness :
  executeTool (fun _ body => Returns body) 0 (fun _ => Returns "x") (fun t => t)
              (fun _ => None) (fun _ => None) (fun _ => Returns "x")
              (fun _ => "0") (fun _ _ => "UTC") (fun _ => None)
              (fun _ => "a@b.co") (fun _ _ _ => Returns "x")
              "lookup_customer" (JObj [("email", JStr "vip@example.com")])
              newCallMemory
  = executeTool ExecutorSpec.noRoute 0 (fun _ => Returns "x") (fun t => t)
                (fun _ => None) (fun _ => None) (fun _ => Returns "x")
                (fun _ => "0") (fun _ _ => "UTC") (fun _ => None)
                (fun _ => "a@b.co") (fun _ _ _ => Returns "x")
                "lookup_customer" (JObj [("email", JStr "vip@example.com")])
                newCallMemory.
Proof.
  eapply proj1, mock_tools_answer_without_the_routes.
  apply (bool_decide_unpack _). vm_compute. exact I.
Defined.

End ExecutorMore.

(** ** Theorems: the HTTP side of the server *)

Module HttpMore.
Import RateGate Admission Http.

Lemma amp_app (s : string) :
  "&amp;" +:+ s
  = String "&" (String "a" (String "m" (String "p" (String ";" s)))).
Proof. reflexivity. Qed.

Lemma prefix_nil (s : string) : String.prefix EmptyString s = true.
Proof. by destruct s. Qed.

Lemma prefix_amp (s : string) :
  String.prefix "amp;" (String "a" (String "m" (String "p" (String ";" s))))
  = true.
Proof.
  change (String.prefix EmptyString s = true). apply prefix_nil.
Qed.

Lemma ampersandsEscaped_amp (s : string) :
  ampersandsEscaped ("&amp;" +:+ s) = ampersandsEscaped s.
Proof.
  rewrite amp_app. cbn [ampersandsEscaped]. rewrite prefix_amp. reflexivity.
Qed.

Lemma unescapeSkipping_amp (s : string) :
  unescapeSkipping 0 ("&amp;" +:+ s) = String "&" (unescapeSkipping 0 s).
Proof.
  rewrite amp_app. cbn [unescapeSkipping]. rewrite prefix_amp. reflexivity.
Qed.

Lemma cons_app (c : ascii) (a b : string) : String c a +:+ b = String c (a +:+ b).
Proof. reflexivity. Qed.

Lemma escapeAmp_cons (c : ascii) (s : string) :
  escapeAmp (String c s)
  = if Ascii.eqb c "&"%char then "&amp;" +:+ escapeAmp s
    else String c (escapeAmp s).
Proof. reflexivity. Qed.

(** X26. Escaping for the TwiML changes ampersands and nothing else.  In
    the escaped text every ampersand begins [&amp;]; reading [&amp;] back
    as an ampersand gives the text that was escaped, so no two texts are
    escaped to the same one; and the escaped text of a concatenation is
    the concatenation of the escaped texts, every character other than
    the ampersand, the double quote included, staying as it is. *)
Theorem escaping_changes_ampersands_only (s t : string) :
  ampersandsEscaped (escapeAmp s) = true
  /\ unescapeAmp (escapeAmp s) = s
  /\ escapeAmp (s +:+ t) = escapeAmp s +:+ escapeAmp t
  /\ (forall c : ascii,
        c <> "&"%char ->
        escapeAmp (String c EmptyString) = String c EmptyString).
Proof.
  split; [|split; [|split]].
  - induction s as [|c s IH]; [done|].
    rewrite escapeAmp_cons. destruct (Ascii.eqb c "&"%char) eqn:E.
    + by rewrite ampersandsEscaped_amp.
    + cbn [ampersandsEscaped]. by rewrite E, IH.
  - unfold unescapeAmp. induction s as [|c s IH]; [done|].
    rewrite escapeAmp_cons. destruct (Ascii.eqb c "&"%char) eqn:E.
    + apply Ascii.eqb_eq in E as ->. by rewrite unescapeSkipping_amp, IH.
    + cbn [unescapeSkipping]. rewrite E. cbn [andb]. by rewrite IH.
  - induction s as [|c s IH]; [done|].
    rewrite cons_app, !escapeAmp_cons, IH.
    destruct (Ascii.eqb c "&"%char); [|done].
    by rewrite !amp_app, !cons_app.
  - intros c Hc. rewrite escapeAmp_cons.
    by destruct (Ascii.eqb_spec c "&"%char).
Qed.

Section Handler.

Variable encodeURIComponent : string -> string.
Variable lowerTrim : string -> string.
Variable handle : Request -> option string.
Variable PUBLIC_URL : option string.
Variable STREAM_SECRET : option string.

Lemma onRequest_store now req g store :
  (onRequest encodeURIComponent lowerTrim handle PUBLIC_URL STREAM_SECRET
             now req (g, store)).1.2
  = if limited req then (checkRateLimit now (address req) store).1 else store.
Proof.
  unfold onRequest, limited.
  destruct (isVoiceWebhook req); cbn [negb andb].
  { by destruct (_ || _). }
  destruct (isOutboundWebhook req); cbn [negb andb].
  { destruct (_ || _); [done|]. by destruct (parsedPath req). }
  destruct (parsedPath req) as [pathname|]; [|done].
  destruct (negb (String.eqb pathname "/api/health")); [|done].
  destruct (checkRateLimit now (address req) store) as [store' [|reason]]; done.
Qed.

Lemma onRequest_answer now req g store reason :
  (onRequest encodeURIComponent lowerTrim handle PUBLIC_URL STREAM_SECRET
             now req (g, store)).2
  = Responded (TooManyRequests reason)
  <-> limited req = true
      /\ (checkRateLimit now (address req) store).2 = Rejected reason.
Proof.
  unfold onRequest, limited.
  destruct (isVoiceWebhook req); cbn [negb andb].
  { destruct (_ || _); cbn [snd]; split; [done|by intros [? _]|done|by intros [? _]]. }
  destruct (isOutboundWebhook req); cbn [negb andb].
  { destruct (_ || _); [|destruct (parsedPath req)]; cbn [snd];
      (split; [done|by intros [? _]]). }
  destruct (parsedPath req) as [pathname|];
    [|cbn [snd]; split; [done|by intros [? _]]].
  destruct (negb (String.eqb pathname "/api/health")).
  - destruct (checkRateLimit now (address req) store) as [store' [|r]]; cbn [snd].
    + destruct (handle req); (split; [done|by intros [_ ?]]).
    + split; [by intros [= ->]|by intros [_ [= ->]]].
  - destruct (handle req); cbn [snd]; (split; [done|by intros [? _]]).
Qed.

(** X27. The rate limiter sees exactly the requests that are neither a
    Twilio webhook nor a health check.  After any sequence of requests the
    store of the limiter is what the limiter makes of the requests that
    are not answered as a webhook, whose URL parses and whose path is not
    [/api/health], in their order; and a request is answered 429 with a
    reason exactly when it is such a request and the limiter rejects it
    with that reason. *)
Theorem rate_limiter_sees_the_limited_requests
    (reqs : list (Z * Request)) (now : Z) (req : Request)
    (g : Global) (store : gmap string RateEntry) (reason : Reason) :
  (serve encodeURIComponent lowerTrim handle PUBLIC_URL STREAM_SECRET
         reqs (g, store)).2
  = limiterOn (List.filter (fun r => limited r.2) reqs) store
  /\ ((onRequest encodeURIComponent lowerTrim handle PUBLIC_URL STREAM_SECRET
                 now req (g, store)).2
      = Responded (TooManyRequests reason)
      <-> limited req = true
          /\ (checkRateLimit now (address req) store).2 = Rejected reason).
Proof.
  split; [|apply onRequest_answer].
  revert g store. induction reqs as [|[t r] rest IH]; intros g store; [done|].
  unfold serve, limiterOn in *. cbn [foldl List.filter fst snd].
  destruct (onRequest _ _ _ _ _ t r (g, store)) as [[g1 store1] answer] eqn:E.
  cbn [fst]. rewrite IH.
  pose proof (onRequest_store t r g store) as Hs. rewrite E in Hs.
  cbn [fst snd] in Hs. rewrite Hs.
  by destruct (limited r).
Qed.

End Handler.

End HttpMore.
